(** * ads_aggregator: aggregation engine and creative rotator

    A shallow embedding of [ads_aggregator/clients/base_client.py],
    [ads_aggregator/aggregator.py] and [ads_aggregator/rotator.py],
    followed by the properties of the specification that concern them.

    Modelling conventions.
    - Python exceptions are values of [exn]; a call that may raise returns a
      [result].  Only subclasses of [Exception] are represented, which is
      what [except Exception] catches.
    - A Python [int] is a [Z].  A Python [float] is a binary64 number: the
      model holds the rational that a finite float denotes, or the sentinel
      [inf] produced by [float('inf')], and every arithmetic operation
      rounds its exact result to the nearest binary64 number, ties to even
      ([binary64]).  The two zeros are one value.  Results beyond the
      largest binary64 number, about 1.8e308, where Python gives an
      infinity or raises [OverflowError], are outside the model, and so are
      NaN and the negative infinity.
    - The ad dictionaries are records whose fields are optional: [None] is an
      absent key.  They live in a heap and are handled through references,
      because the rotator stores, mutates and copies the caller's
      dictionaries.
    - Logging is not represented. *)

From Stdlib Require Import ZArith QArith Qcanon Qround Qpower String Lia Lqa
  Permutation.
From stdpp Require Import base option list numbers strings gmap.

Set Default Proof Using "Type".

(* ====================================================================== *)
(** * Python values, exceptions and the error monad *)
(* ====================================================================== *)

Module Py.

(** The messages of the [ValueError]s raised in the sources. *)
Inductive ValueError_msg : Type :=
  | StartAfterEnd                       (* base_client.py:78 *)
  | StartInFuture                       (* base_client.py:81 *)
  | EmptyCreatives                      (* rotator.py:46 *)
  | MissingField (field : string)       (* rotator.py:52 and :217 *)
  | NoCreativesAvailable                (* rotator.py:83 *)
  | NotAStrategy (name : string)        (* rotator.py:85, the Enum lookup *)
  | EmptySequence.                      (* max() or min() of an empty list *)

(** exceptions.py, and the built-in exceptions the modelled code can meet. *)
Inductive exn : Type :=
  | ValueError (msg : ValueError_msg)
  | KeyError (key : string)
  | IndexError
  | ZeroDivisionError
  | AdsAPIError
  | AuthenticationError
  | RateLimitError
  | DataNotFoundError
  | InvalidTokenError.

Inductive result (A : Type) : Type :=
  | Ok (a : A)
  | Raise (e : exn).
Arguments Ok {A} a.
Arguments Raise {A} e.

Global Instance result_ret : MRet result := λ A a, Ok a.

Global Instance result_bind : MBind result := λ A B k m,
  match m with
  | Ok a => k a
  | Raise e => Raise e
  end.

(** [try: body except Exception as e: handler(e)] *)
Definition try_except {A} (body : result A) (handler : exn → result A)
  : result A :=
  match body with
  | Ok a => Ok a
  | Raise e => handler e
  end.

Definition raises {A} (m : result A) : Prop := ∃ e, m = Raise e.

(** A Python [float]. *)
Inductive float : Type :=
  | Fin (q : Qc)
  | inf.

(** [a < b] on floats. *)
Definition float_ltb (a b : float) : bool :=
  match a, b with
  | Fin x, Fin y => bool_decide (x < y)%Qc
  | Fin _, inf => true
  | inf, _ => false
  end.

(** Nearest integer, ties to the even one. *)
Definition round_half_even (x : Q) : Z :=
  let n := Qfloor x in
  match (x - inject_Z n ?= 1 # 2)%Q with
  | Lt => n
  | Gt => (n + 1)%Z
  | Eq => if Z.even n then n else (n + 1)%Z
  end.

Definition pow2 (e : Z) : Q := (2 ^ e)%Q.

(** [floor(log2(x))] for [0 < x]. *)
Definition ilog2 (x : Q) : Z :=
  let l := (Z.log2 (Qnum x) - Z.log2 (Zpos (Qden x)))%Z in
  if Qle_bool (pow2 l) x then l else (l - 1)%Z.

(** The exponent of the last bit of the binary64 numbers around [x > 0]:
    they have 53 bits, and the subnormal ones are [2^-1074] apart. *)
Definition ulp_exponent (x : Q) : Z := Z.max (ilog2 x - 52) (-1074).

Definition binary64_pos (x : Q) : Q :=
  let e := ulp_exponent x in
  (inject_Z (round_half_even (x / pow2 e)) * pow2 e)%Q.

Definition binary64_Q (x : Q) : Q :=
  match (x ?= 0)%Q with
  | Eq => 0%Q
  | Gt => binary64_pos x
  | Lt => (- binary64_pos (- x))%Q
  end.

(** The binary64 number nearest to [x], ties to even: what the hardware
    returns for an operation whose exact result is [x]. *)
Definition binary64 (x : Qc) : Qc := Q2Qc (binary64_Q x).

(** An [int], taken exactly. *)
Definition of_int (z : Z) : Qc := Q2Qc (inject_Z z).

(** [float(z)], the conversion an [int] operand of a float operation goes
    through. *)
Definition float_of_int (z : Z) : Qc := binary64 (of_int z).

(** [a + b] and [a * b] on floats. *)
Definition float_add (a b : Qc) : Qc := binary64 (a + b)%Qc.
Definition float_mul (a b : Qc) : Qc := binary64 (a * b)%Qc.

(** The quotient of [a / b] for [b != 0]: the exact quotient rounded once,
    also when [a] and [b] are two [int]s, given by [of_int]. *)
Definition float_div (a b : Qc) : Qc := binary64 (a / b)%Qc.

(** [a / b], true division. *)
Definition truediv (a b : Qc) : result Qc :=
  if bool_decide (b = 0%Qc) then Raise ZeroDivisionError
  else Ok (float_div a b).

(** [round(x, ndigits)] for a float [x] and [ndigits >= 0]: the decimal
    number with [ndigits] digits nearest to the value of [x], ties to even,
    converted back to a float. *)
Definition round (x : Qc) (ndigits : nat) : Qc :=
  let scale := inject_Z (10 ^ Z.of_nat ndigits) in
  binary64 (Q2Qc (inject_Z (round_half_even (x * scale)%Q) / scale)%Q).

(** [sum(items)] over floats.  The start value is the integer 0, to which
    the first item is added exactly.  How the interpreter adds up the
    others depends on its version: CPython adds them from left to right up
    to 3.11 and compensates the rounding errors from 3.12 on, and the
    package supports both.  [float_sum x rest] stands for that loop,
    started at [x]. *)
Definition sum_floats (float_sum : Qc → list Qc → Qc) (items : list Qc)
  : Qc :=
  match items with
  | [] => 0%Qc
  | x :: rest => float_sum x rest
  end.

(** The loop of CPython up to 3.11: [f_result += item]. *)
Definition float_sum_plain : Qc → list Qc → Qc := foldl float_add.

(** [seq[i]] on a list, for [i >= 0]. *)
Definition list_getitem {A} (l : list A) (i : nat) : result A :=
  match l !! i with
  | Some a => Ok a
  | None => Raise IndexError
  end.

(** [random.choice(seq)]: [seq[randbelow(len(seq))]]; [rnd] is the entropy
    the call consumes, and an empty sequence raises [IndexError]. *)
Definition random_choice {A} (rnd : nat) (l : list A) : result A :=
  list_getitem l (rnd mod length l).

(** An ad dictionary (an [AdRecord]): the keys the code reads or writes,
    with values of the types the docstrings and the clients give them. *)
Record dict : Type := mkDict {
  ad_id : option string;
  ad_name : option string;
  impressions : option Z;
  clicks : option Z;
  spend : option Qc;
  ctr : option float;
  cpc : option float;
}.

Definition empty_dict : dict := mkDict None None None None None None None.

(** [key in d] *)
Definition contains (d : dict) (key : string) : bool :=
  if String.eqb key "ad_id" then bool_decide (is_Some (ad_id d))
  else if String.eqb key "ad_name" then bool_decide (is_Some (ad_name d))
  else if String.eqb key "impressions" then bool_decide (is_Some (impressions d))
  else if String.eqb key "clicks" then bool_decide (is_Some (clicks d))
  else if String.eqb key "spend" then bool_decide (is_Some (spend d))
  else if String.eqb key "ctr" then bool_decide (is_Some (ctr d))
  else if String.eqb key "cpc" then bool_decide (is_Some (cpc d))
  else false.

(** [d[key]] *)
Definition getitem {A} (field : dict → option A) (key : string) (d : dict)
  : result A :=
  match field d with
  | Some v => Ok v
  | None => Raise (KeyError key)
  end.

Definition set_ctr (v : float) (d : dict) : dict :=
  mkDict (ad_id d) (ad_name d) (impressions d) (clicks d) (spend d)
         (Some v) (cpc d).

Definition set_cpc (v : float) (d : dict) : dict :=
  mkDict (ad_id d) (ad_name d) (impressions d) (clicks d) (spend d)
         (ctr d) (Some v).

End Py.

Import Py.

(* ====================================================================== *)
(** * clients/base_client.py *)
(* ====================================================================== *)

Module BaseAdsClient.

(** A [datetime.date], as its proleptic Gregorian ordinal. *)
Definition date : Type := Z.

(** base_client.py:63 *)
Definition _calculate_ctr (impressions clicks : Z) : result float :=
  if (impressions =? 0)%Z then Ok (Fin 0%Qc)
  else
    q ← truediv (of_int clicks) (of_int impressions);
    Ok (Fin (round (float_mul q (float_of_int 100)) 2)).

(** base_client.py:69 *)
Definition _calculate_cpc (spend : Qc) (clicks : Z) : result float :=
  if (clicks =? 0)%Z then Ok (Fin 0%Qc)
  else
    q ← truediv spend (float_of_int clicks);
    Ok (Fin (round q 2)).

(** base_client.py:75; [today] is the value of [date.today()]. *)
Definition _validate_date_range (today start_date end_date : date)
  : result unit :=
  if (start_date >? end_date)%Z then Raise (ValueError StartAfterEnd)
  else if (start_date >? today)%Z then Raise (ValueError StartInFuture)
  else Ok tt.

(** The ad dictionary the platform clients build from the raw counters,
    google_ads_client.py:141 and meta_ads_client.py:121. *)
Definition format_ad (id name : string) (impressions clicks : Z) (spend : Qc)
  : result dict :=
  ctr ← _calculate_ctr impressions clicks;
  cpc ← _calculate_cpc spend clicks;
  Ok (mkDict (Some id) (Some name) (Some impressions) (Some clicks)
             (Some spend) (Some ctr) (Some cpc)).

End BaseAdsClient.

(* ====================================================================== *)
(** * aggregator.py *)
(* ====================================================================== *)

(** A campaign dictionary as [fetch_campaigns] returns it. *)
Module Campaign.
Record t : Type := mk {
  campaign_id : string;
  name : string;
  impressions : Z;
  clicks : Z;
  spend : Qc;
}.
End Campaign.

(** The unified dictionary built at aggregator.py:101 and :118. *)
Module CampaignRecord.
Record t : Type := mk {
  platform : string;
  campaign_id : string;
  name : string;
  impressions : Z;
  clicks : Z;
  spend : Qc;
  ads : list dict;
}.
End CampaignRecord.

(** An entry of ["platform_breakdown"], aggregator.py:172. *)
Module PlatformStats.
Record t : Type := mk {
  campaigns : nat;
  ads : nat;
  impressions : Z;
  clicks : Z;
  spend : Qc;
}.
End PlatformStats.

(** The ["totals"] of aggregator.py:161. *)
Module Totals.
Record t : Type := mk {
  impressions : Z;
  clicks : Z;
  spend : Qc;
}.
End Totals.

(** The dictionary [get_summary_stats] returns, aggregator.py:156. *)
Module SummaryStats.
Record t : Type := mk {
  total_platforms : nat;
  total_campaigns : nat;
  total_ads : nat;
  platform_breakdown : gmap string PlatformStats.t;
  totals : Totals.t;
}.
End SummaryStats.

Module AdsAggregator.

Import BaseAdsClient.

(** An instance of a subclass of [BaseAdsClient], seen from the aggregator:
    its name and the outcome of its two abstract methods. *)
Record client : Type := mkClient {
  platform_name : string;
  fetch_campaigns : date → date → result (list Campaign.t);
  fetch_ads : string → date → date → result (list dict);
}.

Definition is_AuthenticationError (e : exn) : bool :=
  match e with
  | AuthenticationError | InvalidTokenError => true
  | _ => false
  end.

Definition is_RateLimitError (e : exn) : bool :=
  match e with
  | RateLimitError => true
  | _ => false
  end.

(** The shape shared by [GoogleAdsClient] and [MetaAdsClient]: both methods
    validate the date range first, then run the API request, whose failures
    are re-raised or wrapped into [DataNotFoundError].  [api_campaigns] and
    [api_ads] stand for the request, which the repository mocks with random
    data. *)
Definition platform_client (name : string) (today : date)
    (api_campaigns : date → date → result (list Campaign.t))
    (api_ads : string → date → date → result (list dict)) : client :=
  {| platform_name := name;
     fetch_campaigns := λ start_date end_date,
       _ ← _validate_date_range today start_date end_date;
       try_except (api_campaigns start_date end_date)
         (λ e, if is_AuthenticationError e || is_RateLimitError e
               then Raise e else Raise DataNotFoundError);
     fetch_ads := λ campaign_id start_date end_date,
       _ ← _validate_date_range today start_date end_date;
       try_except (api_ads campaign_id start_date end_date)
         (λ e, if is_AuthenticationError e
               then Raise e else Raise DataNotFoundError) |}.

Record t : Type := mk { clients : list client }.

Definition formatted_campaign (c : client) (campaign : Campaign.t)
    (ads : list dict) : CampaignRecord.t :=
  {| CampaignRecord.platform := platform_name c;
     CampaignRecord.campaign_id := Campaign.campaign_id campaign;
     CampaignRecord.name := Campaign.name campaign;
     CampaignRecord.impressions := Campaign.impressions campaign;
     CampaignRecord.clicks := Campaign.clicks campaign;
     CampaignRecord.spend := Campaign.spend campaign;
     CampaignRecord.ads := ads |}.

(** The loop of aggregator.py:95-127; [platform_data] is the list built so
    far. *)
Fixpoint _fetch_client_data_loop (c : client) (start_date end_date : date)
    (campaigns : list Campaign.t) (platform_data : list CampaignRecord.t)
  : result (list CampaignRecord.t) :=
  match campaigns with
  | [] => Ok platform_data
  | campaign :: rest =>
      platform_data ← try_except
        (ads ← fetch_ads c (Campaign.campaign_id campaign) start_date end_date;
         Ok (platform_data ++ [formatted_campaign c campaign ads]))
        (λ _, Ok (platform_data ++ [formatted_campaign c campaign []]));
      _fetch_client_data_loop c start_date end_date rest platform_data
  end.

(** aggregator.py:77 *)
Definition _fetch_client_data (c : client) (start_date end_date : date)
  : result (list CampaignRecord.t) :=
  campaigns ← fetch_campaigns c start_date end_date;
  _fetch_client_data_loop c start_date end_date campaigns [].

(** The loops of aggregator.py:54-63 and :66-73 over the clients in the
    order they are handled; [all_data] is the list built so far. *)
Fixpoint aggregate_loop (start_date end_date : date) (pending : list client)
    (all_data : list CampaignRecord.t) : result (list CampaignRecord.t) :=
  match pending with
  | [] => Ok all_data
  | c :: rest =>
      all_data ← try_except
        (platform_data ← _fetch_client_data c start_date end_date;
         Ok (all_data ++ platform_data))
        (λ _, Ok all_data);
      aggregate_loop start_date end_date rest all_data
  end.

(** aggregator.py:28.  Each worker of the pool runs [_fetch_client_data] for
    one client and shares nothing with the others, so the parallel branch is
    the sequential loop taken over [completed], the order in which
    [as_completed] hands the futures back: some permutation of the clients. *)
Definition aggregate_data (self : t) (start_date end_date : date)
    (parallel : bool) (completed : list client)
  : result (list CampaignRecord.t) :=
  if parallel && (1 <? length (clients self))%nat then
    aggregate_loop start_date end_date completed []
  else
    aggregate_loop start_date end_date (clients self) [].

(** aggregator.py:200 *)
Definition filter_by_platform (data : list CampaignRecord.t)
    (platform : string) : list CampaignRecord.t :=
  filter (λ campaign, CampaignRecord.platform campaign = platform) data.

(** aggregator.py:213 *)
Definition filter_by_spend_threshold (data : list CampaignRecord.t)
    (min_spend : Qc) : list CampaignRecord.t :=
  filter (λ campaign, (min_spend ≤ CampaignRecord.spend campaign)%Qc) data.

(** The loop body of aggregator.py:169-189 on the platform breakdown and
    the totals. *)
Definition summary_step
    (acc : gmap string PlatformStats.t * Totals.t)
    (campaign : CampaignRecord.t) : gmap string PlatformStats.t * Totals.t :=
  let platform := CampaignRecord.platform campaign in
  let breakdown :=
    match acc.1 !! platform with
    | None => <[platform := PlatformStats.mk 0 0 0 0 0%Qc]> acc.1
    | Some _ => acc.1
    end in
  let entry := default (PlatformStats.mk 0 0 0 0 0%Qc) (breakdown !! platform) in
  (<[platform :=
       PlatformStats.mk
         (PlatformStats.campaigns entry + 1)
         (PlatformStats.ads entry + length (CampaignRecord.ads campaign))
         (PlatformStats.impressions entry + CampaignRecord.impressions campaign)
         (PlatformStats.clicks entry + CampaignRecord.clicks campaign)
         (float_add (PlatformStats.spend entry)
                    (CampaignRecord.spend campaign))]>
     breakdown,
   Totals.mk
     (Totals.impressions acc.2 + CampaignRecord.impressions campaign)
     (Totals.clicks acc.2 + CampaignRecord.clicks campaign)
     (float_add (Totals.spend acc.2) (CampaignRecord.spend campaign))).

(** aggregator.py:146 *)
Definition get_summary_stats (data : list CampaignRecord.t) : SummaryStats.t :=
  let total_platforms :=
    size (list_to_set (map CampaignRecord.platform data) : gset string) in
  let total_campaigns := length data in
  let total_ads :=
    foldl (λ s campaign, s + length (CampaignRecord.ads campaign)) 0 data in
  let '(breakdown, totals) :=
    foldl summary_step (∅, Totals.mk 0 0 0%Qc) data in
  {| SummaryStats.total_platforms := total_platforms;
     SummaryStats.total_campaigns := total_campaigns;
     SummaryStats.total_ads := total_ads;
     SummaryStats.platform_breakdown :=
       (λ entry,
          PlatformStats.mk (PlatformStats.campaigns entry)
            (PlatformStats.ads entry) (PlatformStats.impressions entry)
            (PlatformStats.clicks entry)
            (round (PlatformStats.spend entry) 2)) <$> breakdown;
     SummaryStats.totals :=
       Totals.mk (Totals.impressions totals) (Totals.clicks totals)
                 (round (Totals.spend totals) 2) |}.

End AdsAggregator.

(* ====================================================================== *)
(** * rotator.py *)
(* ====================================================================== *)

(** An entry of ["best_performing"] or ["worst_performing"],
    rotator.py:175. *)
Module Performer.
Record t : Type := mk {
  ad_id : string;
  ad_name : string;
  value : float;
}.
End Performer.

(** The dictionary [get_rotation_stats] returns, rotator.py:160; an
    absent key of ["best_performing"] or ["worst_performing"] is [None]. *)
Module RotationStats.
Record t : Type := mk {
  total_creatives : nat;
  total_impressions : Z;
  total_clicks : Z;
  total_spend : Qc;
  average_ctr : Qc;
  average_cpc : Qc;
  best_ctr : option Performer.t;
  worst_ctr : option Performer.t;
  best_cpc : option Performer.t;
  worst_cpc : option Performer.t;
}.
End RotationStats.

Module CreativeRotator.

(** A reference to a dictionary of the heap: its position there. *)
Abbreviation ref := nat (only parsing).

(** The dictionaries of the program and the two attributes of the rotator.
    The list bound to [self.creatives] holds references: the rotator shares
    its dictionaries with whoever passed them in.  The list itself is a
    value here: that the constructor keeps the very list it is given is not
    represented, and the only code that runs is that of the rotator. *)
Record state : Type := mkState {
  heap : list dict;
  creatives : list ref;
  _round_robin_index : nat;
}.

(** Statements of a method: they transform the state and return a value or
    raise; the state reached when an exception is raised is kept. *)
Definition M (A : Type) : Type := state → state * result A.

Global Instance M_ret : MRet M := λ A a st, (st, Ok a).

Global Instance M_bind : MBind M := λ A B k m st,
  match m st with
  | (st', Ok a) => k a st'
  | (st', Raise e) => (st', Raise e)
  end.

Definition raise {A} (e : exn) : M A := λ st, (st, Raise e).
Definition lift {A} (r : result A) : M A := λ st, (st, r).
Definition gets {A} (f : state → A) : M A := λ st, (st, Ok (f st)).
Definition modify (f : state → state) : M unit := λ st, (f st, Ok tt).

Definition lookup_heap (h : list dict) (r : ref) : dict :=
  default empty_dict (h !! r).

Definition deref (r : ref) : M dict := gets (λ st, lookup_heap (heap st) r).

(** [r[key]] *)
Definition getfield {A} (field : dict → option A) (key : string) (r : ref)
  : M A :=
  d ← deref r; lift (getitem field key d).

(** [r[key] = v], as the update [f] of the dictionary. *)
Definition setfield (r : ref) (f : dict → dict) : M unit :=
  modify (λ st, mkState (alter f r (heap st)) (creatives st)
                        (_round_robin_index st)).

Definition set_creatives (cs : list ref) : M unit :=
  modify (λ st, mkState (heap st) cs (_round_robin_index st)).

Definition set_index (i : nat) : M unit :=
  modify (λ st, mkState (heap st) (creatives st) i).

(** A new dictionary with the items of [d]. *)
Definition alloc (d : dict) : M ref :=
  λ st, (mkState (heap st ++ [d]) (creatives st) (_round_robin_index st),
         Ok (length (heap st))).

(** [r.copy()] *)
Definition copy (r : ref) : M ref := d ← deref r; alloc d.

(** [for x in l: body(x)] *)
Fixpoint for_each {A} (l : list A) (body : A → M unit) : M unit :=
  match l with
  | [] => mret tt
  | x :: l' => _ ← body x; for_each l' body
  end.

(** [[x for x in l if cond(x)]] *)
Fixpoint comprehension {A} (cond : A → M bool) (l : list A) : M (list A) :=
  match l with
  | [] => mret []
  | x :: l' =>
      b ← cond x;
      rest ← comprehension cond l';
      mret (if b : bool then x :: rest else rest)
  end.

(** The loop of [max(items, key=...)] and [min(items, key=...)]: the item
    kept changes only when the new key is strictly better. *)
Fixpoint extremum_loop (better : float → float → bool) (key : ref → M float)
    (items : list ref) (best : ref) (bestval : float) : M ref :=
  match items with
  | [] => mret best
  | item :: rest =>
      val ← key item;
      if better val bestval
      then extremum_loop better key rest item val
      else extremum_loop better key rest best bestval
  end.

Definition extremum (better : float → float → bool) (items : list ref)
    (key : ref → M float) : M ref :=
  match items with
  | [] => raise (ValueError EmptySequence)
  | item :: rest => val ← key item; extremum_loop better key rest item val
  end.

(** [max(items, key=key)]: replaces on [val > maxval]. *)
Definition py_max := extremum (λ val maxval, float_ltb maxval val).

(** [min(items, key=key)]: replaces on [val < minval]. *)
Definition py_min := extremum (λ val minval, float_ltb val minval).

(** rotator.py:6 *)
Inductive RotationStrategy : Type := ROUND_ROBIN | BEST_CTR | LOWEST_CPC.

(** [RotationStrategy(value)] *)
Definition RotationStrategy_of (value : string) : result RotationStrategy :=
  if String.eqb value "round_robin" then Ok ROUND_ROBIN
  else if String.eqb value "best_ctr" then Ok BEST_CTR
  else if String.eqb value "lowest_cpc" then Ok LOWEST_CPC
  else Raise (ValueError (NotAStrategy value)).

Definition required_fields : list string :=
  ["ad_id"; "ad_name"; "impressions"; "clicks"; "spend"]%string.

(** rotator.py:50-52 and :215-217 *)
Definition check_required_fields (creative : ref) : M unit :=
  d ← deref creative;
  for_each required_fields (λ field,
    if contains d field then mret tt
    else raise (ValueError (MissingField field))).

(** rotator.py:43 *)
Definition _validate_creatives : M unit :=
  cs ← gets creatives;
  match cs with
  | [] => raise (ValueError EmptyCreatives)
  | _ => for_each cs check_required_fields
  end.

(** [(clicks / impressions * 100) if impressions > 0 else 0.0] *)
Definition backfilled_ctr (impressions clicks : Z) : result float :=
  if (impressions >? 0)%Z then
    q ← truediv (of_int clicks) (of_int impressions);
    Ok (Fin (float_mul q (float_of_int 100)))
  else Ok (Fin 0%Qc).

(** [(spend / clicks) if clicks > 0 else float('inf')] *)
Definition backfilled_cpc (spend : Qc) (clicks : Z) : result float :=
  if (clicks >? 0)%Z then
    q ← truediv spend (float_of_int clicks);
    Ok (Fin q)
  else Ok inf.

(** rotator.py:58-61 and :220-221 *)
Definition ensure_ctr (creative : ref) : M unit :=
  d ← deref creative;
  if contains d "ctr" then mret tt
  else
    impressions ← getfield Py.impressions "impressions" creative;
    clicks ← getfield Py.clicks "clicks" creative;
    v ← lift (backfilled_ctr impressions clicks);
    setfield creative (set_ctr v).

(** rotator.py:64-67 and :223-224 *)
Definition ensure_cpc (creative : ref) : M unit :=
  d ← deref creative;
  if contains d "cpc" then mret tt
  else
    spend ← getfield Py.spend "spend" creative;
    clicks ← getfield Py.clicks "clicks" creative;
    v ← lift (backfilled_cpc spend clicks);
    setfield creative (set_cpc v).

(** rotator.py:54 *)
Definition _ensure_metrics : M unit :=
  cs ← gets creatives;
  for_each cs (λ creative, _ ← ensure_ctr creative; ensure_cpc creative).

(** rotator.py:23.  [creatives] is the argument, [h] the heap at the call;
    when the result is [Raise] no rotator exists. *)
Definition __init__ (creatives : list ref) (h : list dict)
  : state * result unit :=
  (_ ← _validate_creatives; _ensure_metrics) (mkState h creatives 0).

(** rotator.py:96 *)
Definition _round_robin_choice : M ref :=
  cs ← gets creatives;
  i ← gets _round_robin_index;
  creative ← lift (list_getitem cs i);
  _ ← set_index ((i + 1) mod length cs);
  copy creative.

(** rotator.py:107 *)
Definition _best_ctr_choice (rnd : nat) : M ref :=
  cs ← gets creatives;
  valid_creatives ← comprehension (λ c,
      impressions ← getfield Py.impressions "impressions" c;
      mret (impressions >? 0)%Z) cs;
  match valid_creatives with
  | [] => c ← lift (random_choice rnd cs); copy c
  | _ =>
      best_creative ← py_max valid_creatives (getfield Py.ctr "ctr");
      copy best_creative
  end.

(** rotator.py:124 *)
Definition _lowest_cpc_choice (rnd : nat) : M ref :=
  cs ← gets creatives;
  valid_creatives ← comprehension (λ c,
      clicks ← getfield Py.clicks "clicks" c;
      mret (clicks >? 0)%Z) cs;
  match valid_creatives with
  | [] => c ← lift (random_choice rnd cs); copy c
  | _ =>
      best_creative ← py_min valid_creatives (getfield Py.cpc "cpc");
      copy best_creative
  end.

(** rotator.py:69; [rnd] feeds the [random.choice] of the fallbacks. *)
Definition choose_next (strategy : string) (rnd : nat) : M ref :=
  cs ← gets creatives;
  match cs with
  | [] => raise (ValueError NoCreativesAvailable)
  | _ =>
      strategy_enum ← lift (RotationStrategy_of strategy);
      match strategy_enum with
      | ROUND_ROBIN => _round_robin_choice
      | BEST_CTR => _best_ctr_choice rnd
      | LOWEST_CPC => _lowest_cpc_choice rnd
      end
  end.

(** rotator.py:203 *)
Definition reset_round_robin : M unit := set_index 0.

(** rotator.py:207 *)
Definition add_creative (creative : ref) : M unit :=
  _ ← check_required_fields creative;
  _ ← ensure_ctr creative;
  _ ← ensure_cpc creative;
  cs ← gets creatives;
  set_creatives (cs ++ [creative]).

(** rotator.py:228 *)
Definition remove_creative (ad_id : string) : M bool :=
  cs ← gets creatives;
  let initial_length := length cs in
  kept ← comprehension (λ c,
      id ← getfield Py.ad_id "ad_id" c;
      mret (negb (String.eqb id ad_id))) cs;
  _ ← set_creatives kept;
  if (length kept <? initial_length)%nat then
    i ← gets _round_robin_index;
    _ ← (if (length kept <=? i)%nat then set_index 0 else mret tt);
    mret true
  else mret false.

(** The loop of rotator.py:266-271 over the values [i] of
    [range(iterations)]; [rnd i] feeds the [i]-th call. *)
Fixpoint simulate_loop (strategy : string) (rnd : nat → nat)
    (indices : list nat) (rotation_sequence : list (nat * ref))
  : M (list (nat * ref)) :=
  match indices with
  | [] => mret rotation_sequence
  | i :: rest =>
      chosen ← choose_next strategy (rnd i);
      simulate_loop strategy rnd rest (rotation_sequence ++ [(i + 1, chosen)])
  end.

(** rotator.py:249; each element of the result is the pair of its
    ["iteration"] and its ["chosen_creative"]. *)
Definition simulate_rotation (iterations : Z) (strategy : string)
    (rnd : nat → nat) : M (list (nat * ref)) :=
  _ ← (if String.eqb strategy "round_robin" then reset_round_robin
       else mret tt);
  simulate_loop strategy rnd (seq 0 (Z.to_nat iterations)) [].

(** [sum(term(c) for c in l)], from the left; [acc] is the sum so far. *)
Fixpoint sum_loop {A} (add : A → A → A) (term : nat → M A) (l : list nat)
    (acc : A) : M A :=
  match l with
  | [] => mret acc
  | c :: l' => v ← term c; sum_loop add term l' (add acc v)
  end.

(** [[term(c) for c in l]] *)
Fixpoint gather {A} (term : nat → M A) (l : list nat) : M (list A) :=
  match l with
  | [] => mret []
  | c :: l' => v ← term c; rest ← gather term l'; mret (v :: rest)
  end.

(** The dictionary of rotator.py:175-199 for the creative [r]. *)
Definition performer (field : dict → option float) (key : string) (r : nat)
  : M Performer.t :=
  id ← getfield Py.ad_id "ad_id" r;
  name ← getfield Py.ad_name "ad_name" r;
  v ← getfield field key r;
  mret (Performer.mk id name v).

(** rotator.py:141; [float_sum] is the summation loop of the interpreter,
    see [sum_floats]. *)
Definition get_rotation_stats (float_sum : Qc → list Qc → Qc)
  : M RotationStats.t :=
  cs ← gets creatives;
  total_impressions ←
    sum_loop Z.add (getfield Py.impressions "impressions") cs 0%Z;
  total_clicks ← sum_loop Z.add (getfield Py.clicks "clicks") cs 0%Z;
  spends ← gather (getfield Py.spend "spend") cs;
  let total_spend := sum_floats float_sum spends in
  avg_ctr ←
    (if (total_impressions >? 0)%Z then
       q ← lift (truediv (of_int total_clicks) (of_int total_impressions));
       mret (float_mul q (float_of_int 100))
     else mret 0%Qc);
  avg_cpc ←
    (if (total_clicks >? 0)%Z then
       lift (truediv total_spend (float_of_int total_clicks))
     else mret 0%Qc);
  valid_ctr_creatives ← comprehension (λ c,
      impressions ← getfield Py.impressions "impressions" c;
      mret (impressions >? 0)%Z) cs;
  valid_cpc_creatives ← comprehension (λ c,
      clicks ← getfield Py.clicks "clicks" c;
      mret (clicks >? 0)%Z) cs;
  ctr_performers ←
    match valid_ctr_creatives with
    | [] => mret (None, None)
    | _ =>
        best_ctr ← py_max valid_ctr_creatives (getfield Py.ctr "ctr");
        worst_ctr ← py_min valid_ctr_creatives (getfield Py.ctr "ctr");
        best ← performer Py.ctr "ctr" best_ctr;
        worst ← performer Py.ctr "ctr" worst_ctr;
        mret (Some best, Some worst)
    end;
  cpc_performers ←
    match valid_cpc_creatives with
    | [] => mret (None, None)
    | _ =>
        best_cpc ← py_min valid_cpc_creatives (getfield Py.cpc "cpc");
        worst_cpc ← py_max valid_cpc_creatives (getfield Py.cpc "cpc");
        best ← performer Py.cpc "cpc" best_cpc;
        worst ← performer Py.cpc "cpc" worst_cpc;
        mret (Some best, Some worst)
    end;
  mret {| RotationStats.total_creatives := length cs;
          RotationStats.total_impressions := total_impressions;
          RotationStats.total_clicks := total_clicks;
          RotationStats.total_spend := round total_spend 2;
          RotationStats.average_ctr := round avg_ctr 2;
          RotationStats.average_cpc := round avg_cpc 2;
          RotationStats.best_ctr := ctr_performers.1;
          RotationStats.worst_ctr := ctr_performers.2;
          RotationStats.best_cpc := cpc_performers.1;
          RotationStats.worst_cpc := cpc_performers.2 |}.

(** The states a rotator goes through: those a successful construction
    yields, and those the public methods lead to, whatever they return.
    Between two calls the caller may create dictionaries. *)
Inductive reachable : state → Prop :=
  | reach_init cs h st :
      __init__ cs h = (st, Ok tt) → reachable st
  | reach_choose_next st strategy rnd :
      reachable st → reachable (choose_next strategy rnd st).1
  | reach_add_creative st creative :
      reachable st → reachable (add_creative creative st).1
  | reach_remove_creative st ad_id :
      reachable st → reachable (remove_creative ad_id st).1
  | reach_reset_round_robin st :
      reachable st → reachable (reset_round_robin st).1
  | reach_simulate_rotation st iterations strategy rnd :
      reachable st → reachable (simulate_rotation iterations strategy rnd st).1
  | reach_new_dict st d :
      reachable st →
      reachable (mkState (heap st ++ [d]) (creatives st)
                         (_round_robin_index st)).

End CreativeRotator.

(* ====================================================================== *)
(** * Notions used in the statements *)
(* ====================================================================== *)

Import BaseAdsClient.

Section AggregatorNotions.

Import AdsAggregator.

Variables start_date end_date : date.

(** The ads a campaign ends up with: those fetched, or none. *)
Definition ads_or_empty (c : client) (campaign : Campaign.t) : list dict :=
  match fetch_ads c (Campaign.campaign_id campaign) start_date end_date with
  | Ok ads => ads
  | Raise _ => []
  end.

Definition fetch_succeeds (c : client) : bool :=
  match fetch_campaigns c start_date end_date with
  | Ok _ => true
  | Raise _ => false
  end.

(** What a client whose fetch succeeds contributes to the result. *)
Definition contribution (c : client) : list CampaignRecord.t :=
  match _fetch_client_data c start_date end_date with
  | Ok platform_data => platform_data
  | Raise _ => []
  end.

(** The order in which [aggregate_data] handles the clients. *)
Definition handling_order (self : AdsAggregator.t) (parallel : bool)
    (completed : list client) : list client :=
  if parallel && (1 <? length (clients self))%nat then completed
  else clients self.

(** A date range the platform clients reject. *)
Definition malformed_range (today : date) : Prop :=
  (start_date > end_date)%Z ∨ (start_date > today)%Z.

End AggregatorNotions.

(** A client of the shape of [GoogleAdsClient] and [MetaAdsClient]. *)
Definition is_platform_client (today : date) (c : AdsAggregator.client)
  : Prop :=
  ∃ name api_campaigns api_ads,
    c = AdsAggregator.platform_client name today api_campaigns api_ads.

(* ====================================================================== *)
(** * Concrete data: the fixtures of the test suite *)
(* ====================================================================== *)

Module Fixtures.

Import AdsAggregator.
Local Open Scope string_scope.

(** [date(2023, 1, 1)] and [date(2023, 1, 31)], tests/test_aggregator.py:69 *)
Definition jan_1 : date := 738521%Z.
Definition jan_31 : date := 738551%Z.

Definition test_ad (id name : string) : dict :=
  mkDict (Some id) (Some name) (Some 500%Z) (Some 25%Z)
         (Some (Q2Qc (25 # 2))) (Some (Fin (of_int 5)))
         (Some (Fin (Q2Qc (1 # 2)))).

(** tests/test_aggregator.py:9 *)
Definition MockAdsClient (platform_name : string) (should_fail : bool)
  : client :=
  {| platform_name := platform_name;
     fetch_campaigns := λ _ _,
       if should_fail then Raise AdsAPIError
       else Ok [Campaign.mk (platform_name ++ "_camp_1")
                            (platform_name ++ " Campaign 1")
                            1000 50 (of_int 25)];
     fetch_ads := λ campaign_id _ _,
       if should_fail then Raise AdsAPIError
       else Ok [test_ad (campaign_id ++ "_ad_1") "Test Ad 1";
                test_ad (campaign_id ++ "_ad_2") "Test Ad 2"] |}.

(** A client with two campaigns whose ads cannot be fetched for the first. *)
Definition half_failing_client : client :=
  {| platform_name := "half";
     fetch_campaigns := λ _ _,
       Ok [Campaign.mk "camp_1" "Campaign 1" 1000 50 (of_int 25);
           Campaign.mk "camp_2" "Campaign 2" 2000 40 (of_int 20)];
     fetch_ads := λ campaign_id _ _,
       if String.eqb campaign_id "camp_1" then Raise RateLimitError
       else Ok [test_ad "camp_2_ad_1" "Test Ad 1"] |}.

(** A platform client whose requests succeed, on a day after [jan_31]. *)
Definition google_client : client :=
  platform_client "google" 738600%Z
    (λ _ _, Ok [Campaign.mk "google_campaign_1" "Google Campaign 1"
                            1500 75 (of_int 50)])
    (λ _ _ _, Ok []).

(** tests/test_rotator.py:10 *)
Definition creative_A : dict :=
  mkDict (Some "ad_1") (Some "Creative A") (Some 1000%Z) (Some 50%Z)
         (Some (of_int 25)) (Some (Fin (of_int 5)))
         (Some (Fin (Q2Qc (1 # 2)))).

Definition creative_B : dict :=
  mkDict (Some "ad_2") (Some "Creative B") (Some 2000%Z) (Some 40%Z)
         (Some (of_int 20)) (Some (Fin (of_int 2)))
         (Some (Fin (Q2Qc (1 # 2)))).

Definition creative_C : dict :=
  mkDict (Some "ad_3") (Some "Creative C") (Some 500%Z) (Some 25%Z)
         (Some (Q2Qc (25 # 2))) (Some (Fin (of_int 5)))
         (Some (Fin (Q2Qc (1 # 2)))).

Definition test_creatives : list dict := [creative_A; creative_B; creative_C].

(** [CreativeRotator(self.test_creatives)] *)
Definition rotator_ABC : CreativeRotator.state :=
  (CreativeRotator.__init__ [0; 1; 2] test_creatives).1.

(** A second creative with the [ad_id] of [creative_A]. *)
Definition creative_A_again : dict :=
  mkDict (Some "ad_1") (Some "Creative A, second variant") (Some 800%Z)
         (Some 32%Z) (Some (of_int 16)) (Some (Fin (of_int 4)))
         (Some (Fin (Q2Qc (1 # 2)))).

Definition rotator_duplicates : CreativeRotator.state :=
  (CreativeRotator.__init__ [0; 1] [creative_A; creative_A_again]).1.

Definition rotator_A : CreativeRotator.state :=
  (CreativeRotator.__init__ [0] [creative_A]).1.

(** A creative without [ctr] and [cpc]: 3 impressions, 1 click. *)
Definition creative_raw : dict :=
  mkDict (Some "raw") (Some "Raw creative") (Some 3%Z) (Some 1%Z)
         (Some (of_int 1)) None None.

(** tests/test_rotator.py:169 *)
Definition creative_no_clicks : dict :=
  mkDict (Some "test") (Some "Test Creative") (Some 1000%Z) (Some 0%Z)
         (Some (of_int 10)) None None.

(** tests/test_rotator.py:53: a creative without counters. *)
Definition creative_incomplete : dict :=
  mkDict (Some "test") (Some "Test") None None None None None.

(** tests/test_rotator.py:201: a creative to add, without [ctr] and
    [cpc]. *)
Definition creative_D : dict :=
  mkDict (Some "ad_4") (Some "Creative D") (Some 800%Z) (Some 32%Z)
         (Some (of_int 16)) None None.

(** An ad as the platform clients build it, google_ads_client.py:141,
    here without clicks. *)
Definition client_ad : dict :=
  match format_ad "google_campaign_1_ad_1" "Google Ad 1" 400 0 (of_int 10)
  with
  | Ok ad => ad
  | Raise _ => empty_dict
  end.

(** The floats [0.1] and [0.025].  Their values add up to a little more
    than 0.125, while their sum as floats is 0.125. *)
Definition spend_tenth : Qc := binary64 (Q2Qc (1 # 10)).
Definition spend_fortieth : Qc := binary64 (Q2Qc (1 # 40)).

Definition small_campaigns : list CampaignRecord.t :=
  [CampaignRecord.mk "google" "camp_1" "Campaign 1" 100 10 spend_tenth [];
   CampaignRecord.mk "google" "camp_2" "Campaign 2" 100 10 spend_fortieth []].

Definition creative_tenth : dict :=
  mkDict (Some "ad_t") (Some "Creative T") (Some 100%Z) (Some 10%Z)
         (Some spend_tenth) None None.

Definition creative_fortieth : dict :=
  mkDict (Some "ad_f") (Some "Creative F") (Some 100%Z) (Some 10%Z)
         (Some spend_fortieth) None None.

Definition rotator_small : CreativeRotator.state :=
  (CreativeRotator.__init__ [0; 1] [creative_tenth; creative_fortieth]).1.

End Fixtures.

(* ====================================================================== *)
(** * Notions used in the statements about the rotator *)
(* ====================================================================== *)

Section RotatorNotions.

Import CreativeRotator.

(** The dictionary a reference denotes in a state. *)
Definition dict_of (st : state) (r : ref) : dict :=
  lookup_heap (heap st) r.

(** All the keys of an ad dictionary are present. *)
Definition complete (d : dict) : Prop :=
  is_Some (ad_id d) ∧ is_Some (ad_name d) ∧ is_Some (impressions d)
  ∧ is_Some (clicks d) ∧ is_Some (spend d) ∧ is_Some (ctr d)
  ∧ is_Some (cpc d).

(** The five required keys are present. *)
Definition has_required (d : dict) : Prop :=
  is_Some (ad_id d) ∧ is_Some (ad_name d) ∧ is_Some (impressions d)
  ∧ is_Some (clicks d) ∧ is_Some (spend d).

(** The invariant of the rotator: its creatives are complete
    dictionaries, and the cursor is inside the collection, or is 0 when
    the collection is empty. *)
Definition well_formed (st : state) : Prop :=
  Forall (λ r, complete (dict_of st r)) (creatives st)
  ∧ (_round_robin_index st < length (creatives st)
     ∨ (creatives st = [] ∧ _round_robin_index st = 0)).

(** The invariant of the specification. *)
Definition cursor_in_bounds (st : state) : Prop :=
  creatives st ≠ [] →
  0 ≤ _round_robin_index st < length (creatives st).

(** [r['ad_id'] == id] *)
Definition has_ad_id (st : state) (id : string) (r : ref) : bool :=
  match ad_id (dict_of st r) with
  | Some id' => String.eqb id' id
  | None => false
  end.

(** [r['impressions'] > 0] *)
Definition has_impressions (st : state) (r : ref) : bool :=
  match impressions (dict_of st r) with
  | Some n => (n >? 0)%Z
  | None => false
  end.

(** [r['ctr']], for a complete dictionary. *)
Definition ctr_of (st : state) (r : ref) : float :=
  default (Fin 0%Qc) (ctr (dict_of st r)).

(** The state after [r.copy()]. *)
Definition with_copy (st : state) (r : ref) : state :=
  mkState (heap st ++ [dict_of st r]) (creatives st)
          (_round_robin_index st).

Definition with_index (st : state) (i : nat) : state :=
  mkState (heap st) (creatives st) i.

(** What the backfill of [ctr] leaves in a dictionary that has the
    required keys: a [ctr] already there is kept. *)
Definition with_ctr_filled (d : dict) : dict :=
  let impressions := default 0%Z (impressions d) in
  let clicks := default 0%Z (clicks d) in
  let new_ctr :=
    if (impressions >? 0)%Z
    then Fin (float_mul (float_div (of_int clicks) (of_int impressions))
                        (float_of_int 100))
    else Fin 0%Qc in
  set_ctr (default new_ctr (ctr d)) d.

(** The same for [cpc]. *)
Definition with_cpc_filled (d : dict) : dict :=
  let clicks := default 0%Z (clicks d) in
  let spend := default 0%Qc (spend d) in
  let new_cpc :=
    if (clicks >? 0)%Z then Fin (float_div spend (float_of_int clicks))
    else inf in
  set_cpc (default new_cpc (cpc d)) d.

Definition backfilled (d : dict) : dict :=
  with_cpc_filled (with_ctr_filled d).

(** [st'] is [st] where the dictionary of [r] has become [d']. *)
Definition updates_dict (st st' : state) (r : ref) (d' : dict) : Prop :=
  creatives st' = creatives st
  ∧ _round_robin_index st' = _round_robin_index st
  ∧ length (heap st') = length (heap st)
  ∧ dict_of st' r = d'
  ∧ ∀ r', r' ≠ r → dict_of st' r' = dict_of st r'.

(** Statements that leave the state as it is. *)
Definition readonly {A} (m : M A) : Prop := ∀ st, (m st).1 = st.

(** [r['clicks'] > 0] *)
Definition has_clicks (st : state) (r : ref) : bool :=
  match clicks (dict_of st r) with
  | Some n => (n >? 0)%Z
  | None => false
  end.

(** [r['cpc']], for a complete dictionary. *)
Definition cpc_of (st : state) (r : ref) : float :=
  default inf (cpc (dict_of st r)).

(** The entry of the statistics for the creative [r]. *)
Definition performer_of (st : state) (value : float) (r : ref)
  : Performer.t :=
  Performer.mk (default ""%string (ad_id (dict_of st r)))
               (default ""%string (ad_name (dict_of st r))) value.

(** The sum of a counter over the creatives of the rotator, a creative
    that is there twice counting twice. *)
Definition total_of {A} (add : A → A → A) (zero : A)
    (field : dict → option A) (st : state) : A :=
  foldl (λ acc r, add acc (default zero (field (dict_of st r)))) zero
        (creatives st).

(** The spends of the creatives of the rotator, in order. *)
Definition spends_of (st : state) : list Qc :=
  map (λ r, default 0%Qc (spend (dict_of st r))) (creatives st).

(** [st'] is [st] after some dictionaries were created: the collection is
    the same and the heap has grown at its end. *)
Definition extends (st st' : state) : Prop :=
  creatives st' = creatives st ∧ ∃ copies, heap st' = heap st ++ copies.

(** [d1] and [d2] agree on the five required keys. *)
Definition same_raw_fields (d1 d2 : dict) : Prop :=
  ad_id d1 = ad_id d2 ∧ ad_name d1 = ad_name d2
  ∧ impressions d1 = impressions d2 ∧ clicks d1 = clicks d2
  ∧ spend d1 = spend d2.

(** The sums of the counters of a list of campaign records. *)
Definition sum_impressions (data : list CampaignRecord.t) : Z :=
  foldr (λ campaign s, (CampaignRecord.impressions campaign + s)%Z) 0%Z data.

Definition sum_clicks (data : list CampaignRecord.t) : Z :=
  foldr (λ campaign s, (CampaignRecord.clicks campaign + s)%Z) 0%Z data.

(** The spends are added as floats, from [0.0] and in the order of the
    records. *)
Definition sum_spend (data : list CampaignRecord.t) : Qc :=
  foldl (λ s campaign, float_add s (CampaignRecord.spend campaign)) 0%Qc
        data.

Definition count_ads (data : list CampaignRecord.t) : nat :=
  foldr (λ campaign s, length (CampaignRecord.ads campaign) + s) 0 data.

(** The sums the loop of [get_summary_stats] holds for the records [data]
    of one platform. *)
Definition platform_sums (data : list CampaignRecord.t) : PlatformStats.t :=
  PlatformStats.mk (length data) (count_ads data) (sum_impressions data)
                   (sum_clicks data) (sum_spend data).

(** The entry of the platform breakdown for the records [data] of one
    platform. *)
Definition platform_stats (data : list CampaignRecord.t) : PlatformStats.t :=
  PlatformStats.mk (length data) (count_ads data) (sum_impressions data)
                   (sum_clicks data) (round (sum_spend data) 2).

(** The greater of two thresholds. *)
Definition higher_threshold (t1 t2 : Qc) : Qc :=
  if bool_decide (t1 ≤ t2)%Qc then t2 else t1.

End RotatorNotions.

(** The statements of the specification that the code is compared with. *)
Module Spec.

(** "[0.0] if [impressions == 0], else [(clicks / impressions) * 100],
    rounded to 2 decimal places" *)
Definition ctr (impressions clicks : Z) : float :=
  if (impressions =? 0)%Z then Fin 0%Qc
  else Fin (round (float_mul (float_div (of_int clicks) (of_int impressions))
                             (float_of_int 100)) 2).

(** "for clicks > 0 both paths compute spend / clicks" *)
Definition cpc_positive_clicks (spend : Qc) (clicks : Z) : float :=
  Fin (float_div spend (float_of_int clicks)).

(** "removes the first (and expected-only) matching record" *)
Fixpoint remove_first (matches : CreativeRotator.ref → bool)
    (creatives : list CreativeRotator.ref) : list CreativeRotator.ref :=
  match creatives with
  | [] => []
  | r :: rest => if matches r then rest else r :: remove_first matches rest
  end.

End Spec.

(* ====================================================================== *)
(** * Properties of the aggregator *)
(* ====================================================================== *)

Section AggregatorProperties.

Import AdsAggregator.

Variables start_date end_date : date.

Local Abbreviation ads_of := (ads_or_empty start_date end_date).
Local Abbreviation contribution_of := (contribution start_date end_date).

(** The inner loop appends one record per campaign, in order. *)
Lemma _fetch_client_data_loop_spec (c : client) campaigns platform_data :
  _fetch_client_data_loop c start_date end_date campaigns platform_data =
  Ok (platform_data ++
      map (λ campaign, formatted_campaign c campaign (ads_of c campaign))
          campaigns).
Proof.
  revert platform_data.
  induction campaigns as [|campaign rest IH]; intros platform_data; simpl.
  - by rewrite app_nil_r.
  - unfold ads_or_empty.
    destruct (fetch_ads c (Campaign.campaign_id campaign) start_date end_date);
      simpl; rewrite IH, <- app_assoc; reflexivity.
Qed.

Lemma _fetch_client_data_spec (c : client) :
  _fetch_client_data c start_date end_date =
  match fetch_campaigns c start_date end_date with
  | Ok campaigns =>
      Ok (map (λ campaign, formatted_campaign c campaign (ads_of c campaign))
              campaigns)
  | Raise e => Raise e
  end.
Proof.
  unfold _fetch_client_data.
  destruct (fetch_campaigns c start_date end_date); simpl; [|done].
  apply _fetch_client_data_loop_spec.
Qed.

Lemma _fetch_client_data_raises (c : client) :
  raises (_fetch_client_data c start_date end_date) ↔
  raises (fetch_campaigns c start_date end_date).
Proof.
  rewrite _fetch_client_data_spec. unfold raises.
  destruct (fetch_campaigns c start_date end_date); split; intros [e' H];
    try discriminate; eauto.
Qed.

Lemma contribution_failed (c : client) :
  fetch_succeeds start_date end_date c = false → contribution_of c = [].
Proof.
  unfold fetch_succeeds, contribution. rewrite _fetch_client_data_spec.
  destruct (fetch_campaigns c start_date end_date); [intros [=]|done].
Qed.

(** The outer loop appends the contribution of every client it handles. *)
Lemma aggregate_loop_spec pending all_data :
  aggregate_loop start_date end_date pending all_data =
  Ok (all_data ++ flat_map contribution_of pending).
Proof.
  revert all_data.
  induction pending as [|c rest IH]; intros all_data; simpl.
  - by rewrite app_nil_r.
  - change (contribution_of c) with
      (match _fetch_client_data c start_date end_date with
       | Ok platform_data => platform_data
       | Raise _ => []
       end).
    destruct (_fetch_client_data c start_date end_date); simpl; rewrite IH.
    + by rewrite app_assoc.
    + done.
Qed.

Lemma flat_map_contribution_filter (l : list client) :
  flat_map contribution_of l =
  flat_map contribution_of (filter (fetch_succeeds start_date end_date) l).
Proof.
  induction l as [|c l IH]; [done|].
  rewrite filter_cons. simpl.
  destruct (fetch_succeeds start_date end_date c) eqn:Hc.
  - simpl. by rewrite IH.
  - simpl. by rewrite (contribution_failed c Hc).
Qed.

Lemma aggregate_data_spec self parallel completed :
  aggregate_data self start_date end_date parallel completed =
  Ok (flat_map contribution_of (handling_order self parallel completed)).
Proof.
  unfold aggregate_data, handling_order.
  destruct (parallel && (1 <? length (clients self))%nat);
    apply aggregate_loop_spec.
Qed.

Lemma flat_map_all_failed (l : list client) :
  (∀ c, c ∈ l → raises (fetch_campaigns c start_date end_date)) →
  flat_map contribution_of l = [].
Proof.
  induction l as [|c l IH]; intros Hall; [done|]. simpl.
  rewrite IH by (intros c' Hc'; apply Hall; by right).
  rewrite contribution_failed; [done|].
  destruct (Hall c) as [e He]; [by left|].
  unfold fetch_succeeds. by rewrite He.
Qed.

Lemma handling_order_perm self parallel completed :
  Permutation completed (clients self) →
  Permutation (handling_order self parallel completed) (clients self).
Proof.
  intros Hp. unfold handling_order.
  by destruct (parallel && (1 <? length (clients self))%nat).
Qed.

Lemma validate_malformed today :
  malformed_range start_date end_date today →
  raises (_validate_date_range today start_date end_date).
Proof.
  unfold malformed_range, _validate_date_range, raises.
  intros H.
  destruct (start_date >? end_date)%Z eqn:H1; [eauto|].
  destruct (start_date >? today)%Z eqn:H2; [eauto|].
  rewrite Z.gtb_ltb, Z.ltb_ge in H1, H2. lia.
Qed.

Lemma platform_client_rejects today c :
  malformed_range start_date end_date today →
  is_platform_client today c →
  raises (fetch_campaigns c start_date end_date).
Proof.
  intros Hbad (name & api_campaigns & api_ads & ->).
  destruct (validate_malformed today Hbad) as [e He].
  exists e. simpl. by rewrite He.
Qed.

End AggregatorProperties.

Section AggregatorClaims.

Import AdsAggregator.

(** C1, as stated, fails: with no client at all, and with a date range
    whose start is after its end, [aggregate_data] returns the empty list
    where the claim has it raise. *)
Lemma aggregate_data_no_clients_no_error :
  let no_clients := AdsAggregator.mk [] in
  let google := AdsAggregator.mk [Fixtures.google_client] in
  ¬ raises (aggregate_data no_clients Fixtures.jan_1 Fixtures.jan_31 true [])
  ∧ ¬ raises (aggregate_data google Fixtures.jan_31 Fixtures.jan_1 false
                             [Fixtures.google_client])
  ∧ raises (fetch_campaigns Fixtures.google_client
                            Fixtures.jan_31 Fixtures.jan_1).
Proof.
  repeat split.
  - intros [e He]. discriminate He.
  - intros [e He]. discriminate He.
  - eexists. reflexivity.
Qed.

(** C1, amended: [aggregate_data] has no check of its own and never
    raises.  With no client it returns the empty list; a malformed date
    range is rejected inside each platform client's [fetch_campaigns],
    an error caught like every other one raised while fetching, so the
    result is the empty list as well. *)
Theorem aggregate_data_never_raises self start_date end_date parallel
    completed :
  ¬ raises (aggregate_data self start_date end_date parallel completed)
  ∧ (clients self = [] →
     aggregate_data self start_date end_date parallel completed = Ok [])
  ∧ (∀ today,
       malformed_range start_date end_date today →
       Forall (is_platform_client today) (clients self) →
       Permutation completed (clients self) →
       aggregate_data self start_date end_date parallel completed = Ok []).
Proof.
  rewrite aggregate_data_spec. split; [|split].
  - intros [e He]. discriminate He.
  - intros Hnil. unfold handling_order. rewrite Hnil. simpl.
    by rewrite andb_false_r.
  - intros today Hbad Hall Hperm. f_equal.
    apply flat_map_all_failed. intros c Hc.
    apply (platform_client_rejects _ _ today); [done|].
    rewrite List.Forall_forall in Hall. apply Hall, list_elem_of_In.
    by rewrite <- (handling_order_perm self parallel completed Hperm).
Qed.

Lemma aggregate_data_never_raises_witness :
  aggregate_data (AdsAggregator.mk [Fixtures.google_client])
                 Fixtures.jan_31 Fixtures.jan_1 true
                 [Fixtures.google_client] = Ok [].
Proof.
  destruct (aggregate_data_never_raises
              (AdsAggregator.mk [Fixtures.google_client])
              Fixtures.jan_31 Fixtures.jan_1 true
              [Fixtures.google_client]) as (_ & _ & H).
  apply (H 738600%Z).
  - left. unfold Fixtures.jan_31, Fixtures.jan_1. lia.
  - repeat constructor. eexists _, _, _. reflexivity.
  - reflexivity.
Defined.

(** C5: a client whose [fetch_campaigns] raises is left out, the result
    is made of the contributions of the other clients, in the order they
    are handled, and it is the empty list when every client fails;
    [aggregate_data] itself does not raise. *)
Theorem aggregate_data_omits_failed_clients self start_date end_date
    parallel completed :
  Permutation completed (clients self) →
  let order := handling_order self parallel completed in
  Permutation order (clients self)
  ∧ (parallel = false → order = clients self)
  ∧ aggregate_data self start_date end_date parallel completed =
    Ok (flat_map (contribution start_date end_date)
                 (filter (fetch_succeeds start_date end_date) order))
  ∧ (∀ c, raises (fetch_campaigns c start_date end_date) →
          fetch_succeeds start_date end_date c = false
          ∧ raises (_fetch_client_data c start_date end_date))
  ∧ ((∀ c, c ∈ clients self →
           raises (fetch_campaigns c start_date end_date)) →
     aggregate_data self start_date end_date parallel completed = Ok []).
Proof.
  intros Hperm order.
  assert (Permutation order (clients self)) as Horder
    by by apply handling_order_perm.
  split; [done|]. split; [|split; [|split]].
  - intros ->. reflexivity.
  - rewrite aggregate_data_spec. f_equal.
    apply flat_map_contribution_filter.
  - intros c Hraises. split; [|by apply _fetch_client_data_raises].
    destruct Hraises as [e He]. unfold fetch_succeeds. by rewrite He.
  - intros Hall. rewrite aggregate_data_spec. f_equal.
    apply flat_map_all_failed. intros c Hc. apply Hall.
    by rewrite <- Horder.
Qed.

(** tests/test_aggregator.py:98 *)
Lemma aggregate_data_omits_failed_clients_witness :
  let failing := Fixtures.MockAdsClient "failing" true in
  let working := Fixtures.MockAdsClient "working" false in
  ∃ record,
    aggregate_data (AdsAggregator.mk [failing; working])
                   Fixtures.jan_1 Fixtures.jan_31 false [working; failing]
    = Ok [record]
    ∧ CampaignRecord.platform record = "working"%string.
Proof.
  intros failing working.
  destruct (aggregate_data_omits_failed_clients
              (AdsAggregator.mk [failing; working])
              Fixtures.jan_1 Fixtures.jan_31 false [working; failing])
    as (_ & _ & Hdata & _).
  - apply perm_swap.
  - rewrite Hdata. eexists. split; reflexivity.
Defined.

(** C6: when [fetch_ads] raises for a campaign, the record of that
    campaign is still in the result, with no ads; the record of every
    other campaign of the client carries the ads fetched for it. *)
Theorem fetch_ads_failure_keeps_campaign self start_date end_date parallel
    completed c campaigns :
  Permutation completed (clients self) →
  c ∈ clients self →
  fetch_campaigns c start_date end_date = Ok campaigns →
  ∃ platform_data data,
    _fetch_client_data c start_date end_date = Ok platform_data
    ∧ aggregate_data self start_date end_date parallel completed = Ok data
    ∧ (∀ record, record ∈ platform_data → record ∈ data)
    ∧ length platform_data = length campaigns
    ∧ ∀ i campaign,
        campaigns !! i = Some campaign →
        let id := Campaign.campaign_id campaign in
        (raises (fetch_ads c id start_date end_date) →
         platform_data !! i = Some (formatted_campaign c campaign []))
        ∧ (∀ ads, fetch_ads c id start_date end_date = Ok ads →
                  platform_data !! i =
                  Some (formatted_campaign c campaign ads)).
Proof.
  intros Hperm Hc Hcamps.
  eexists _, _. rewrite aggregate_data_spec, _fetch_client_data_spec, Hcamps.
  split; [reflexivity|]. split; [reflexivity|]. split; [|split].
  - intros record Hrec.
    apply list_elem_of_In, in_flat_map. exists c. split.
    + apply list_elem_of_In.
      by rewrite (handling_order_perm self parallel completed Hperm).
    + apply list_elem_of_In. unfold contribution.
      by rewrite _fetch_client_data_spec, Hcamps.
  - by rewrite length_map.
  - intros i campaign Hi id. split.
    + intros [e He]. rewrite list_lookup_fmap, Hi. simpl.
      unfold ads_or_empty. fold id. by rewrite He.
    + intros ads Hads. rewrite list_lookup_fmap, Hi. simpl.
      unfold ads_or_empty. fold id. by rewrite Hads.
Qed.

Lemma fetch_ads_failure_keeps_campaign_witness :
  let c := Fixtures.half_failing_client in
  ∃ first second ads,
    aggregate_data (AdsAggregator.mk [c]) Fixtures.jan_1 Fixtures.jan_31
                   true [c] = Ok [first; second]
    ∧ CampaignRecord.campaign_id first = "camp_1"%string
    ∧ CampaignRecord.ads first = []
    ∧ CampaignRecord.campaign_id second = "camp_2"%string
    ∧ CampaignRecord.ads second = [ads].
Proof.
  intros c.
  destruct (fetch_ads_failure_keeps_campaign
              (AdsAggregator.mk [c]) Fixtures.jan_1 Fixtures.jan_31 true
              [c] c
              [Campaign.mk "camp_1" "Campaign 1" 1000 50 (of_int 25);
               Campaign.mk "camp_2" "Campaign 2" 2000 40 (of_int 20)])
    as (platform_data & data & _ & Hdata & _ & _ & _).
  - reflexivity.
  - apply list_elem_of_here.
  - reflexivity.
  - eexists _, _, _. split; [reflexivity|]. repeat split.
Defined.

End AggregatorClaims.

(* ====================================================================== *)
(** * Properties of the Python values *)
(* ====================================================================== *)

(** Equality of two closed values that hold a float. *)
Ltac float_eq :=
  vm_compute;
  repeat match goal with
         | |- Some _ = Some _ => f_equal
         | |- Ok _ = Ok _ => f_equal
         | |- Fin _ = Fin _ => f_equal
         end;
  first [ reflexivity | apply Qc_is_canon; reflexivity ].

Section PyProperties.

Lemma float_ltb_irrefl a : float_ltb a a = false.
Proof.
  destruct a as [x|]; simpl; [|done].
  apply bool_decide_eq_false, Qcle_not_lt, Qcle_refl.
Qed.

Lemma float_ltb_trans a b c :
  float_ltb a b = true → float_ltb b c = true → float_ltb a c = true.
Proof.
  destruct a as [x|], b as [y|], c as [z|]; simpl; try done.
  rewrite !bool_decide_eq_true. apply Qclt_trans.
Qed.

(** [b <= a] and [a < c] give [b < c]. *)
Lemma float_le_lt_trans a b c :
  float_ltb a b = false → float_ltb a c = true → float_ltb b c = true.
Proof.
  destruct a as [x|], b as [y|], c as [z|]; simpl; try done.
  rewrite bool_decide_eq_false, !bool_decide_eq_true.
  intros Hxy Hxz. apply Qcnot_lt_le in Hxy.
  by apply Qcle_lt_trans with x.
Qed.

Lemma float_lt_le_trans a b c :
  float_ltb a b = true → float_ltb c b = false → float_ltb a c = true.
Proof.
  destruct a as [x|], b as [y|], c as [z|]; simpl; try done.
  rewrite bool_decide_eq_false, !bool_decide_eq_true.
  intros Hxy Hzy. apply Qcnot_lt_le in Hzy.
  by apply Qclt_le_trans with y.
Qed.

Lemma of_int_eq_0 z : of_int z = 0%Qc → z = 0%Z.
Proof.
  unfold of_int. intros H.
  apply (Q2Qc_eq_iff (inject_Z z) 0) in H.
  unfold Qeq in H. simpl in H. lia.
Qed.

(** ** Rounding to binary64 *)

Ltac Qcompare_spec H :=
  match type of H with
  | _ = Eq => apply Qeq_alt in H
  | _ = Lt => apply Qlt_alt in H
  | _ = Gt => apply Qgt_alt in H
  end.

Lemma round_half_even_Z (n : Z) : round_half_even (inject_Z n) = n.
Proof.
  unfold round_half_even. rewrite Qfloor_Z.
  assert ((inject_Z n - inject_Z n ?= 1 # 2)%Q = Lt) as ->; [|done].
  apply (proj1 (Qlt_alt _ _)). generalize (inject_Z n). intros q. lra.
Qed.

Lemma round_half_even_mono (x y : Q) :
  (x <= y)%Q → (round_half_even x ≤ round_half_even y)%Z.
Proof.
  intros Hxy. unfold round_half_even.
  pose proof (Qfloor_resp_le x y Hxy) as Hfloor.
  pose proof (Qfloor_le x) as Hx1. pose proof (Qlt_floor x) as Hx2.
  pose proof (Qfloor_le y) as Hy1. pose proof (Qlt_floor y) as Hy2.
  rewrite inject_Z_plus in Hx2, Hy2.
  change (inject_Z 1) with 1%Q in Hx2, Hy2.
  destruct (Z.eq_dec (Qfloor x) (Qfloor y)) as [Heq|Hne].
  - rewrite <- Heq in *. clear Heq Hfloor.
    destruct (x - inject_Z (Qfloor x) ?= 1 # 2)%Q eqn:Hcx;
      destruct (y - inject_Z (Qfloor x) ?= 1 # 2)%Q eqn:Hcy;
      Qcompare_spec Hcx; Qcompare_spec Hcy;
      try destruct (Z.even (Qfloor x)); try lia; exfalso; lra.
  - assert (Qfloor x + 1 ≤ Qfloor y)%Z as Hstep by lia.
    transitivity (Qfloor x + 1)%Z;
      [|transitivity (Qfloor y); [done|]].
    + destruct (x - inject_Z (Qfloor x) ?= 1 # 2)%Q;
        try destruct (Z.even (Qfloor x)); lia.
    + destruct (y - inject_Z (Qfloor y) ?= 1 # 2)%Q;
        try destruct (Z.even (Qfloor y)); lia.
Qed.

Lemma pow2_pos e : (0 < pow2 e)%Q.
Proof. by apply Qpower_0_lt. Qed.

Lemma pow2_plus a b : (pow2 (a + b) == pow2 a * pow2 b)%Q.
Proof. by apply Qpower_plus. Qed.

Lemma pow2_le a b : (a ≤ b)%Z → (pow2 a <= pow2 b)%Q.
Proof. intros Hab. by apply Qpower_le_compat_l. Qed.

Lemma pow2_Z n : (0 ≤ n)%Z → (pow2 n == inject_Z (2 ^ n))%Q.
Proof. intros Hn. unfold pow2. by rewrite Zpower_Qpower. Qed.

Lemma Qmult_le_compat_both (a b c d : Q) :
  (0 <= a)%Q → (a <= b)%Q → (0 <= c)%Q → (c <= d)%Q → (a * c <= b * d)%Q.
Proof.
  intros Ha Hab Hc Hcd.
  apply Qle_trans with (b * c)%Q.
  - by apply Qmult_le_compat_r.
  - rewrite !(Qmult_comm b). apply Qmult_le_compat_r; [done|lra].
Qed.

Lemma log2_bounds (n : Z) :
  (0 < n)%Z →
  (pow2 (Z.log2 n) <= inject_Z n)%Q ∧ (inject_Z n < pow2 (Z.log2 n + 1))%Q.
Proof.
  intros Hn. pose proof (Z.log2_spec n Hn) as [Hlo Hhi].
  pose proof (Z.log2_nonneg n) as Hnonneg.
  rewrite !pow2_Z by lia. rewrite <- Zle_Qle, <- Zlt_Qlt.
  split; [done|]. by rewrite <- Z.add_1_r in Hhi.
Qed.

Lemma ilog2_spec (x : Q) :
  (0 < x)%Q → (pow2 (ilog2 x) <= x)%Q ∧ (x < pow2 (ilog2 x + 1))%Q.
Proof.
  intros Hx. destruct x as [n d].
  assert (0 < n)%Z as Hn by (unfold Qlt in Hx; simpl in Hx; lia).
  pose proof (log2_bounds n Hn) as [Hn1 Hn2].
  pose proof (log2_bounds (Zpos d) ltac:(lia)) as [Hd1 Hd2].
  unfold ilog2. cbn [Qnum Qden].
  set (a := Z.log2 n) in *. set (b := Z.log2 (Z.pos d)) in *.
  assert (n # d == inject_Z n / inject_Z (Z.pos d))%Q as Hdiv
    by apply Qmake_Qdiv.
  assert ((n # d) * inject_Z (Z.pos d) == inject_Z n)%Q as Hmul.
  { rewrite Hdiv. field. unfold Qeq. simpl. lia. }
  set (x := (n # d)%Q) in *. clearbody x.
  set (N := inject_Z n) in *. set (D := inject_Z (Z.pos d)) in *.
  clearbody N D.
  assert (0 < D)%Q as HD
    by (apply Qlt_le_trans with (pow2 b); [apply pow2_pos|done]).
  assert (x < pow2 (a - b + 1))%Q as Hhi.
  { apply Qnot_le_lt. intros Hge.
    assert (pow2 (a - b + 1) * pow2 b <= x * D)%Q as Hprod.
    { apply Qmult_le_compat_both; try done; apply Qlt_le_weak, pow2_pos. }
    rewrite <- pow2_plus, Hmul in Hprod.
    replace (a - b + 1 + b)%Z with (a + 1)%Z in Hprod by lia. lra. }
  assert (pow2 (a - b - 1) <= x)%Q as Hlo.
  { apply Qnot_lt_le. intros Hlt.
    assert (x * D <= pow2 (a - b - 1) * pow2 (b + 1))%Q as Hprod.
    { apply Qmult_le_compat_both; lra. }
    rewrite <- pow2_plus, Hmul in Hprod.
    replace (a - b - 1 + (b + 1))%Z with a in Hprod by lia.
    assert (x * D < pow2 (a - b - 1) * D)%Q as Hstrict.
    { apply Qmult_lt_compat_r; done. }
    assert (pow2 (a - b - 1) * D < pow2 (a - b - 1) * pow2 (b + 1))%Q
      as Hstrict2.
    { rewrite !(Qmult_comm (pow2 (a - b - 1))).
      apply Qmult_lt_compat_r; [apply pow2_pos|done]. }
    rewrite <- pow2_plus in Hstrict2.
    replace (a - b - 1 + (b + 1))%Z with a in Hstrict2 by lia.
    rewrite Hmul in Hstrict. lra. }
  destruct (Qle_bool (pow2 (a - b)) x) eqn:Hcmp.
  - apply Qle_bool_iff in Hcmp. done.
  - assert (¬ (pow2 (a - b) <= x)%Q) as Hnle
      by (rewrite <- Qle_bool_iff, Hcmp; done).
    replace (a - b - 1 + 1)%Z with (a - b)%Z by lia.
    split; [done|]. by apply Qnot_le_lt.
Qed.

Lemma ilog2_mono (x y : Q) :
  (0 < x)%Q → (x <= y)%Q → (ilog2 x ≤ ilog2 y)%Z.
Proof.
  intros Hx Hxy.
  destruct (ilog2_spec x Hx) as [Hx1 _].
  destruct (ilog2_spec y ltac:(lra)) as [_ Hy2].
  destruct (Z.le_gt_cases (ilog2 x) (ilog2 y)) as [?|Hgt]; [done|].
  pose proof (pow2_le (ilog2 y + 1) (ilog2 x) ltac:(lia)). lra.
Qed.

Lemma scaled_lt (x : Q) :
  (0 < x)%Q → (x / pow2 (ulp_exponent x) < inject_Z (2 ^ 53))%Q.
Proof.
  intros Hx. destruct (ilog2_spec x Hx) as [_ Hhi].
  pose proof (pow2_pos (ulp_exponent x)) as He.
  apply Qlt_shift_div_r; [done|].
  rewrite <- pow2_Z, <- pow2_plus by lia.
  pose proof (pow2_le (ilog2 x + 1) (53 + ulp_exponent x)
                ltac:(unfold ulp_exponent; lia)). lra.
Qed.

Lemma scaled_ge (x : Q) :
  (0 < x)%Q → (-1074 < ulp_exponent x)%Z →
  (inject_Z (2 ^ 52) <= x / pow2 (ulp_exponent x))%Q.
Proof.
  intros Hx Hnormal. destruct (ilog2_spec x Hx) as [Hlo _].
  pose proof (pow2_pos (ulp_exponent x)) as He.
  apply Qle_shift_div_l; [done|].
  rewrite <- pow2_Z, <- pow2_plus by lia.
  replace (52 + ulp_exponent x)%Z with (ilog2 x)
    by (unfold ulp_exponent in *; lia).
  done.
Qed.

Lemma binary64_pos_nonneg (x : Q) : (0 < x)%Q → (0 <= binary64_pos x)%Q.
Proof.
  intros Hx. unfold binary64_pos. fold (ulp_exponent x).
  pose proof (pow2_pos (ulp_exponent x)) as He.
  apply Qmult_le_0_compat; [|lra].
  assert (0 ≤ round_half_even (x / pow2 (ulp_exponent x)))%Z as Hm.
  { rewrite <- (round_half_even_Z 0) at 1. apply round_half_even_mono.
    apply Qle_shift_div_l; [done|]. change (inject_Z 0) with 0%Q. lra. }
  by rewrite Zle_Qle in Hm.
Qed.

Lemma binary64_pos_mono (x y : Q) :
  (0 < x)%Q → (x <= y)%Q → (binary64_pos x <= binary64_pos y)%Q.
Proof.
  intros Hx Hxy. assert (0 < y)%Q as Hy by lra.
  unfold binary64_pos.
  pose proof (pow2_pos (ulp_exponent x)) as Hex.
  pose proof (pow2_pos (ulp_exponent y)) as Hey.
  assert (ulp_exponent x ≤ ulp_exponent y)%Z as Hle.
  { pose proof (ilog2_mono x y Hx Hxy). unfold ulp_exponent. lia. }
  destruct (Z.eq_dec (ulp_exponent x) (ulp_exponent y)) as [Heq|Hne].
  - rewrite Heq. apply Qmult_le_compat_r; [|lra].
    rewrite <- Zle_Qle. apply round_half_even_mono.
    apply Qmult_le_compat_r; [done|].
    apply Qlt_le_weak, Qinv_lt_0_compat. done.
  - pose proof (scaled_lt x Hx) as Hsx.
    pose proof (scaled_ge y Hy ltac:(unfold ulp_exponent in *; lia)) as Hsy.
    apply Qlt_le_weak, round_half_even_mono in Hsx.
    apply round_half_even_mono in Hsy.
    rewrite round_half_even_Z in Hsx, Hsy.
    set (mx := round_half_even (x / pow2 (ulp_exponent x))) in *.
    set (my := round_half_even (y / pow2 (ulp_exponent y))) in *.
    apply Qle_trans with (inject_Z (2 ^ 53) * pow2 (ulp_exponent x))%Q.
    { apply Qmult_le_compat_r; [by rewrite <- Zle_Qle|lra]. }
    apply Qle_trans with (inject_Z (2 ^ 52) * pow2 (ulp_exponent y))%Q.
    { rewrite <- !pow2_Z, <- !pow2_plus by lia. apply pow2_le. lia. }
    apply Qmult_le_compat_r; [by rewrite <- Zle_Qle|lra].
Qed.

Lemma binary64_Q_mono (x y : Q) :
  (x <= y)%Q → (binary64_Q x <= binary64_Q y)%Q.
Proof.
  intros Hxy. unfold binary64_Q.
  destruct (x ?= 0)%Q eqn:Hx; destruct (y ?= 0)%Q eqn:Hy;
    Qcompare_spec Hx; Qcompare_spec Hy; try (exfalso; lra); try lra.
  - by apply binary64_pos_nonneg.
  - pose proof (binary64_pos_nonneg (- x) ltac:(lra)). lra.
  - pose proof (binary64_pos_mono (- y) (- x) ltac:(lra) ltac:(lra)). lra.
  - pose proof (binary64_pos_nonneg (- x) ltac:(lra)).
    pose proof (binary64_pos_nonneg y ltac:(lra)). lra.
  - by apply binary64_pos_mono.
Qed.

Lemma binary64_mono (x y : Qc) : (x ≤ y)%Qc → (binary64 x ≤ binary64 y)%Qc.
Proof.
  intros Hxy. unfold binary64, Qcle. simpl. rewrite !Qred_correct.
  by apply binary64_Q_mono.
Qed.


Lemma binary64_0 : binary64 0%Qc = 0%Qc.
Proof. by apply Qc_is_canon. Qed.

Lemma binary64_1 : binary64 1%Qc = 1%Qc.
Proof. apply Qc_is_canon. by vm_compute. Qed.

Lemma binary64_100 : binary64 (Q2Qc 100) = Q2Qc 100.
Proof. apply Qc_is_canon. by vm_compute. Qed.

Lemma float_of_int_100 : float_of_int 100 = Q2Qc 100.
Proof. apply Qc_is_canon. by vm_compute. Qed.

(** [float(z)] is zero for [z = 0] only. *)
Lemma float_of_int_eq_0 z : float_of_int z = 0%Qc → z = 0%Z.
Proof.
  unfold float_of_int. intros Hzero.
  destruct (Z.lt_trichotomy z 0) as [Hneg|[->|Hpos]]; [|done|]; exfalso.
  - assert (of_int z ≤ Q2Qc (-1))%Qc as Hle.
    { unfold Qcle, of_int. simpl. rewrite !Qred_correct.
      unfold Qle. simpl. lia. }
    apply binary64_mono in Hle. rewrite Hzero in Hle.
    revert Hle. by vm_compute.
  - assert (1 ≤ of_int z)%Qc as Hle.
    { unfold Qcle, of_int. simpl. rewrite !Qred_correct.
      unfold Qle. simpl. lia. }
    apply binary64_mono in Hle. rewrite binary64_1, Hzero in Hle.
    revert Hle. by vm_compute.
Qed.

Lemma truediv_nonzero a z :
  z ≠ 0%Z → truediv a (of_int z) = Ok (float_div a (of_int z)).
Proof.
  intros Hz. unfold truediv.
  rewrite bool_decide_eq_false_2; [done|].
  intros H. by apply Hz, of_int_eq_0.
Qed.

Lemma truediv_float_nonzero a z :
  z ≠ 0%Z → truediv a (float_of_int z) = Ok (float_div a (float_of_int z)).
Proof.
  intros Hz. unfold truediv.
  rewrite bool_decide_eq_false_2; [done|].
  intros H. by apply Hz, float_of_int_eq_0.
Qed.

Lemma random_choice_elem {A} rnd (l : list A) :
  l ≠ [] → ∃ x, random_choice rnd l = Ok x ∧ x ∈ l.
Proof.
  intros Hl. unfold random_choice, list_getitem.
  destruct (lookup_lt_is_Some_2 l (rnd mod length l)) as [x Hx].
  - apply Nat.mod_upper_bound. by destruct l.
  - exists x. rewrite Hx. split; [done|].
    by apply list_elem_of_lookup_2 with (rnd mod length l).
Qed.

(** [round_half_even] is within one half of its argument. *)
Lemma round_half_even_near (y : Q) :
  (y - (1 # 2) <= inject_Z (round_half_even y) <= y + (1 # 2))%Q.
Proof.
  unfold round_half_even.
  pose proof (Qfloor_le y) as Hlo. pose proof (Qlt_floor y) as Hhi.
  rewrite inject_Z_plus in Hhi. change (inject_Z 1) with 1%Q in Hhi.
  destruct (y - inject_Z (Qfloor y) ?= 1 # 2)%Q eqn:Hcmp.
  - apply Qeq_alt in Hcmp.
    destruct (Z.even (Qfloor y));
      [|rewrite inject_Z_plus; change (inject_Z 1) with 1%Q]; lra.
  - apply Qlt_alt in Hcmp. lra.
  - apply Qgt_alt in Hcmp. rewrite inject_Z_plus.
    change (inject_Z 1) with 1%Q. lra.
Qed.

(** The rounding error is at most half a unit in the last place. *)
Lemma binary64_pos_near (x : Q) :
  (0 < x)%Q →
  (x - pow2 (ulp_exponent x) / 2 <= binary64_pos x)%Q
  ∧ (binary64_pos x <= x + pow2 (ulp_exponent x) / 2)%Q.
Proof.
  intros Hx. unfold binary64_pos.
  pose proof (pow2_pos (ulp_exponent x)) as He.
  pose proof (round_half_even_near (x / pow2 (ulp_exponent x))) as [Hlo Hhi].
  set (m := inject_Z (round_half_even (x / pow2 (ulp_exponent x)))) in *.
  clearbody m.
  assert (x / pow2 (ulp_exponent x) * pow2 (ulp_exponent x) == x)%Q as Hx'.
  { field. lra. }
  set (u := pow2 (ulp_exponent x)) in *. clearbody u.
  set (s := (x / u)%Q) in *. clearbody s.
  assert ((s - (1 # 2)) * u <= m * u)%Q as Hlo'
    by (apply Qmult_le_compat_r; lra).
  assert (m * u <= (s + (1 # 2)) * u)%Q as Hhi'
    by (apply Qmult_le_compat_r; lra).
  assert ((s - (1 # 2)) * u == x - u / 2)%Q as Elo
    by (rewrite <- Hx'; field).
  assert ((s + (1 # 2)) * u == x + u / 2)%Q as Ehi
    by (rewrite <- Hx'; field).
  rewrite Elo in Hlo'. rewrite Ehi in Hhi'. done.
Qed.

(** [round(x, 2)] is the float nearest to a number of hundredths that is
    at most half a hundredth away from [x]. *)
Lemma round_2_spec (x : Qc) :
  ∃ n : Z,
    round x 2 = binary64 (Q2Qc (n # 100))
    ∧ (x - Q2Qc (1 # 200) ≤ Q2Qc (n # 100))%Qc
    ∧ (Q2Qc (n # 100) ≤ x + Q2Qc (1 # 200))%Qc.
Proof.
  unfold round. change (inject_Z (10 ^ Z.of_nat 2)) with (100 # 1)%Q.
  set (n := round_half_even (x * (100 # 1))).
  pose proof (round_half_even_near (x * (100 # 1))) as [Hlo Hhi].
  fold n in Hlo, Hhi.
  assert (inject_Z n / (100 # 1) == n # 100)%Q as Heq.
  { unfold Qeq, Qdiv, Qmult, Qinv. simpl. lia. }
  exists n. split; [f_equal; by apply Q2Qc_eq_iff|].
  unfold Qcle, Qcminus, Qcplus, Qcopp. simpl.
  rewrite !Qred_correct. rewrite <- Heq. unfold Qdiv.
  change (/ (100 # 1))%Q with (1 # 100)%Q.
  generalize dependent (inject_Z n). generalize (this x).
  intros q m Hlo Hhi _. split; lra.
Qed.

End PyProperties.

(* ====================================================================== *)
(** * The rotator: heap and monad lemmas *)
(* ====================================================================== *)

Section RotatorLemmas.

Import CreativeRotator.

Lemma lookup_heap_app_l h d r :
  r < length h → lookup_heap (h ++ [d]) r = lookup_heap h r.
Proof. intros Hr. unfold lookup_heap. by rewrite lookup_app_l. Qed.

Lemma lookup_heap_app_new h d : lookup_heap (h ++ [d]) (length h) = d.
Proof.
  unfold lookup_heap. rewrite lookup_app_r by lia.
  by rewrite Nat.sub_diag.
Qed.

Lemma has_required_in_heap h r :
  has_required (lookup_heap h r) → r < length h.
Proof.
  intros [[id Hid] _]. apply lookup_lt_is_Some.
  unfold lookup_heap in Hid.
  destruct (h !! r) as [d|] eqn:E; [by exists d|discriminate Hid].
Qed.

Lemma complete_has_required d : complete d → has_required d.
Proof. unfold complete, has_required. tauto. Qed.

Lemma complete_in_heap h r : complete (lookup_heap h r) → r < length h.
Proof. intros H. by apply has_required_in_heap, complete_has_required. Qed.

Lemma getfield_spec {A} (field : dict → option A) key r st :
  getfield field key r st = (st, getitem field key (dict_of st r)).
Proof. reflexivity. Qed.

Lemma copy_spec r st :
  copy r st = (with_copy st r, Ok (length (heap st))).
Proof. reflexivity. Qed.

(** A list comprehension whose condition only reads. *)
Lemma comprehension_filter {A} (cond : A → M bool) (f : A → bool) l st :
  (∀ x, x ∈ l → cond x st = (st, Ok (f x))) →
  comprehension cond l st = (st, Ok (filter f l)).
Proof.
  induction l as [|x l IH]; intros Hcond; [done|].
  simpl. unfold mbind, M_bind.
  rewrite (Hcond x) by left.
  rewrite IH by (intros y Hy; apply Hcond; by right).
  rewrite filter_cons. by destruct (f x).
Qed.

Lemma filter_length_eq {A} (P : A → Prop) `{!∀ x, Decision (P x)} l :
  length (filter P l) = length l → filter P l = l.
Proof.
  induction l as [|x l IH]; [done|].
  rewrite filter_cons. destruct (decide (P x)); simpl.
  - intros [= Hlen]. by rewrite IH.
  - intros Hlen. pose proof (length_filter P l). lia.
Qed.

Lemma bind_readonly {A B} (m : M A) (k : A → M B) st :
  readonly m →
  (x ← m; k x) st =
  match (m st).2 with
  | Ok a => k a st
  | Raise e => (st, Raise e)
  end.
Proof.
  intros Hm. unfold mbind, M_bind. specialize (Hm st).
  destruct (m st) as [st' [a|e]]; simpl in *; by subst st'.
Qed.

Lemma bind_run {A B} (m : M A) (k : A → M B) st st' a :
  m st = (st', Ok a) → (x ← m; k x) st = k a st'.
Proof. intros Hm. unfold mbind, M_bind. by rewrite Hm. Qed.

Lemma bind_preserves {A B} (P : state → Prop) (m : M A) (k : A → M B) st :
  P st →
  (∀ st, P st → P (m st).1) →
  (∀ a st, P st → P (k a st).1) →
  P ((x ← m; k x) st).1.
Proof.
  intros Hst Hm Hk. unfold mbind, M_bind. specialize (Hm st Hst).
  destruct (m st) as [st' [a|e]]; simpl in *; [by apply Hk|done].
Qed.

Lemma readonly_bind {A B} (m : M A) (k : A → M B) :
  readonly m → (∀ a, readonly (k a)) → readonly (x ← m; k x).
Proof.
  intros Hm Hk st. rewrite bind_readonly by done.
  destruct (m st).2; [apply Hk|done].
Qed.

Lemma readonly_ret {A} (a : A) : readonly (mret a).
Proof. done. Qed.

Lemma readonly_raise {A} e : readonly (raise (A:=A) e).
Proof. done. Qed.

Lemma readonly_lift {A} (r : result A) : readonly (lift r).
Proof. done. Qed.

Lemma readonly_gets {A} (f : state → A) : readonly (gets f).
Proof. done. Qed.

Lemma readonly_getfield {A} (field : dict → option A) key r :
  readonly (getfield field key r).
Proof. done. Qed.

Lemma readonly_for_each {A} (l : list A) (body : A → M unit) :
  (∀ x, readonly (body x)) → readonly (for_each l body).
Proof.
  intros Hbody. induction l as [|x l IH]; [done|].
  simpl. by apply readonly_bind.
Qed.

Lemma readonly_comprehension {A} (cond : A → M bool) l :
  (∀ x, readonly (cond x)) → readonly (comprehension cond l).
Proof.
  intros Hcond. induction l as [|x l IH]; [done|].
  simpl. apply readonly_bind; [done|]. intros b.
  apply readonly_bind; [done|]. intros rest. apply readonly_ret.
Qed.

Lemma readonly_extremum_loop better key items best bestval :
  (∀ x, readonly (key x)) →
  readonly (extremum_loop better key items best bestval).
Proof.
  intros Hkey. revert best bestval.
  induction items as [|item rest IH]; intros best bestval; [done|].
  simpl. apply readonly_bind; [done|]. intros val.
  by destruct (better val bestval).
Qed.

Lemma readonly_extremum better items key :
  (∀ x, readonly (key x)) → readonly (extremum better items key).
Proof.
  intros Hkey. destruct items as [|item rest]; [done|].
  simpl. apply readonly_bind; [done|]. intros val.
  by apply readonly_extremum_loop.
Qed.

Lemma readonly_check_required_fields r :
  readonly (check_required_fields r).
Proof.
  apply readonly_bind; [done|]. intros d.
  apply readonly_for_each. intros field. by destruct (contains d field).
Qed.

Lemma state_eta st :
  mkState (heap st) (creatives st) (_round_robin_index st) = st.
Proof. by destruct st. Qed.

End RotatorLemmas.

(* ====================================================================== *)
(** * The rotator: what each method does to the state *)
(* ====================================================================== *)

Section RotatorOperations.

Import CreativeRotator.

Lemma check_required_fields_iff r st :
  (check_required_fields r st).2 = Ok tt ↔ has_required (dict_of st r).
Proof.
  unfold check_required_fields, has_required, dict_of, mbind, M_bind.
  simpl.
  destruct (lookup_heap (heap st) r)
    as [[a|] [b|] [c|] [d|] [e|] f g]; simpl.
  all: split; [intros H | intros (H1 & H2 & H3 & H4 & H5)].
  all: try discriminate H.
  all: repeat match goal with H : is_Some None |- _ => by destruct H end.
  all: try (repeat split; by eexists).
  all: reflexivity.
Qed.

Lemma lookup_heap_alter f h r :
  r < length h → lookup_heap (alter f r h) r = f (lookup_heap h r).
Proof.
  intros Hr. unfold lookup_heap. rewrite list_lookup_alter_eq.
  destruct (lookup_lt_is_Some_2 h r Hr) as [d Hd]. by rewrite Hd.
Qed.

Lemma lookup_heap_alter_ne f h r r' :
  r' ≠ r → lookup_heap (alter f r h) r' = lookup_heap h r'.
Proof.
  intros Hr. unfold lookup_heap. by rewrite list_lookup_alter_ne.
Qed.

Lemma updates_dict_refl st r : updates_dict st st r (dict_of st r).
Proof. by repeat split. Qed.

Lemma updates_dict_trans st st1 st2 r d1 d2 :
  updates_dict st st1 r d1 → updates_dict st1 st2 r d2 →
  updates_dict st st2 r d2.
Proof.
  intros (Hc1 & Hi1 & Hl1 & Hd1 & Ho1) (Hc2 & Hi2 & Hl2 & Hd2 & Ho2).
  repeat split; try congruence.
  intros r' Hr'. rewrite Ho2, Ho1; done.
Qed.

Lemma setfield_updates f r st :
  r < length (heap st) →
  updates_dict st (setfield r f st).1 r (f (dict_of st r)).
Proof.
  intros Hr. repeat split; simpl.
  - apply length_alter.
  - by apply lookup_heap_alter.
  - intros r' Hr'. by apply lookup_heap_alter_ne.
Qed.

Lemma contains_ctr d :
  contains d "ctr" = match ctr d with Some _ => true | None => false end.
Proof. unfold contains. simpl. by destruct (ctr d). Qed.

Lemma contains_cpc d :
  contains d "cpc" = match cpc d with Some _ => true | None => false end.
Proof. unfold contains. simpl. by destruct (cpc d). Qed.

Lemma ensure_ctr_spec r st :
  has_required (dict_of st r) →
  ∃ st', ensure_ctr r st = (st', Ok tt)
         ∧ updates_dict st st' r (with_ctr_filled (dict_of st r)).
Proof.
  intros Hreq. pose proof (has_required_in_heap _ _ Hreq) as Hr.
  destruct Hreq as (_ & _ & [i Hi] & [c Hc] & _).
  unfold ensure_ctr. rewrite bind_readonly by done.
  change (deref r st).2 with (Ok (dict_of st r)). cbv beta iota.
  rewrite contains_ctr.
  unfold with_ctr_filled. rewrite Hi, Hc. simpl.
  destruct (ctr (dict_of st r)) as [v|] eqn:Hctr; simpl.
  - exists st. split; [done|].
    replace (set_ctr v (dict_of st r)) with (dict_of st r)
      by (unfold set_ctr; rewrite <- Hctr; by destruct (dict_of st r)).
    apply updates_dict_refl.
  - rewrite bind_readonly by done. rewrite getfield_spec. simpl.
    unfold getitem at 1. rewrite Hi.
    rewrite bind_readonly by done. rewrite getfield_spec. simpl.
    unfold getitem at 1. rewrite Hc.
    unfold backfilled_ctr.
    destruct (i >? 0)%Z eqn:Hpos.
    + rewrite truediv_nonzero by (apply Z.gtb_lt in Hpos; lia).
      eexists. split; [reflexivity|]. by apply setfield_updates.
    + eexists. split; [reflexivity|]. by apply setfield_updates.
Qed.

Lemma ensure_cpc_spec r st :
  has_required (dict_of st r) →
  ∃ st', ensure_cpc r st = (st', Ok tt)
         ∧ updates_dict st st' r (with_cpc_filled (dict_of st r)).
Proof.
  intros Hreq. pose proof (has_required_in_heap _ _ Hreq) as Hr.
  destruct Hreq as (_ & _ & _ & [c Hc] & [s Hs]).
  unfold ensure_cpc. rewrite bind_readonly by done.
  change (deref r st).2 with (Ok (dict_of st r)). cbv beta iota.
  rewrite contains_cpc.
  unfold with_cpc_filled. rewrite Hc, Hs. simpl.
  destruct (cpc (dict_of st r)) as [v|] eqn:Hcpc; simpl.
  - exists st. split; [done|].
    replace (set_cpc v (dict_of st r)) with (dict_of st r)
      by (unfold set_cpc; rewrite <- Hcpc; by destruct (dict_of st r)).
    apply updates_dict_refl.
  - rewrite bind_readonly by done. rewrite getfield_spec. simpl.
    unfold getitem at 1. rewrite Hs.
    rewrite bind_readonly by done. rewrite getfield_spec. simpl.
    unfold getitem at 1. rewrite Hc.
    unfold backfilled_cpc.
    destruct (c >? 0)%Z eqn:Hpos.
    + rewrite truediv_float_nonzero by (apply Z.gtb_lt in Hpos; lia).
      eexists. split; [reflexivity|]. by apply setfield_updates.
    + eexists. split; [reflexivity|]. by apply setfield_updates.
Qed.

Lemma has_required_with_ctr_filled d :
  has_required d → has_required (with_ctr_filled d).
Proof. done. Qed.

Lemma complete_backfilled d : has_required d → complete (backfilled d).
Proof.
  intros (H1 & H2 & H3 & H4 & H5). repeat split; try done; by eexists.
Qed.

Lemma backfilled_complete d : complete d → backfilled d = d.
Proof.
  destruct d as [a b c e f g h].
  intros (_ & _ & _ & _ & _ & [x Hx] & [y Hy]). simpl in *. by subst.
Qed.

Lemma backfilled_idemp d : backfilled (backfilled d) = backfilled d.
Proof. by destruct d as [a b c e f [g|] [h|]]. Qed.

Lemma has_required_backfilled d :
  has_required d → has_required (backfilled d).
Proof. done. Qed.

(** rotator.py:58-67 on one creative. *)
Lemma ensure_metrics_step r st :
  has_required (dict_of st r) →
  ∃ st', (_ ← ensure_ctr r; ensure_cpc r) st = (st', Ok tt)
         ∧ updates_dict st st' r (backfilled (dict_of st r)).
Proof.
  intros Hreq.
  destruct (ensure_ctr_spec r st Hreq) as (st1 & Hrun1 & Hupd1).
  assert (has_required (dict_of st1 r)) as Hreq1.
  { destruct Hupd1 as (_ & _ & _ & -> & _).
    by apply has_required_with_ctr_filled. }
  destruct (ensure_cpc_spec r st1 Hreq1) as (st2 & Hrun2 & Hupd2).
  exists st2. split.
  - by rewrite (bind_run _ _ _ _ _ Hrun1).
  - unfold backfilled. destruct Hupd1 as (? & ? & ? & Hd1 & ?).
    rewrite <- Hd1. eapply updates_dict_trans; [|exact Hupd2].
    by repeat split.
Qed.

(** The loop of [_ensure_metrics]. *)
Lemma ensure_metrics_loop l st :
  Forall (λ r, has_required (dict_of st r)) l →
  ∃ st',
    for_each l (λ creative, _ ← ensure_ctr creative; ensure_cpc creative) st
    = (st', Ok tt)
    ∧ creatives st' = creatives st
    ∧ _round_robin_index st' = _round_robin_index st
    ∧ length (heap st') = length (heap st)
    ∧ ∀ r, dict_of st' r =
           if bool_decide (r ∈ l) then backfilled (dict_of st r)
           else dict_of st r.
Proof.
  revert st. induction l as [|r l IH]; intros st Hreq.
  - exists st. by repeat split.
  - apply list.Forall_cons in Hreq as [Hr Hl].
    destruct (ensure_metrics_step r st Hr)
      as (st1 & Hrun1 & Hc1 & Hi1 & Hl1 & Hd1 & Ho1).
    assert (Forall (λ r, has_required (dict_of st1 r)) l) as Hl'.
    { eapply list.Forall_impl; [exact Hl|]. intros r' Hr'. simpl in *.
      destruct (decide (r' = r)) as [->|Hne].
      - rewrite Hd1. by apply has_required_backfilled.
      - by rewrite Ho1. }
    destruct (IH st1 Hl') as (st2 & Hrun2 & Hc2 & Hi2 & Hl2 & Hd2).
    exists st2. split; [|repeat split; try congruence].
    + simpl. by rewrite (bind_run _ _ _ _ _ Hrun1).
    + intros r'. rewrite Hd2.
      destruct (decide (r' = r)) as [->|Hne].
      * rewrite (bool_decide_eq_true_2 (r ∈ r :: l)) by left.
        rewrite Hd1. case_bool_decide; [apply backfilled_idemp|done].
      * rewrite Ho1 by done.
        destruct (bool_decide (r' ∈ l)) eqn:Hin.
        -- apply bool_decide_eq_true in Hin.
           by rewrite bool_decide_eq_true_2 by by right.
        -- apply bool_decide_eq_false in Hin.
           rewrite bool_decide_eq_false_2; [done|].
           by intros [?|?]%elem_of_cons.
Qed.

Lemma for_each_check_required l st :
  (for_each l check_required_fields st).2 = Ok tt ↔
  Forall (λ r, has_required (dict_of st r)) l.
Proof.
  induction l as [|r l IH]; [done|].
  simpl. rewrite bind_readonly by apply readonly_check_required_fields.
  rewrite list.Forall_cons, <- IH, <- check_required_fields_iff.
  destruct (check_required_fields r st).2 as [[]|e]; simpl.
  - tauto.
  - split; [done|]. by intros [? _].
Qed.

Lemma readonly__validate_creatives : readonly _validate_creatives.
Proof.
  apply readonly_bind; [done|]. intros [|r l]; [done|].
  apply readonly_for_each, readonly_check_required_fields.
Qed.

Lemma _validate_creatives_iff st :
  (_validate_creatives st).2 = Ok tt ↔
  creatives st ≠ []
  ∧ Forall (λ r, has_required (dict_of st r)) (creatives st).
Proof.
  unfold _validate_creatives. rewrite bind_readonly by done. simpl.
  destruct (creatives st) as [|r l] eqn:Hcs.
  - simpl. split; [done|]. by intros [? _].
  - rewrite for_each_check_required. split; [by intros ?|by intros [_ ?]].
Qed.

(** rotator.py:23: the constructor raises on an empty list, and
    otherwise succeeds exactly when every creative has the required
    keys; the dictionaries of the creatives are then backfilled in
    place and nothing else changes. *)
Lemma __init___empty h :
  __init__ [] h = (mkState h [] 0, Raise (ValueError EmptyCreatives)).
Proof. reflexivity. Qed.

Lemma __init___ok cs h :
  cs ≠ [] →
  Forall (λ r, has_required (lookup_heap h r)) cs →
  ∃ st, __init__ cs h = (st, Ok tt).
Proof.
  intros Hne Hreq. unfold __init__.
  rewrite bind_readonly by apply readonly__validate_creatives.
  pose proof (_validate_creatives_iff (mkState h cs 0)) as [_ Hval].
  rewrite Hval by done.
  destruct (ensure_metrics_loop cs (mkState h cs 0) Hreq) as (st & Hrun & _).
  exists st. unfold _ensure_metrics. rewrite bind_readonly by done.
  exact Hrun.
Qed.

Lemma __init___inv cs h st :
  __init__ cs h = (st, Ok tt) →
  cs ≠ []
  ∧ Forall (λ r, has_required (lookup_heap h r)) cs
  ∧ creatives st = cs
  ∧ _round_robin_index st = 0
  ∧ length (heap st) = length h
  ∧ ∀ r, dict_of st r =
         if bool_decide (r ∈ cs) then backfilled (lookup_heap h r)
         else lookup_heap h r.
Proof.
  unfold __init__.
  rewrite bind_readonly by apply readonly__validate_creatives.
  pose proof (_validate_creatives_iff (mkState h cs 0)) as [Hval _].
  destruct (_validate_creatives (mkState h cs 0)).2 as [[]|e];
    [|intros [=]].
  destruct Hval as [Hne Hreq]; [done|].
  destruct (ensure_metrics_loop cs (mkState h cs 0) Hreq)
    as (st' & Hrun & Hc & Hi & Hl & Hd).
  unfold _ensure_metrics. rewrite bind_readonly by done. simpl.
  rewrite Hrun. intros [= <-].
  by repeat split.
Qed.

(** rotator.py:207 *)
Lemma add_creative_rejects r st :
  ¬ has_required (dict_of st r) →
  ∃ e, add_creative r st = (st, Raise e).
Proof.
  intros Hreq. unfold add_creative.
  rewrite bind_readonly by apply readonly_check_required_fields.
  rewrite <- check_required_fields_iff in Hreq.
  destruct (check_required_fields r st).2 as [[]|e]; [done|by exists e].
Qed.

Lemma add_creative_accepts r st :
  has_required (dict_of st r) →
  ∃ st', add_creative r st = (st', Ok tt)
         ∧ creatives st' = creatives st ++ [r]
         ∧ _round_robin_index st' = _round_robin_index st
         ∧ length (heap st') = length (heap st)
         ∧ dict_of st' r = backfilled (dict_of st r)
         ∧ ∀ r', r' ≠ r → dict_of st' r' = dict_of st r'.
Proof.
  intros Hreq. unfold add_creative.
  rewrite bind_readonly by apply readonly_check_required_fields.
  pose proof (check_required_fields_iff r st) as [_ Hcheck].
  rewrite Hcheck by done.
  destruct (ensure_ctr_spec r st Hreq) as (st1 & Hrun1 & Hupd1).
  rewrite (bind_run _ _ _ _ _ Hrun1).
  assert (has_required (dict_of st1 r)) as Hreq1.
  { destruct Hupd1 as (_ & _ & _ & -> & _).
    by apply has_required_with_ctr_filled. }
  destruct (ensure_cpc_spec r st1 Hreq1) as (st2 & Hrun2 & Hupd2).
  rewrite (bind_run _ _ _ _ _ Hrun2).
  destruct Hupd1 as (Hc1 & Hi1 & Hl1 & Hd1 & Ho1).
  destruct Hupd2 as (Hc2 & Hi2 & Hl2 & Hd2 & Ho2).
  eexists. split; [reflexivity|]. simpl. repeat split; try congruence.
  - unfold dict_of in *. simpl. rewrite Hd2.
    unfold backfilled. by rewrite <- Hd1.
  - intros r' Hr'. unfold dict_of in *. simpl. rewrite Ho2, Ho1; done.
Qed.

(** A state that differs from [st] by copies added to the heap and by a
    cursor that stayed or advanced. *)
Lemma well_formed_grow st copies i :
  well_formed st →
  (i = _round_robin_index st
   ∨ (creatives st ≠ []
      ∧ i = (_round_robin_index st + 1) mod length (creatives st))) →
  well_formed (mkState (heap st ++ copies) (creatives st) i).
Proof.
  intros [Hdicts Hcursor] Hi. split; simpl.
  - eapply list.Forall_impl; [exact Hdicts|]. intros r Hr.
    unfold dict_of in *. simpl. unfold lookup_heap in *.
    rewrite lookup_app_l; [done|]. by apply complete_in_heap.
  - destruct Hi as [->|[Hne ->]]; [done|]. left.
    apply Nat.mod_upper_bound. by destruct (creatives st).
Qed.

Lemma then_copy_state (m : M nat) st :
  readonly m →
  ∃ copies,
    ((c ← m; copy c) st).1 =
    mkState (heap st ++ copies) (creatives st) (_round_robin_index st).
Proof.
  intros Hm. rewrite bind_readonly by done.
  destruct (m st).2 as [c|e].
  - by exists [dict_of st c].
  - exists []. simpl. rewrite app_nil_r. by rewrite state_eta.
Qed.

Lemma unchanged_state st :
  st = mkState (heap st ++ []) (creatives st) (_round_robin_index st).
Proof. rewrite app_nil_r. by rewrite state_eta. Qed.

Lemma choose_next_state strategy rnd st :
  ∃ copies i,
    (choose_next strategy rnd st).1 =
    mkState (heap st ++ copies) (creatives st) i
    ∧ (i = _round_robin_index st
       ∨ (creatives st ≠ []
          ∧ i = (_round_robin_index st + 1) mod length (creatives st))).
Proof.
  unfold choose_next. rewrite bind_readonly by done. simpl.
  destruct (creatives st) as [|r0 l] eqn:Hcs.
  { exists [], (_round_robin_index st). split; [|by left].
    simpl. rewrite app_nil_r, <- Hcs. by rewrite state_eta. }
  rewrite <- Hcs. rewrite bind_readonly by done. simpl.
  destruct (RotationStrategy_of strategy) as [[| |]|e]; simpl.
  - (* ROUND_ROBIN *)
    unfold _round_robin_choice.
    do 3 (rewrite bind_readonly by done; simpl).
    destruct (list_getitem (creatives st) (_round_robin_index st))
      as [c|e].
    + eexists [_], _. split; [reflexivity|]. right. by rewrite Hcs.
    + exists [], (_round_robin_index st). split; [|by left].
      apply unchanged_state.
  - (* BEST_CTR *)
    unfold _best_ctr_choice. rewrite bind_readonly by done. simpl.
    rewrite bind_readonly
      by (apply readonly_comprehension; intros c;
          by apply readonly_bind).
    destruct (comprehension _ _ st).2 as [[|v valid]|e].
    + destruct (then_copy_state (lift (random_choice rnd (creatives st)))
                  st) as [copies Hst]; [done|].
      exists copies, (_round_robin_index st). by split; [|left].
    + destruct (then_copy_state
                  (py_max (v :: valid) (getfield Py.ctr "ctr")) st)
        as [copies Hst].
      { by apply readonly_extremum. }
      exists copies, (_round_robin_index st). by split; [|left].
    + exists [], (_round_robin_index st). split; [|by left].
      apply unchanged_state.
  - (* LOWEST_CPC *)
    unfold _lowest_cpc_choice. rewrite bind_readonly by done. simpl.
    rewrite bind_readonly
      by (apply readonly_comprehension; intros c;
          by apply readonly_bind).
    destruct (comprehension _ _ st).2 as [[|v valid]|e].
    + destruct (then_copy_state (lift (random_choice rnd (creatives st)))
                  st) as [copies Hst]; [done|].
      exists copies, (_round_robin_index st). by split; [|left].
    + destruct (then_copy_state
                  (py_min (v :: valid) (getfield Py.cpc "cpc")) st)
        as [copies Hst].
      { by apply readonly_extremum. }
      exists copies, (_round_robin_index st). by split; [|left].
    + exists [], (_round_robin_index st). split; [|by left].
      apply unchanged_state.
  - exists [], (_round_robin_index st). split; [|by left].
    apply unchanged_state.
Qed.

End RotatorOperations.

(* ====================================================================== *)
(** * remove_creative *)
(* ====================================================================== *)

Section RemoveCreative.

Import CreativeRotator.

Variable st : state.
Variable id : string.

Local Abbreviation kept :=
  (filter (λ r, negb (has_ad_id st id r)) (creatives st)).

Lemma remove_creative_condition r :
  is_Some (ad_id (dict_of st r)) →
  (x ← getfield Py.ad_id "ad_id" r; mret (negb (String.eqb x id))) st =
  (st, Ok (negb (has_ad_id st id r))).
Proof.
  intros [id' Hid]. unfold mbind, M_bind. rewrite getfield_spec.
  unfold getitem, has_ad_id. by rewrite Hid.
Qed.

(** What [remove_creative] does in a state whose creatives all carry an
    [ad_id]. *)
Lemma remove_creative_spec :
  Forall (λ r, is_Some (ad_id (dict_of st r))) (creatives st) →
  remove_creative id st =
  if decide (length kept < length (creatives st)) then
    (mkState (heap st) kept
             (if decide (length kept ≤ _round_robin_index st) then 0
              else _round_robin_index st),
     Ok true)
  else (mkState (heap st) kept (_round_robin_index st), Ok false).
Proof.
  intros Hids. unfold remove_creative, mbind, M_bind. simpl.
  rewrite (comprehension_filter _ (λ r, negb (has_ad_id st id r))).
  2:{ intros r Hr. apply remove_creative_condition.
      rewrite list.Forall_forall in Hids. by apply Hids. }
  simpl.
  destruct (decide (length kept < length (creatives st))) as [Hlt|Hge].
  - apply Nat.ltb_lt in Hlt. rewrite Hlt. simpl.
    destruct (decide (length kept ≤ _round_robin_index st)) as [Hle|Hgt].
    + apply Nat.leb_le in Hle. by rewrite Hle.
    + apply Nat.leb_nle in Hgt. by rewrite Hgt.
  - apply Nat.ltb_nlt in Hge. by rewrite Hge.
Qed.

End RemoveCreative.

(* ====================================================================== *)
(** * The invariant of the rotator *)
(* ====================================================================== *)

Section RotatorInvariant.

Import CreativeRotator.

Lemma well_formed_cursor st : well_formed st → cursor_in_bounds st.
Proof.
  intros [_ [Hlt|[Hnil _]]] Hne; [lia|done].
Qed.

Lemma well_formed___init__ cs h st :
  __init__ cs h = (st, Ok tt) → well_formed st.
Proof.
  intros Hinit.
  apply __init___inv in Hinit as (Hne & Hreq & Hcs & Hidx & _ & Hdict).
  split.
  - rewrite Hcs. rewrite list.Forall_forall in Hreq.
    apply list.Forall_forall.
    intros r Hr. rewrite Hdict, bool_decide_eq_true_2 by done.
    by apply complete_backfilled, Hreq.
  - left. rewrite Hidx, Hcs. destruct cs; [done|simpl; lia].
Qed.

Lemma well_formed_choose_next strategy rnd st :
  well_formed st → well_formed (choose_next strategy rnd st).1.
Proof.
  intros Hwf.
  destruct (choose_next_state strategy rnd st) as (copies & i & -> & Hi).
  by apply well_formed_grow.
Qed.

Lemma well_formed_add_creative r st :
  well_formed st → well_formed (add_creative r st).1.
Proof.
  intros [Hdicts Hcursor].
  destruct (decide (has_required (dict_of st r))) as [Hreq|Hreq].
  - destruct (add_creative_accepts r st Hreq)
      as (st' & -> & Hcs & Hidx & _ & Hd & Ho).
    simpl. split.
    + rewrite Hcs. apply Forall_app. split.
      * eapply list.Forall_impl; [exact Hdicts|]. intros r' Hr'. simpl in *.
        destruct (decide (r' = r)) as [->|Hne].
        -- rewrite Hd. by apply complete_backfilled.
        -- by rewrite Ho.
      * apply Forall_singleton. rewrite Hd. by apply complete_backfilled.
    + left. rewrite Hidx, Hcs, length_app. simpl.
      destruct Hcursor as [?|[_ ->]]; lia.
  - destruct (add_creative_rejects r st Hreq) as [e ->]. by split.
Qed.

Lemma well_formed_ad_ids st :
  well_formed st →
  Forall (λ r, is_Some (ad_id (dict_of st r))) (creatives st).
Proof.
  intros [Hdicts _]. eapply list.Forall_impl; [exact Hdicts|].
  by intros r [? _].
Qed.

Lemma well_formed_remove_creative id st :
  well_formed st → well_formed (remove_creative id st).1.
Proof.
  intros Hwf. rewrite remove_creative_spec by (by apply well_formed_ad_ids).
  destruct Hwf as [Hdicts Hcursor].
  assert (Forall (λ r, complete (dict_of st r))
            (filter (λ r, negb (has_ad_id st id r)) (creatives st)))
    as Hkept.
  { apply list.Forall_forall. intros r [_ Hr]%list_elem_of_filter.
    rewrite list.Forall_forall in Hdicts. by apply Hdicts. }
  case_decide as Hlen; simpl; (split; [done|simpl]).
  - case_decide as Hidx; [|left; lia].
    destruct (filter _ (creatives st)); [by right|left; simpl; lia].
  - assert (filter (λ r, negb (has_ad_id st id r)) (creatives st)
            = creatives st) as ->; [|done].
    apply filter_length_eq.
    pose proof (length_filter (λ r, negb (has_ad_id st id r))
                  (creatives st)). lia.
Qed.

Lemma well_formed_reset_round_robin st :
  well_formed st → well_formed (reset_round_robin st).1.
Proof.
  intros [Hdicts _]. split; [done|]. simpl.
  destruct (creatives st); [by right|left; simpl; lia].
Qed.

Lemma well_formed_simulate_loop strategy rnd indices acc st :
  well_formed st →
  well_formed (simulate_loop strategy rnd indices acc st).1.
Proof.
  revert acc st. induction indices as [|i rest IH]; intros acc st Hwf;
    [done|].
  simpl. apply bind_preserves; [done| |].
  - intros st'. apply well_formed_choose_next.
  - intros chosen st'. apply IH.
Qed.

Lemma well_formed_simulate_rotation iterations strategy rnd st :
  well_formed st →
  well_formed (simulate_rotation iterations strategy rnd st).1.
Proof.
  intros Hwf. unfold simulate_rotation. apply bind_preserves; [done| |].
  - intros st'. destruct (String.eqb strategy "round_robin"); [|done].
    apply well_formed_reset_round_robin.
  - intros _ st'. apply well_formed_simulate_loop.
Qed.

Lemma well_formed_new_dict st d :
  well_formed st →
  well_formed (mkState (heap st ++ [d]) (creatives st)
                       (_round_robin_index st)).
Proof. intros Hwf. apply well_formed_grow; [done|by left]. Qed.

(** Every state a rotator goes through satisfies the invariant. *)
Lemma reachable_well_formed st : reachable st → well_formed st.
Proof.
  induction 1 as [cs h st Hinit| | | | | |].
  - by apply (well_formed___init__ cs h).
  - by apply well_formed_choose_next.
  - by apply well_formed_add_creative.
  - by apply well_formed_remove_creative.
  - by apply well_formed_reset_round_robin.
  - by apply well_formed_simulate_rotation.
  - by apply well_formed_new_dict.
Qed.

End RotatorInvariant.

(* ====================================================================== *)
(** * Properties of the rotator *)
(* ====================================================================== *)

Section RotatorFixtures.

Import CreativeRotator.

Lemma rotator_ABC_reachable : reachable Fixtures.rotator_ABC.
Proof.
  apply (reach_init [0; 1; 2] Fixtures.test_creatives). reflexivity.
Defined.

Lemma rotator_duplicates_reachable : reachable Fixtures.rotator_duplicates.
Proof.
  apply (reach_init [0; 1] [Fixtures.creative_A; Fixtures.creative_A_again]).
  reflexivity.
Defined.

Lemma rotator_A_reachable : reachable Fixtures.rotator_A.
Proof. apply (reach_init [0] [Fixtures.creative_A]). reflexivity. Defined.

End RotatorFixtures.

Section RemoveCreativeClaims.

Import CreativeRotator.

Lemma filter_no_match st id l :
  Forall (λ r, has_ad_id st id r = false) l →
  filter (λ r, negb (has_ad_id st id r)) l = l.
Proof.
  induction 1 as [|r l Hr Hl IH]; [done|].
  rewrite filter_cons, Hr. simpl. by rewrite IH.
Qed.

(** With distinct [ad_id]s, what [remove_creative] filters out is the
    first matching record. *)
Lemma filter_remove_first st id l :
  NoDup (map (λ r, ad_id (dict_of st r)) l) →
  filter (λ r, negb (has_ad_id st id r)) l =
  Spec.remove_first (has_ad_id st id) l.
Proof.
  induction l as [|r l IH]; [done|].
  simpl. intros [Hr Hl]%list.NoDup_cons. rewrite filter_cons.
  destruct (has_ad_id st id r) eqn:Hid; simpl.
  - apply filter_no_match, list.Forall_forall. intros r' Hr'.
    destruct (has_ad_id st id r') eqn:Hid'; [|done].
    exfalso. apply Hr. unfold has_ad_id in Hid, Hid'.
    destruct (ad_id (dict_of st r)) as [a|] eqn:Ha; [|done].
    destruct (ad_id (dict_of st r')) as [a'|] eqn:Ha'; [|done].
    apply String.eqb_eq in Hid, Hid'. subst a a'.
    rewrite <- Ha'. apply list_elem_of_fmap. by exists r'.
  - by rewrite IH.
Qed.

(** C3, as stated, fails: when two creatives carry the same [ad_id],
    [remove_creative] removes both, not the first one only. *)
Lemma remove_creative_removes_duplicates :
  let st := Fixtures.rotator_duplicates in
  reachable st
  ∧ creatives st = [0; 1]
  ∧ creatives (remove_creative "ad_1" st).1 = []
  ∧ Spec.remove_first (has_ad_id st "ad_1") (creatives st) = [1]
  ∧ creatives (remove_creative "ad_1" st).1
    ≠ Spec.remove_first (has_ad_id st "ad_1") (creatives st).
Proof.
  split; [apply rotator_duplicates_reachable|].
  repeat split. intros H. discriminate H.
Qed.

(** C3, amended: [remove_creative] removes every record whose [ad_id]
    is the given one, which is the first and only one when the [ad_id]s
    are distinct, and returns whether there was any; when none matches,
    the collection and the cursor are unchanged; after a removal, a
    cursor at or past the new end is reset to 0 and any other is kept. *)
Theorem remove_creative_removes_every_match st id :
  reachable st →
  let kept := filter (λ r, negb (has_ad_id st id r)) (creatives st) in
  ∃ st' removed,
    remove_creative id st = (st', Ok removed)
    ∧ heap st' = heap st
    ∧ creatives st' = kept
    ∧ (NoDup (map (λ r, ad_id (dict_of st r)) (creatives st)) →
       kept = Spec.remove_first (has_ad_id st id) (creatives st))
    ∧ (removed = true ↔
       ∃ r, r ∈ creatives st ∧ ad_id (dict_of st r) = Some id)
    ∧ (removed = false → st' = st)
    ∧ (removed = true →
       _round_robin_index st' =
       if decide (length kept ≤ _round_robin_index st) then 0
       else _round_robin_index st).
Proof.
  intros Hwf%reachable_well_formed kept.
  rewrite remove_creative_spec by (by apply well_formed_ad_ids).
  pose proof (length_filter (λ r, negb (has_ad_id st id r)) (creatives st))
    as Hle.
  assert ((∃ r, r ∈ creatives st ∧ ad_id (dict_of st r) = Some id)
          ↔ length kept < length (creatives st)) as Hmatch.
  { split.
    - intros (r & Hr & Hid).
      apply (length_filter_lt _ _ r); [done|].
      unfold has_ad_id. rewrite Hid, String.eqb_refl. by intros ?.
    - intros Hlt.
      destruct (decide (Forall (λ r, has_ad_id st id r = false)
                               (creatives st))) as [Hnone|Hsome].
      { unfold kept in Hlt. rewrite filter_no_match in Hlt by done. lia. }
      apply not_Forall_Exists in Hsome; [|apply _].
      apply list.Exists_exists in Hsome as (r & Hr & Hid).
      exists r. split; [done|]. unfold has_ad_id in Hid. simpl in Hid.
      destruct (ad_id (dict_of st r)) as [a|]; [|by destruct Hid].
      destruct (String.eqb_spec a id) as [Heq|Hneq];
        [by rewrite Heq|by destruct Hid]. }
  case_decide as Hlt; eexists _, _; (split; [reflexivity|]); simpl.
  - repeat split; try done.
    + apply filter_remove_first.
    + by intros _; apply Hmatch.
  - repeat split; try done.
    + apply filter_remove_first.
    + intros Hex. by apply Hmatch in Hex.
    + intros _. unfold kept in *.
      rewrite filter_length_eq by lia. apply state_eta.
Qed.

(** tests/test_rotator.py:215 *)
Lemma remove_creative_removes_every_match_witness :
  ∃ st',
    remove_creative "ad_2" Fixtures.rotator_ABC = (st', Ok true)
    ∧ creatives st' = [0; 2]
    ∧ remove_creative "nonexistent" st' = (st', Ok false).
Proof.
  destruct (remove_creative_removes_every_match
              Fixtures.rotator_ABC "ad_2" rotator_ABC_reachable)
    as (st' & removed & Hrun & _ & Hcs & _ & Hremoved & _).
  assert (removed = true) as ->.
  { apply Hremoved. exists 1. split; [|reflexivity].
    apply list_elem_of_further, list_elem_of_here. }
  exists st'. split; [exact Hrun|]. split; [exact Hcs|].
  assert (st' = (remove_creative "ad_2" Fixtures.rotator_ABC).1) as ->
    by (by rewrite Hrun).
  reflexivity.
Defined.

End RemoveCreativeClaims.

Section CursorClaims.

Import CreativeRotator.

(** C4: construction with an empty list raises; a successful construction
    yields a non-empty collection with the cursor in bounds; in every state
    a rotator goes through the cursor is in bounds whenever the collection
    is not empty, and it still is after each of [choose_next],
    [add_creative], [remove_creative], [reset_round_robin] and
    [simulate_rotation], whether the call returns or raises. *)
Theorem cursor_stays_in_bounds :
  (∀ h, (__init__ [] h).2 = Raise (ValueError EmptyCreatives))
  ∧ (∀ cs h st,
       __init__ cs h = (st, Ok tt) →
       creatives st ≠ [] ∧ cursor_in_bounds st)
  ∧ (∀ st,
       reachable st →
       cursor_in_bounds st
       ∧ (∀ strategy rnd, cursor_in_bounds (choose_next strategy rnd st).1)
       ∧ (∀ creative, cursor_in_bounds (add_creative creative st).1)
       ∧ (∀ ad_id, cursor_in_bounds (remove_creative ad_id st).1)
       ∧ cursor_in_bounds (reset_round_robin st).1
       ∧ (∀ iterations strategy rnd,
            cursor_in_bounds
              (simulate_rotation iterations strategy rnd st).1)).
Proof.
  split; [done|]. split.
  - intros cs h st Hinit. split.
    + apply __init___inv in Hinit as (Hne & _ & -> & _). done.
    + by apply well_formed_cursor, (well_formed___init__ cs h).
  - intros st Hst.
    assert (∀ st', reachable st' → cursor_in_bounds st') as Hbounds
      by (intros st' Hst'; by apply well_formed_cursor, reachable_well_formed).
    split; [by apply Hbounds|].
    split; [intros strategy rnd; by apply Hbounds, reach_choose_next|].
    split; [intros creative; by apply Hbounds, reach_add_creative|].
    split; [intros ad_id; by apply Hbounds, reach_remove_creative|].
    split; [by apply Hbounds, reach_reset_round_robin|].
    intros iterations strategy rnd.
    by apply Hbounds, reach_simulate_rotation.
Qed.

Lemma cursor_stays_in_bounds_witness :
  cursor_in_bounds Fixtures.rotator_ABC
  ∧ cursor_in_bounds
      (remove_creative "ad_3"
         (choose_next "round_robin" 0
            (choose_next "round_robin" 0 Fixtures.rotator_ABC).1).1).1.
Proof.
  destruct cursor_stays_in_bounds as (_ & Hinit & Hreach). split.
  - apply (Hinit [0; 1; 2] Fixtures.test_creatives). reflexivity.
  - destruct (Hreach (choose_next "round_robin" 0
                       (choose_next "round_robin" 0
                          Fixtures.rotator_ABC).1).1)
      as (_ & _ & _ & Hremove & _).
    + do 2 apply reach_choose_next. apply rotator_ABC_reachable.
    + apply Hremove.
Defined.

(** C10: the constructor rejects an empty list, yet removals can empty the
    collection of a rotator; in a state whose collection is empty,
    [choose_next] raises [ValueError] for every strategy name and leaves
    the state as it is, so that every later call raises as well. *)
Theorem choose_next_raises_when_emptied :
  (∀ h, (__init__ [] h).2 = Raise (ValueError EmptyCreatives))
  ∧ (∃ st ad_id,
       reachable st ∧ creatives st ≠ []
       ∧ creatives (remove_creative ad_id st).1 = [])
  ∧ (∀ st strategy rnd,
       creatives st = [] →
       choose_next strategy rnd st
       = (st, Raise (ValueError NoCreativesAvailable))).
Proof.
  split; [done|]. split.
  - exists Fixtures.rotator_A, "ad_1"%string.
    split; [apply rotator_A_reachable|]. by split.
  - intros st strategy rnd Hnil. unfold choose_next.
    rewrite bind_readonly by done. simpl. by rewrite Hnil.
Qed.

Lemma choose_next_raises_when_emptied_witness :
  let emptied := (remove_creative "ad_1" Fixtures.rotator_A).1 in
  choose_next "best_ctr" 7 emptied
  = (emptied, Raise (ValueError NoCreativesAvailable)).
Proof.
  intros emptied.
  destruct choose_next_raises_when_emptied as (_ & _ & Hraises).
  apply Hraises. reflexivity.
Defined.

End CursorClaims.

Section RoundRobinClaims.

Import CreativeRotator.

Lemma well_formed_cursor_lookup st :
  well_formed st → creatives st ≠ [] →
  ∃ c, creatives st !! _round_robin_index st = Some c.
Proof.
  intros Hwf Hne. apply lookup_lt_is_Some_2.
  by apply (well_formed_cursor st Hwf).
Qed.

Lemma well_formed_creative_in_heap st i c :
  well_formed st → creatives st !! i = Some c → c < length (heap st).
Proof.
  intros [Hdicts _] Hc. apply complete_in_heap.
  rewrite list.Forall_forall in Hdicts.
  by apply Hdicts, list_elem_of_lookup_2 with i.
Qed.

(** rotator.py:96 through [choose_next]. *)
Lemma round_robin_step st rnd c :
  creatives st !! _round_robin_index st = Some c →
  choose_next "round_robin" rnd st
  = (mkState (heap st ++ [dict_of st c]) (creatives st)
             ((_round_robin_index st + 1) mod length (creatives st)),
     Ok (length (heap st))).
Proof.
  intros Hc. unfold choose_next. rewrite bind_readonly by done. simpl.
  destruct (creatives st) as [|r0 l] eqn:Hcs; [done|]. rewrite <- Hcs in *.
  unfold _round_robin_choice.
  do 3 (rewrite bind_readonly by done; simpl).
  unfold list_getitem. by rewrite Hc.
Qed.

(** Successive round-robin calls: call number [k] returns a new dictionary
    equal to the creative [k] places after the cursor, cyclically. *)
Lemma simulate_loop_round_robin rnd n :
  ∀ start acc st,
    well_formed st → creatives st ≠ [] →
    ∃ st' out,
      simulate_loop "round_robin" rnd (seq start n) acc st
      = (st', Ok (acc ++ out))
      ∧ length out = n
      ∧ creatives st' = creatives st
      ∧ length (heap st) ≤ length (heap st')
      ∧ (∀ r, r < length (heap st) → dict_of st' r = dict_of st r)
      ∧ ∀ k, k < n →
          ∃ r c,
            out !! k = Some (start + k + 1, r)
            ∧ creatives st
              !! ((_round_robin_index st + k) mod length (creatives st))
              = Some c
            ∧ length (heap st) ≤ r
            ∧ dict_of st' r = dict_of st c.
Proof.
  induction n as [|n IH]; intros start acc st Hwf Hne.
  { exists st, []. simpl. rewrite app_nil_r.
    repeat split; try done. intros k Hk. lia. }
  destruct (well_formed_cursor_lookup st Hwf Hne) as [c Hc].
  pose proof (round_robin_step st (rnd start) c Hc) as Hstep.
  pose proof (well_formed_choose_next "round_robin" (rnd start) st Hwf)
    as Hwf1.
  simpl. rewrite (bind_run _ _ _ _ _ Hstep).
  rewrite Hstep in Hwf1. simpl in Hwf1.
  set (st1 := mkState (heap st ++ [dict_of st c]) (creatives st)
                ((_round_robin_index st + 1) mod length (creatives st)))
    in *.
  destruct (IH (S start) (acc ++ [(start + 1, length (heap st))]) st1 Hwf1 Hne)
    as (st' & out & Hrun & Hlen & Hcs & Hheap & Hkeep & Hcalls).
  assert (length (heap st1) = S (length (heap st))) as Hlen1
    by (simpl; rewrite length_app; simpl; lia).
  assert (∀ r, r < length (heap st) → dict_of st1 r = dict_of st r) as Hkeep1
    by (intros r Hr; by apply lookup_heap_app_l).
  exists st', ((start + 1, length (heap st)) :: out).
  split; [by rewrite Hrun, <- app_assoc|].
  split; [simpl; lia|]. split; [done|]. split; [lia|].
  split; [intros r Hr; rewrite Hkeep by lia; by apply Hkeep1|].
  intros [|k] Hk.
  - exists (length (heap st)), c. rewrite !Nat.add_0_r.
    rewrite Nat.mod_small by (by apply lookup_lt_Some in Hc).
    split; [done|]. split; [done|]. split; [done|].
    rewrite Hkeep by lia. apply lookup_heap_app_new.
  - destruct (Hcalls k) as (r & c' & Hout & Hc' & Hr & Hdict); [lia|].
    exists r, c'. simpl in Hc'.
    rewrite Nat.Div0.add_mod_idemp_l in Hc'.
    split; [simpl; rewrite Hout; do 2 f_equal; lia|].
    split; [by replace (_round_robin_index st + S k)
                 with (_round_robin_index st + 1 + k) by lia|].
    split; [lia|]. rewrite Hdict. apply Hkeep1.
    by eapply well_formed_creative_in_heap.
Qed.

(** C8: with [ROUND_ROBIN], [choose_next] returns a new dictionary with
    the items of the creative at the cursor and moves the cursor to
    [(cursor + 1) mod len(creatives)]; successive calls go through the
    collection cyclically from the cursor on, so from cursor 0 through
    [A, B, C, A, B, C, ...]; after [reset_round_robin] the next call
    returns the first creative. *)
Theorem round_robin_is_cyclic st :
  reachable st → creatives st ≠ [] →
  let n := length (creatives st) in
  (∀ rnd, ∃ c,
     creatives st !! _round_robin_index st = Some c
     ∧ choose_next "round_robin" rnd st
       = (mkState (heap st ++ [dict_of st c]) (creatives st)
                  ((_round_robin_index st + 1) mod n),
          Ok (length (heap st)))
     ∧ length (heap st) ∉ creatives st)
  ∧ (∀ rnd calls, ∃ st' out,
       simulate_loop "round_robin" rnd (seq 0 calls) [] st = (st', Ok out)
       ∧ length out = calls
       ∧ ∀ k, k < calls →
           ∃ r c,
             out !! k = Some (k + 1, r)
             ∧ creatives st !! ((_round_robin_index st + k) mod n) = Some c
             ∧ (r ∉ creatives st)
             ∧ dict_of st' r = dict_of st c)
  ∧ (∀ rnd, ∃ first,
       creatives st !! 0 = Some first
       ∧ _round_robin_index (reset_round_robin st).1 = 0
       ∧ choose_next "round_robin" rnd (reset_round_robin st).1
         = (mkState (heap st ++ [dict_of st first]) (creatives st) (1 mod n),
            Ok (length (heap st)))).
Proof.
  intros Hwf%reachable_well_formed Hne n.
  assert (∀ r, length (heap st) ≤ r → r ∉ creatives st) as Hfresh.
  { intros r Hr [i Hi]%list_elem_of_lookup_1.
    pose proof (well_formed_creative_in_heap st i r Hwf Hi). lia. }
  split; [|split].
  - intros rnd. destruct (well_formed_cursor_lookup st Hwf Hne) as [c Hc].
    exists c. split; [done|]. split; [by apply round_robin_step|].
    by apply Hfresh.
  - intros rnd calls.
    destruct (simulate_loop_round_robin rnd calls 0 [] st Hwf Hne)
      as (st' & out & Hrun & Hlen & _ & _ & _ & Hcalls).
    exists st', out. split; [done|]. split; [done|]. intros k Hk.
    destruct (Hcalls k Hk) as (r & c & Hout & Hc & Hr & Hdict).
    exists r, c. repeat split; try done. by apply Hfresh.
  - intros rnd. destruct (creatives st) as [|first l] eqn:Hcs; [done|].
    exists first. split; [done|]. split; [done|]. rewrite <- Hcs.
    rewrite (round_robin_step (reset_round_robin st).1 rnd first).
    + simpl. by rewrite Hcs.
    + simpl. by rewrite Hcs.
Qed.

(** tests/test_rotator.py:80: the fourth call returns the first creative
    again. *)
Lemma round_robin_is_cyclic_witness :
  let st := Fixtures.rotator_ABC in
  ∃ st' out r,
    simulate_loop "round_robin" (λ _, 0) (seq 0 7) [] st = (st', Ok out)
    ∧ length out = 7
    ∧ out !! 3 = Some (4, r)
    ∧ (r ∉ creatives st)
    ∧ dict_of st' r = dict_of st 0.
Proof.
  intros st.
  destruct (round_robin_is_cyclic st rotator_ABC_reachable)
    as (_ & Hcalls & _); [done|].
  destruct (Hcalls (λ _, 0) 7) as (st' & out & Hrun & Hlen & Hout).
  destruct (Hout 3) as (r & c & Hr & Hc & Hfresh & Hdict); [lia|].
  injection Hc as <-.
  exists st', out, r. repeat split; assumption.
Defined.

(** The seven first choices over the fixture of the tests, and the cursor
    they leave. *)
Example round_robin_over_ABC :
  let run := simulate_rotation 7 "round_robin" (λ _, 0) Fixtures.rotator_ABC in
  match run.2 with
  | Ok out => map (λ choice, ad_id (dict_of run.1 choice.2)) out
  | Raise _ => []
  end
  = map Some ["ad_1"; "ad_2"; "ad_3"; "ad_1"; "ad_2"; "ad_3"; "ad_1"]%string
  ∧ _round_robin_index run.1 = 1.
Proof. vm_compute. split; reflexivity. Qed.

End RoundRobinClaims.

Section BestCtrClaims.

Import CreativeRotator.

Lemma best_ctr_condition st r :
  is_Some (impressions (dict_of st r)) →
  (impressions ← getfield Py.impressions "impressions" r;
   mret (impressions >? 0)%Z) st
  = (st, Ok (has_impressions st r)).
Proof.
  intros [n Hn]. unfold mbind, M_bind. rewrite getfield_spec.
  unfold getitem, has_impressions. by rewrite Hn.
Qed.

Lemma ctr_key st r :
  is_Some (ctr (dict_of st r)) →
  getfield Py.ctr "ctr" r st = (st, Ok (ctr_of st r)).
Proof.
  intros [v Hv]. rewrite getfield_spec. unfold getitem, ctr_of.
  by rewrite Hv.
Qed.

(** The loop of [max]: [best] is the first maximum of what was scanned,
    and stays so. *)
Lemma max_loop_first_maximum st rest :
  ∀ before best after,
    Forall (λ c, is_Some (ctr (dict_of st c))) rest →
    Forall (λ c, float_ltb (ctr_of st c) (ctr_of st best) = true) before →
    Forall (λ c, float_ltb (ctr_of st best) (ctr_of st c) = false) after →
    ∃ before' best' after',
      before ++ best :: after ++ rest = before' ++ best' :: after'
      ∧ Forall (λ c, float_ltb (ctr_of st c) (ctr_of st best') = true)
               before'
      ∧ Forall (λ c, float_ltb (ctr_of st best') (ctr_of st c) = false)
               after'
      ∧ extremum_loop (λ val maxval, float_ltb maxval val)
          (getfield Py.ctr "ctr") rest best (ctr_of st best) st
        = (st, Ok best').
Proof.
  induction rest as [|item rest IH]; intros before best after Hkeys Hlt Hge.
  { exists before, best, after. by rewrite app_nil_r. }
  apply list.Forall_cons in Hkeys as [Hitem Hrest].
  simpl. rewrite (bind_run _ _ _ _ _ (ctr_key st item Hitem)).
  destruct (float_ltb (ctr_of st best) (ctr_of st item)) eqn:Hcmp.
  - destruct (IH (before ++ best :: after) item [] Hrest)
      as (before' & best' & after' & Heq & Hlt' & Hge' & Hrun).
    + apply Forall_app. split; [|apply list.Forall_cons; split].
      * eapply list.Forall_impl; [exact Hlt|]. intros c Hc. simpl in *.
        by apply float_ltb_trans with (ctr_of st best).
      * done.
      * eapply list.Forall_impl; [exact Hge|]. intros c Hc. simpl in *.
        by apply float_le_lt_trans with (ctr_of st best).
    + constructor.
    + exists before', best', after'. split; [|done].
      rewrite <- Heq. simpl. by rewrite <- app_assoc.
  - destruct (IH before best (after ++ [item]) Hrest Hlt)
      as (before' & best' & after' & Heq & Hlt' & Hge' & Hrun).
    + apply Forall_app. split; [done|]. by apply Forall_singleton.
    + exists before', best', after'. split; [|done].
      rewrite <- Heq. by rewrite <- app_assoc.
Qed.

Lemma py_max_first_maximum st items :
  items ≠ [] →
  Forall (λ c, is_Some (ctr (dict_of st c))) items →
  ∃ before best after,
    items = before ++ best :: after
    ∧ Forall (λ c, float_ltb (ctr_of st c) (ctr_of st best) = true) before
    ∧ Forall (λ c, float_ltb (ctr_of st best) (ctr_of st c) = false) after
    ∧ py_max items (getfield Py.ctr "ctr") st = (st, Ok best).
Proof.
  destruct items as [|item rest]; [done|]. intros _ Hkeys.
  apply list.Forall_cons in Hkeys as [Hitem Hrest].
  destruct (max_loop_first_maximum st rest [] item [] Hrest)
    as (before & best & after & Heq & Hlt & Hge & Hrun); [done|done|].
  exists before, best, after. split; [done|]. split; [done|]. split; [done|].
  unfold py_max, extremum.
  by rewrite (bind_run _ _ _ _ _ (ctr_key st item Hitem)).
Qed.

(** rotator.py:107 through [choose_next], in a state that satisfies the
    invariant. *)
Lemma best_ctr_comprehension st :
  well_formed st →
  comprehension (λ c,
      impressions ← getfield Py.impressions "impressions" c;
      mret (impressions >? 0)%Z) (creatives st) st
  = (st, Ok (filter (has_impressions st) (creatives st))).
Proof.
  intros [Hdicts _]. apply comprehension_filter. intros r Hr.
  apply best_ctr_condition. rewrite list.Forall_forall in Hdicts.
  by destruct (Hdicts r Hr) as (_ & _ & ? & _).
Qed.

(** C9: with [BEST_CTR], [choose_next] returns a new dictionary with the
    items of the creative whose [ctr] is the greatest among those with
    [impressions > 0], the first such one in collection order; when no
    creative has [impressions > 0], it returns a copy of some creative of
    the collection and does not raise. *)
Theorem best_ctr_picks_first_maximum st rnd :
  reachable st → creatives st ≠ [] →
  let valid := filter (has_impressions st) (creatives st) in
  (valid ≠ [] →
   ∃ before best after,
     valid = before ++ best :: after
     ∧ Forall (λ c, float_ltb (ctr_of st c) (ctr_of st best) = true) before
     ∧ (∀ c, c ∈ valid → float_ltb (ctr_of st best) (ctr_of st c) = false)
     ∧ choose_next "best_ctr" rnd st
       = (with_copy st best, Ok (length (heap st))))
  ∧ (valid = [] →
     ∃ c, c ∈ creatives st
          ∧ choose_next "best_ctr" rnd st
            = (with_copy st c, Ok (length (heap st)))).
Proof.
  intros Hwf%reachable_well_formed Hne valid.
  assert (choose_next "best_ctr" rnd st = _best_ctr_choice rnd st) as ->.
  { unfold choose_next. rewrite bind_readonly by done. simpl.
    by destruct (creatives st). }
  unfold _best_ctr_choice. rewrite bind_readonly by done. simpl.
  rewrite (bind_run _ _ _ _ _ (best_ctr_comprehension st Hwf)).
  fold valid. split.
  - intros Hvalid.
    destruct (py_max_first_maximum st valid Hvalid)
      as (before & best & after & Heq & Hlt & Hge & Hrun).
    { apply list.Forall_forall. intros c [_ Hc]%list_elem_of_filter.
      destruct Hwf as [Hdicts _]. rewrite list.Forall_forall in Hdicts.
      by destruct (Hdicts c Hc) as (_ & _ & _ & _ & _ & ? & _). }
    exists before, best, after. split; [done|]. split; [done|]. split.
    + intros c. rewrite Heq.
      intros [Hc|[->|Hc]%elem_of_cons]%elem_of_app.
      * rewrite list.Forall_forall in Hlt. specialize (Hlt c Hc).
        destruct (float_ltb (ctr_of st best) (ctr_of st c)) eqn:Hcmp;
          [|done].
        pose proof (float_ltb_trans _ _ _ Hlt Hcmp) as Hirr.
        by rewrite float_ltb_irrefl in Hirr.
      * apply float_ltb_irrefl.
      * rewrite list.Forall_forall in Hge. by apply Hge.
    + destruct valid as [|v rest]; [done|].
      by rewrite (bind_run _ _ _ _ _ Hrun).
  - intros ->.
    destruct (random_choice_elem rnd (creatives st) Hne) as (c & Hrun & Hc).
    exists c. split; [done|]. rewrite bind_readonly by done. simpl.
    by rewrite Hrun.
Qed.

(** tests/test_rotator.py:100: the [ctr] values are [5.0, 2.0, 5.0]. *)
Lemma best_ctr_picks_first_maximum_witness :
  let st := Fixtures.rotator_ABC in
  map (ctr_of st) (creatives st)
  = [Fin (of_int 5); Fin (of_int 2); Fin (of_int 5)]
  ∧ choose_next "best_ctr" 0 st = (with_copy st 0, Ok 3).
Proof.
  intros st. split; [reflexivity|].
  destruct (best_ctr_picks_first_maximum st 0 rotator_ABC_reachable)
    as [Hmax _]; [done|].
  destruct Hmax as (before & best & after & Heq & Hlt & _ & Hrun); [done|].
  rewrite Hrun. f_equal. f_equal.
  change (filter (has_impressions st) (creatives st)) with [0; 1; 2] in Heq.
  destruct before as [|b0 [|b1 [|b2 before]]].
  - by injection Heq as <- _.
  - injection Heq as <- <- _.
    apply list.Forall_cons in Hlt as [Hlt _]. discriminate Hlt.
  - injection Heq as <- <- <- _.
    apply list.Forall_cons in Hlt as [Hlt _]. discriminate Hlt.
  - injection Heq as _ _ _ Heq. by destruct before.
Defined.

End BestCtrClaims.

Section MetricsClaims.

Import CreativeRotator.

Ltac unfold_backfilled :=
  unfold backfilled, with_cpc_filled, with_ctr_filled; simpl.

Lemma _calculate_cpc_total spend clicks :
  _calculate_cpc spend clicks
  = Ok (if (clicks =? 0)%Z then Fin 0%Qc
        else Fin (round (float_div spend (float_of_int clicks)) 2)).
Proof.
  unfold _calculate_cpc. destruct (clicks =? 0)%Z eqn:Hc; [done|].
  apply Z.eqb_neq in Hc. by rewrite truediv_float_nonzero.
Qed.

Lemma _calculate_ctr_spec impressions clicks :
  _calculate_ctr impressions clicks = Ok (Spec.ctr impressions clicks).
Proof.
  unfold _calculate_ctr, Spec.ctr.
  destruct (impressions =? 0)%Z eqn:Hi; [done|].
  apply Z.eqb_neq in Hi. by rewrite truediv_nonzero.
Qed.

(** What the constructor leaves under [ctr] and [cpc]. *)
Lemma __init___metrics cs h st r :
  __init__ cs h = (st, Ok tt) → r ∈ cs →
  dict_of st r = backfilled (lookup_heap h r).
Proof.
  intros Hinit Hr.
  apply __init___inv in Hinit as (_ & _ & _ & _ & _ & Hdict).
  by rewrite Hdict, bool_decide_eq_true_2.
Qed.

(** C2, as stated, fails in the rotator: the [ctr] it backfills for 1
    click over 3 impressions is the float [1 / 3 * 100], which Python
    prints as 33.33333333333333, not the float 33.33. *)
Lemma rotator_ctr_is_not_rounded :
  let built := __init__ [0] [Fixtures.creative_raw] in
  built.2 = Ok tt
  ∧ ctr (dict_of built.1 0)
    = Some (Fin (float_mul (float_div (of_int 1) (of_int 3))
                           (float_of_int 100)))
  ∧ ctr (dict_of built.1 0)
    = Some (Fin (Q2Qc (2345624805922133 # 70368744177664)))
  ∧ Spec.ctr 3 1 = Fin (binary64 (Q2Qc (3333 # 100)))
  ∧ ctr (dict_of built.1 0) ≠ Some (Spec.ctr 3 1).
Proof.
  split; [reflexivity|]. split; [|split; [|split]].
  - float_eq.
  - float_eq.
  - float_eq.
  - vm_compute. intros H. discriminate H.
Qed.

(** C2, amended: the platform clients compute [0.0] when
    [impressions == 0] and otherwise [(clicks / impressions) * 100]
    rounded to 2 decimal places: the float nearest to a number of
    hundredths that is at most half a hundredth away from the float
    [clicks / impressions * 100]; the constructor of the rotator keeps a
    [ctr] that is supplied, and otherwise stores [0.0] when [impressions]
    is not positive and the float [clicks / impressions * 100], without
    rounding to 2 decimal places, when it is. *)
Theorem ctr_of_clients_and_rotator impressions clicks :
  let rate := float_mul (float_div (of_int clicks) (of_int impressions))
                        (float_of_int 100) in
  _calculate_ctr impressions clicks = Ok (Spec.ctr impressions clicks)
  ∧ (∀ id name spend, ∃ d,
       format_ad id name impressions clicks spend = Ok d
       ∧ ctr d = Some (Spec.ctr impressions clicks))
  ∧ (impressions = 0%Z → Spec.ctr impressions clicks = Fin 0%Qc)
  ∧ (impressions ≠ 0%Z →
     ∃ (rounded : Qc) (hundredths : Z),
       Spec.ctr impressions clicks = Fin rounded
       ∧ rounded = binary64 (Q2Qc (hundredths # 100))
       ∧ (rate - Q2Qc (1 # 200) ≤ Q2Qc (hundredths # 100))%Qc
       ∧ (Q2Qc (hundredths # 100) ≤ rate + Q2Qc (1 # 200))%Qc)
  ∧ (∀ cs h st r,
       __init__ cs h = (st, Ok tt) → r ∈ cs →
       Py.impressions (lookup_heap h r) = Some impressions →
       Py.clicks (lookup_heap h r) = Some clicks →
       match ctr (lookup_heap h r) with
       | Some supplied => ctr (dict_of st r) = Some supplied
       | None =>
           ctr (dict_of st r)
           = Some (if (impressions >? 0)%Z then Fin rate else Fin 0%Qc)
       end).
Proof.
  intros rate. split; [apply _calculate_ctr_spec|]. split; [|split; [|split]].
  - intros id name spend. unfold format_ad.
    rewrite _calculate_ctr_spec, _calculate_cpc_total. simpl. by eexists.
  - intros ->. reflexivity.
  - intros Hi. unfold Spec.ctr. apply Z.eqb_neq in Hi. rewrite Hi.
    destruct (round_2_spec rate) as (n & Hn & Hlo & Hhi).
    by exists (round rate 2), n.
  - intros cs h st r Hinit Hr Himp Hclk.
    rewrite (__init___metrics cs h st r Hinit Hr).
    unfold_backfilled.
    rewrite Himp, Hclk. simpl. by destruct (ctr (lookup_heap h r)).
Qed.

(** tests/test_rotator.py:58 and :118 *)
Lemma ctr_of_clients_and_rotator_witness :
  let st := (__init__ [0] [Fixtures.creative_raw]).1 in
  ctr (dict_of st 0)
  = Some (Fin (float_mul (float_div (of_int 1) (of_int 3))
                         (float_of_int 100)))
  ∧ ∃ hundredths, Spec.ctr 3 1 = Fin (binary64 (Q2Qc (hundredths # 100))).
Proof.
  intros st.
  destruct (ctr_of_clients_and_rotator 3 1) as (_ & _ & _ & Hround & Hinit).
  split.
  - apply (Hinit [0] [Fixtures.creative_raw] st 0).
    + reflexivity.
    + apply list_elem_of_here.
    + reflexivity.
    + reflexivity.
  - destruct Hround as (rounded & hundredths & Heq & -> & _); [lia|].
    by exists hundredths.
Defined.

(** C7, as stated, fails in the platform clients: for a spend of 1.0 over
    3 clicks they compute the float 0.33, which is not the float
    [spend / clicks], 0.3333333333333333. *)
Lemma client_cpc_is_rounded :
  _calculate_cpc (of_int 1) 3 = Ok (Fin (binary64 (Q2Qc (33 # 100))))
  ∧ Spec.cpc_positive_clicks (of_int 1) 3
    = Fin (Q2Qc (6004799503160661 # 18014398509481984))
  ∧ _calculate_cpc (of_int 1) 3
    ≠ Ok (Spec.cpc_positive_clicks (of_int 1) 3).
Proof.
  split; [|split].
  - float_eq.
  - float_eq.
  - vm_compute. intros H. discriminate H.
Qed.

(** C7, amended: when [clicks == 0] the platform clients compute [0.0]
    whatever the spend, while the rotator, in its constructor and in
    [add_creative], stores [+infinity] for a creative that comes without
    [cpc]; when [clicks > 0] the rotator stores the float [spend / clicks]
    and the platform clients compute that float rounded to 2 decimal
    places. *)
Theorem cpc_of_clients_and_rotator spend clicks :
  let quotient := float_div spend (float_of_int clicks) in
  let backfill := if (clicks >? 0)%Z then Fin quotient else inf in
  (clicks = 0%Z →
   _calculate_cpc spend clicks = Ok (Fin 0%Qc) ∧ backfill = inf)
  ∧ ((clicks > 0)%Z →
     _calculate_cpc spend clicks = Ok (Fin (round quotient 2))
     ∧ backfill = Fin quotient)
  ∧ (∀ cs h st r,
       __init__ cs h = (st, Ok tt) → r ∈ cs →
       Py.spend (lookup_heap h r) = Some spend →
       Py.clicks (lookup_heap h r) = Some clicks →
       cpc (lookup_heap h r) = None →
       cpc (dict_of st r) = Some backfill)
  ∧ (∀ st r,
       has_required (dict_of st r) →
       Py.spend (dict_of st r) = Some spend →
       Py.clicks (dict_of st r) = Some clicks →
       cpc (dict_of st r) = None →
       ∃ st', add_creative r st = (st', Ok tt)
              ∧ cpc (dict_of st' r) = Some backfill).
Proof.
  intros quotient backfill. split; [|split; [|split]].
  - intros ->. by rewrite _calculate_cpc_total.
  - intros Hpos. rewrite _calculate_cpc_total. unfold backfill.
    rewrite (proj2 (Z.eqb_neq clicks 0)) by lia.
    by rewrite (proj2 (Z.gtb_lt clicks 0)) by lia.
  - intros cs h st r Hinit Hr Hspend Hclk Hcpc.
    rewrite (__init___metrics cs h st r Hinit Hr).
    unfold_backfilled.
    by rewrite Hspend, Hclk, Hcpc.
  - intros st r Hreq Hspend Hclk Hcpc.
    destruct (add_creative_accepts r st Hreq)
      as (st' & Hrun & _ & _ & _ & Hdict & _).
    exists st'. split; [done|]. rewrite Hdict.
    unfold_backfilled.
    by rewrite Hspend, Hclk, Hcpc.
Qed.

(** tests/test_rotator.py:167 *)
Lemma cpc_of_clients_and_rotator_witness :
  let st := (__init__ [0] [Fixtures.creative_no_clicks]).1 in
  _calculate_cpc (of_int 10) 0 = Ok (Fin 0%Qc)
  ∧ cpc (dict_of st 0) = Some inf.
Proof.
  intros st.
  destruct (cpc_of_clients_and_rotator (of_int 10) 0)
    as (Hzero & _ & Hinit & _).
  split.
  - by apply Hzero.
  - apply (Hinit [0] [Fixtures.creative_no_clicks] st 0).
    + reflexivity.
    + apply list_elem_of_here.
    + reflexivity.
    + reflexivity.
    + reflexivity.
Defined.

(** The last hundredth follows the floats, not the exact quotients: 23
    clicks over 160 impressions are 14.375 percent, and the float
    [23 / 160 * 100] is just below, so that the clients return 14.37; a
    spend of 1.0 over 40 clicks is the float just above 0.025, rounded to
    0.03; and 7 clicks over 100 impressions are stored by the rotator as
    7.000000000000001. *)
Example metrics_follow_the_floats :
  _calculate_ctr 160 23 = Ok (Fin (binary64 (Q2Qc (1437 # 100))))
  ∧ _calculate_cpc (of_int 1) 40 = Ok (Fin (binary64 (Q2Qc (3 # 100))))
  ∧ backfilled_ctr 100 7
    = Ok (Fin (Q2Qc (7881299347898369 # 1125899906842624))).
Proof.
  split; [|split]; float_eq.
Qed.

End MetricsClaims.

(* ====================================================================== *)
(** * Further properties of the aggregator *)
(* ====================================================================== *)

Section AggregatorOrder.

Import AdsAggregator.

Variables start_date end_date : date.

Lemma contribution_records (c : client) :
  contribution start_date end_date c =
  match fetch_campaigns c start_date end_date with
  | Ok campaigns =>
      map (λ campaign,
             formatted_campaign c campaign
               (ads_or_empty start_date end_date c campaign)) campaigns
  | Raise _ => []
  end.
Proof.
  unfold contribution. rewrite _fetch_client_data_spec.
  by destruct (fetch_campaigns c start_date end_date).
Qed.

(** X1: The parallel mode changes the order of the result only: the records
    are those of the sequential mode, and with fewer than two clients the
    result is the sequential one whatever the completion order. *)
Theorem aggregate_data_parallel_permutes self completed :
  Permutation completed (clients self) →
  ∃ sequential parallel,
    aggregate_data self start_date end_date false completed = Ok sequential
    ∧ aggregate_data self start_date end_date true completed = Ok parallel
    ∧ Permutation parallel sequential
    ∧ (length (clients self) ≤ 1 → parallel = sequential).
Proof.
  intros Hperm. eexists _, _. rewrite !aggregate_data_spec.
  split; [reflexivity|]. split; [reflexivity|]. split.
  - apply Permutation_flat_map.
    rewrite !(handling_order_perm self _ completed Hperm). done.
  - intros Hlen. unfold handling_order. simpl.
    by rewrite (proj2 (Nat.ltb_ge 1 (length (clients self)))) by lia.
Qed.

(** X2: Every record of the result comes from a campaign of one of the
    clients whose fetch succeeded: it carries that client's platform name,
    the identifier, the name and the counters of the campaign, and as ads
    what [fetch_ads] returned for the campaign, or none when that call
    failed.  Every such campaign has its record, and the result has one
    record per campaign. *)
Theorem aggregate_data_records self parallel completed :
  Permutation completed (clients self) →
  let from (c : client) (campaign : Campaign.t) (record : CampaignRecord.t) :=
    CampaignRecord.platform record = platform_name c
    ∧ CampaignRecord.campaign_id record = Campaign.campaign_id campaign
    ∧ CampaignRecord.name record = Campaign.name campaign
    ∧ CampaignRecord.impressions record = Campaign.impressions campaign
    ∧ CampaignRecord.clicks record = Campaign.clicks campaign
    ∧ CampaignRecord.spend record = Campaign.spend campaign
    ∧ CampaignRecord.ads record
      = match fetch_ads c (Campaign.campaign_id campaign) start_date
                end_date with
        | Ok ads => ads
        | Raise _ => []
        end in
  ∃ data,
    aggregate_data self start_date end_date parallel completed = Ok data
    ∧ (∀ record, record ∈ data →
         ∃ c campaigns campaign,
           c ∈ clients self
           ∧ fetch_campaigns c start_date end_date = Ok campaigns
           ∧ campaign ∈ campaigns
           ∧ from c campaign record)
    ∧ (∀ c campaigns campaign,
         c ∈ clients self →
         fetch_campaigns c start_date end_date = Ok campaigns →
         campaign ∈ campaigns →
         ∃ record, record ∈ data ∧ from c campaign record)
    ∧ length data =
      list_sum (map (λ c, match fetch_campaigns c start_date end_date with
                          | Ok campaigns => length campaigns
                          | Raise _ => 0
                          end) (clients self)).
Proof.
  intros Hperm from. eexists. rewrite aggregate_data_spec.
  split; [reflexivity|]. split; [|split].
  - intros record Hrecord.
    apply list_elem_of_In, in_flat_map in Hrecord as (c & Hc & Hrecord).
    apply list_elem_of_In in Hc, Hrecord.
    rewrite (handling_order_perm self parallel completed Hperm) in Hc.
    rewrite contribution_records in Hrecord.
    destruct (fetch_campaigns c start_date end_date) as [campaigns|e] eqn:Hf;
      [|by apply not_elem_of_nil in Hrecord].
    apply list_elem_of_fmap in Hrecord as (campaign & -> & Hcampaign).
    exists c, campaigns, campaign. by repeat split.
  - intros c campaigns campaign Hc Hf Hcampaign.
    exists (formatted_campaign c campaign
              (ads_or_empty start_date end_date c campaign)).
    split; [|by repeat split].
    apply list_elem_of_In, in_flat_map. exists c. split.
    + apply list_elem_of_In.
      by rewrite (handling_order_perm self parallel completed Hperm).
    + apply list_elem_of_In. rewrite contribution_records, Hf.
      apply list_elem_of_fmap. by exists campaign.
  - rewrite length_flat_map.
    rewrite (Permutation_list_sum
               (Permutation_map _
                  (handling_order_perm self parallel completed Hperm))).
    f_equal. apply map_ext. intros c. rewrite contribution_records.
    destruct (fetch_campaigns c start_date end_date); [|done].
    by rewrite length_map.
Qed.

End AggregatorOrder.

Section AggregatorOrderWitness.

Import AdsAggregator.

Lemma aggregate_data_parallel_permutes_witness :
  let p1 := Fixtures.MockAdsClient "platform1" false in
  let p2 := Fixtures.MockAdsClient "platform2" false in
  ∃ first second,
    aggregate_data (AdsAggregator.mk [p1; p2]) Fixtures.jan_1 Fixtures.jan_31
                   true [p2; p1] = Ok [second; first]
    ∧ aggregate_data (AdsAggregator.mk [p1; p2]) Fixtures.jan_1
                     Fixtures.jan_31 false [p2; p1] = Ok [first; second].
Proof.
  intros p1 p2.
  pose proof (aggregate_data_parallel_permutes Fixtures.jan_1 Fixtures.jan_31
                (AdsAggregator.mk [p1; p2]) [p2; p1] (perm_swap _ _ _))
    as (sequential & parallel & Hseq & Hpar & _).
  eexists _, _. split; reflexivity.
Defined.

(** tests/test_aggregator.py:78: two records, each with the counters of
    its campaign and the two ads of the mock client. *)
Lemma aggregate_data_records_witness :
  let p1 := Fixtures.MockAdsClient "platform1" false in
  let p2 := Fixtures.MockAdsClient "platform2" false in
  ∃ data,
    aggregate_data (AdsAggregator.mk [p1; p2]) Fixtures.jan_1 Fixtures.jan_31
                   false [p1; p2] = Ok data
    ∧ length data = 2
    ∧ ∀ record, record ∈ data →
        CampaignRecord.impressions record = 1000%Z
        ∧ CampaignRecord.clicks record = 50%Z
        ∧ length (CampaignRecord.ads record) = 2.
Proof.
  intros p1 p2.
  destruct (aggregate_data_records Fixtures.jan_1 Fixtures.jan_31
              (AdsAggregator.mk [p1; p2]) false [p1; p2])
    as (data & Hdata & Hrecords & _ & Hlen); [done|].
  exists data. split; [exact Hdata|]. split; [exact Hlen|].
  intros record Hrecord.
  destruct (Hrecords record Hrecord)
    as (c & campaigns & campaign & Hc & Hf & Hcampaign & Hfrom).
  destruct Hfrom as (_ & _ & _ & -> & -> & _ & ->).
  apply list_elem_of_In in Hc. simpl in Hc.
  destruct Hc as [<-|[<-|[]]]; simpl in Hf; injection Hf as <-;
    apply list_elem_of_In in Hcampaign; simpl in Hcampaign;
    destruct Hcampaign as [<-|[]]; repeat split.
Defined.

End AggregatorOrderWitness.

Section AggregatorFilters.

Import AdsAggregator.

(** X3: [filter_by_spend_threshold] keeps, in order, exactly the records
    whose spend reaches the threshold: none when the threshold is above every
    spend, all of them when it is not above any. *)
Theorem filter_by_spend_threshold_exact data min_spend :
  let kept := filter_by_spend_threshold data min_spend in
  sublist kept data
  ∧ (∀ record,
       record ∈ kept ↔
       record ∈ data ∧ (min_spend ≤ CampaignRecord.spend record)%Qc)
  ∧ (Forall (λ record, (CampaignRecord.spend record < min_spend)%Qc) data →
     kept = [])
  ∧ (Forall (λ record, (min_spend ≤ CampaignRecord.spend record)%Qc) data →
     kept = data).
Proof.
  intros kept. unfold kept, filter_by_spend_threshold.
  split; [apply sublist_filter|]. split; [|split].
  - intros record. rewrite list_elem_of_filter. tauto.
  - induction 1 as [|record l Hlt Hl IH]; [done|].
    rewrite filter_cons, decide_False; [done|].
    by apply Qclt_not_le.
  - induction 1 as [|record l Hle Hl IH]; [done|].
    by rewrite filter_cons, decide_True, IH.
Qed.

(** tests/test_aggregator.py:156 *)
Lemma filter_by_spend_threshold_exact_witness :
  let record :=
    CampaignRecord.mk "platform1" "platform1_camp_1" "platform1 Campaign 1"
                      1000 50 (of_int 25) [] in
  filter_by_spend_threshold [record; record] (of_int 20) = [record; record]
  ∧ filter_by_spend_threshold [record; record] (of_int 30) = [].
Proof.
  intros record.
  destruct (filter_by_spend_threshold_exact [record; record] (of_int 20))
    as (_ & _ & _ & Hall).
  destruct (filter_by_spend_threshold_exact [record; record] (of_int 30))
    as (_ & _ & Hnone & _).
  split.
  - apply Hall. by repeat constructor.
  - apply Hnone. by repeat constructor.
Defined.

(** X4: The filters compose: two thresholds amount to the greater one, the
    two kinds of filter commute, and filtering twice by platform gives the
    first result again or nothing. *)
Theorem filters_compose data platform other t1 t2 :
  filter_by_spend_threshold (filter_by_spend_threshold data t1) t2
  = filter_by_spend_threshold data (higher_threshold t1 t2)
  ∧ filter_by_platform (filter_by_spend_threshold data t1) platform
    = filter_by_spend_threshold (filter_by_platform data platform) t1
  ∧ filter_by_platform (filter_by_platform data platform) other
    = if bool_decide (platform = other) then filter_by_platform data platform
      else [].
Proof.
  unfold filter_by_spend_threshold, filter_by_platform, higher_threshold.
  rewrite !list_filter_filter. split; [|split].
  - apply list_filter_iff. intros record. case_bool_decide as Hle.
    + split; [tauto|]. intros H2. split; [done|].
      by apply Qcle_trans with t2.
    + apply Qcnot_le_lt in Hle. split; [tauto|]. intros H1. split; [|done].
      apply Qclt_le_weak. by apply Qclt_le_trans with t1.
  - apply list_filter_iff. intros record. tauto.
  - case_bool_decide as Heq.
    + apply list_filter_iff. intros record. split; [tauto|].
      intros Hp. split; congruence.
    + induction data as [|record l IH]; [done|].
      rewrite filter_cons, decide_False; [done|].
      intros [H1 H2]. congruence.
Qed.

End AggregatorFilters.

Section SummaryStatistics.

Import AdsAggregator.

Lemma sum_impressions_snoc data record :
  sum_impressions (data ++ [record])
  = (sum_impressions data + CampaignRecord.impressions record)%Z.
Proof.
  unfold sum_impressions. induction data as [|x l IH]; simpl; [lia|].
  rewrite IH. lia.
Qed.

Lemma sum_clicks_snoc data record :
  sum_clicks (data ++ [record])
  = (sum_clicks data + CampaignRecord.clicks record)%Z.
Proof.
  unfold sum_clicks. induction data as [|x l IH]; simpl; [lia|].
  rewrite IH. lia.
Qed.

Lemma sum_spend_snoc data record :
  sum_spend (data ++ [record])
  = float_add (sum_spend data) (CampaignRecord.spend record).
Proof. unfold sum_spend. by rewrite foldl_app. Qed.

Lemma count_ads_snoc data record :
  count_ads (data ++ [record])
  = count_ads data + length (CampaignRecord.ads record).
Proof.
  unfold count_ads. induction data as [|x l IH]; simpl; [lia|].
  rewrite IH. lia.
Qed.

Lemma filter_by_platform_snoc data record platform :
  filter_by_platform (data ++ [record]) platform
  = filter_by_platform data platform
    ++ (if bool_decide (CampaignRecord.platform record = platform)
        then [record] else []).
Proof.
  unfold filter_by_platform. rewrite filter_app. f_equal.
  rewrite filter_cons, filter_nil. case_bool_decide.
  - by rewrite decide_True.
  - by rewrite decide_False.
Qed.

(** The invariant of the loop of aggregator.py:169: the totals are the
    sums so far, and each platform seen so far has the sums of its own
    records. *)
Lemma summary_loop data :
  let acc := foldl summary_step (∅, Totals.mk 0 0 0%Qc) data in
  acc.2 = Totals.mk (sum_impressions data) (sum_clicks data) (sum_spend data)
  ∧ ∀ platform,
      acc.1 !! platform =
      match filter_by_platform data platform with
      | [] => None
      | _ :: _ => Some (platform_sums (filter_by_platform data platform))
      end.
Proof.
  induction data as [|record data IH] using rev_ind.
  { split; [done|]. intros platform. apply lookup_empty. }
  cbv zeta in *. rewrite foldl_app.
  destruct (foldl summary_step (∅, Totals.mk 0 0 0%Qc) data)
    as [breakdown totals].
  destruct IH as [Htotals Hbreakdown]. cbn [fst snd foldl] in *.
  subst totals. unfold summary_step. cbn [fst snd]. split.
  - cbn [Totals.impressions Totals.clicks Totals.spend].
    by rewrite sum_impressions_snoc, sum_clicks_snoc, sum_spend_snoc.
  - intros platform. rewrite filter_by_platform_snoc.
    set (own := CampaignRecord.platform record).
    assert (∀ b : gmap string PlatformStats.t,
              match b !! own with
              | None => <[own := PlatformStats.mk 0 0 0 0 0%Qc]> b
              | Some _ => b
              end !! own
              = Some (default (PlatformStats.mk 0 0 0 0 0%Qc) (b !! own)))
      as Hentry.
    { intros b. destruct (b !! own) as [entry|] eqn:Hb; [done|].
      by rewrite lookup_insert_eq. }
    rewrite Hentry. cbn [default].
    case_bool_decide as Hown.
    + subst platform. rewrite lookup_insert_eq, Hbreakdown.
      set (records := filter_by_platform data own).
      assert (default (PlatformStats.mk 0 0 0 0 0%Qc)
                match records with
                | [] => None
                | _ :: _ => Some (platform_sums records)
                end
              = platform_sums records) as ->
        by (by destruct records).
      destruct (records ++ [record]) as [|r rs] eqn:Happ.
      { by apply app_eq_nil in Happ as [_ ?]. }
      rewrite <- Happ. unfold platform_sums.
      cbn [PlatformStats.campaigns PlatformStats.ads PlatformStats.impressions
           PlatformStats.clicks PlatformStats.spend].
      by rewrite length_app, count_ads_snoc, sum_impressions_snoc,
        sum_clicks_snoc, sum_spend_snoc.
    + rewrite lookup_insert_ne by done. rewrite app_nil_r.
      destruct (breakdown !! own) eqn:Hb.
      * apply Hbreakdown.
      * rewrite lookup_insert_ne by done. apply Hbreakdown.
Qed.

Lemma total_ads_count data :
  foldl (λ s campaign, s + length (CampaignRecord.ads campaign)) 0 data
  = count_ads data.
Proof.
  induction data as [|record l IH] using rev_ind; [done|].
  by rewrite foldl_app, count_ads_snoc, <- IH.
Qed.

Lemma platform_breakdown_is_Some data platform :
  is_Some (SummaryStats.platform_breakdown (get_summary_stats data)
           !! platform)
  ↔ filter_by_platform data platform ≠ [].
Proof.
  unfold get_summary_stats.
  pose proof (summary_loop data) as [_ Hbreakdown]. simpl in Hbreakdown.
  destruct (foldl summary_step (∅, Totals.mk 0 0 0%Qc) data)
    as [breakdown totals]. simpl in *.
  rewrite lookup_fmap, Hbreakdown.
  destruct (filter_by_platform data platform); simpl.
  - split; [by intros [? ?]|done].
  - split; [done|by eexists].
Qed.

(** X5: [get_summary_stats] reports, for each platform, the statistics of
    the records [filter_by_platform] selects for it, and has no entry for a
    platform without records; the spend of an entry is the sum of the
    spends of these records, added as floats in their order, rounded to 2
    decimal places at the end. *)
Theorem get_summary_stats_by_platform data platform :
  SummaryStats.platform_breakdown (get_summary_stats data) !! platform =
  match filter_by_platform data platform with
  | [] => None
  | records => Some (platform_stats records)
  end.
Proof.
  unfold get_summary_stats.
  pose proof (summary_loop data) as [_ Hbreakdown]. simpl in Hbreakdown.
  destruct (foldl summary_step (∅, Totals.mk 0 0 0%Qc) data)
    as [breakdown totals]. simpl in *.
  rewrite lookup_fmap, Hbreakdown.
  by destruct (filter_by_platform data platform).
Qed.

(** The floats 0.1 and 0.025 add up to the float 0.125, which is rounded
    to 0.12. *)
Lemma get_summary_stats_by_platform_witness :
  SummaryStats.platform_breakdown (get_summary_stats Fixtures.small_campaigns)
    !! "google"%string
  = Some (PlatformStats.mk 2 0 200 20 (binary64 (Q2Qc (12 # 100)))).
Proof.
  rewrite get_summary_stats_by_platform. vm_compute.
  first [ reflexivity | do 2 f_equal; apply Qc_is_canon; reflexivity ].
Defined.

(** X6: The totals of [get_summary_stats] are the sums of the impressions
    and of the clicks over all the records, and the sum of their spends,
    added as floats in their order and rounded to 2 decimal places at the
    end; the campaigns and the ads are counted; the number of platforms is
    the number of entries of the breakdown, and a platform has an entry
    when one of the records carries its name, and only then. *)
Theorem get_summary_stats_totals data :
  let stats := get_summary_stats data in
  SummaryStats.totals stats
  = Totals.mk (sum_impressions data) (sum_clicks data)
              (round (sum_spend data) 2)
  ∧ SummaryStats.total_campaigns stats = length data
  ∧ SummaryStats.total_ads stats = count_ads data
  ∧ SummaryStats.total_platforms stats
    = size (SummaryStats.platform_breakdown stats)
  ∧ (∀ platform,
       is_Some (SummaryStats.platform_breakdown stats !! platform) ↔
       ∃ record, record ∈ data ∧ CampaignRecord.platform record = platform).
Proof.
  intros stats.
  assert (∀ platform,
            is_Some (SummaryStats.platform_breakdown stats !! platform) ↔
            ∃ record,
              record ∈ data ∧ CampaignRecord.platform record = platform)
    as Hdom.
  { intros platform. unfold stats.
    rewrite platform_breakdown_is_Some.
    destruct (filter_by_platform data platform) as [|r rs] eqn:Hfp.
    - split; [done|]. intros (record & Hin & Hp). exfalso.
      assert (record ∈ filter_by_platform data platform) as Hrec
        by (by apply list_elem_of_filter).
      rewrite Hfp in Hrec. by apply not_elem_of_nil in Hrec.
    - split; [|done]. intros _. exists r.
      assert (r ∈ filter_by_platform data platform) as Hrec
        by (rewrite Hfp; left).
      apply list_elem_of_filter in Hrec as [? ?]. done. }
  split; [|split; [|split; [|split; [|exact Hdom]]]].
  - unfold stats, get_summary_stats.
    pose proof (summary_loop data) as [Htotals _]. cbv zeta in Htotals.
    destruct (foldl summary_step (∅, Totals.mk 0 0 0%Qc) data)
      as [breakdown totals]. simpl in *. by subst totals.
  - unfold stats, get_summary_stats.
    by destruct (foldl summary_step (∅, Totals.mk 0 0 0%Qc) data).
  - unfold stats, get_summary_stats.
    destruct (foldl summary_step (∅, Totals.mk 0 0 0%Qc) data). simpl.
    apply total_ads_count.
  - assert (SummaryStats.total_platforms stats
            = size (list_to_set (map CampaignRecord.platform data)
                    : gset string)) as ->.
    { unfold stats, get_summary_stats.
      by destruct (foldl summary_step (∅, Totals.mk 0 0 0%Qc) data). }
    rewrite <- size_dom. f_equal. apply set_eq. intros platform.
    rewrite elem_of_list_to_set, elem_of_dom, Hdom, list_elem_of_fmap.
    split; intros (record & H1 & H2); exists record; done.
Qed.

(** The same two campaigns: a total spend of 0.12. *)
Lemma get_summary_stats_totals_witness :
  SummaryStats.totals (get_summary_stats Fixtures.small_campaigns)
  = Totals.mk 200 20 (binary64 (Q2Qc (12 # 100)))
  ∧ (Q2Qc (1 # 8) < Fixtures.spend_tenth + Fixtures.spend_fortieth)%Qc.
Proof.
  destruct (get_summary_stats_totals Fixtures.small_campaigns)
    as [Htotals _].
  split.
  - rewrite Htotals. vm_compute.
    first [ reflexivity | f_equal; apply Qc_is_canon; reflexivity ].
  - by vm_compute.
Defined.

End SummaryStatistics.

(* ====================================================================== *)
(** * Further properties of the platform clients *)
(* ====================================================================== *)

Section ClientMetrics.

(** Rounding to 2 decimal places keeps a value between 0 and 100 there. *)
Lemma round_2_percentage (x : Qc) :
  (0 ≤ x)%Qc → (x ≤ Q2Qc 100)%Qc →
  (0 ≤ round x 2)%Qc ∧ (round x 2 ≤ Q2Qc 100)%Qc.
Proof.
  intros Hlo Hhi. unfold round.
  change (inject_Z (10 ^ Z.of_nat 2)) with (100 # 1)%Q.
  set (decimal := Q2Qc (inject_Z (round_half_even (x * (100 # 1))) / (100 # 1))).
  assert (0 ≤ decimal ∧ decimal ≤ Q2Qc 100)%Qc as [Hd0 Hd1].
  { unfold decimal. revert Hlo Hhi. unfold Qcle. simpl.
    rewrite !Qred_correct. intros Hlo Hhi.
    pose proof (round_half_even_near (x * (100 # 1))) as [Hnlo Hnhi].
    set (n := round_half_even (x * (100 # 1))) in *. clearbody n.
    assert (0 <= n <= 10000)%Z as [Hn0 Hn1].
    { assert (-(1 # 2) <= inject_Z n)%Q as H0 by lra.
      assert (inject_Z n <= (20001 # 2))%Q as H1 by lra.
      unfold Qle in H0, H1. simpl in H0, H1. lia. }
    unfold Qdiv.
    change (/ (100 # 1))%Q with (1 # 100)%Q.
    assert (0 <= inject_Z n)%Q as H0 by (unfold Qle; simpl; lia).
    assert (inject_Z n <= 10000 # 1)%Q as H1 by (unfold Qle; simpl; lia).
    split; lra. }
  apply binary64_mono in Hd0, Hd1.
  by rewrite binary64_0 in Hd0; rewrite binary64_100 in Hd1.
Qed.

(** X7: With no more clicks than impressions, the click-through rate the
    platform clients compute is a percentage: between 0 and 100. *)
Theorem _calculate_ctr_is_a_percentage impressions clicks :
  (0 ≤ clicks ≤ impressions)%Z →
  ∃ q, _calculate_ctr impressions clicks = Ok (Fin q)
       ∧ (0 ≤ q)%Qc ∧ (q ≤ Q2Qc 100)%Qc.
Proof.
  intros [Hc Hi]. unfold _calculate_ctr.
  destruct (impressions =? 0)%Z eqn:Hzero.
  { exists 0%Qc. split; [done|]. split; [done|]. by vm_compute. }
  apply Z.eqb_neq in Hzero. rewrite truediv_nonzero by done.
  eexists. split; [reflexivity|].
  assert (0 ≤ float_div (of_int clicks) (of_int impressions)
          ∧ float_div (of_int clicks) (of_int impressions) ≤ 1)%Qc
    as [Hq0 Hq1].
  { rewrite <- binary64_0, <- binary64_1. unfold float_div.
    split; apply binary64_mono; unfold Qcle, of_int; simpl;
      rewrite !Qred_correct.
    - apply Qmult_le_0_compat; [unfold Qle; simpl; lia|].
      apply Qinv_le_0_compat. unfold Qle. simpl. lia.
    - apply Qle_shift_div_r; [unfold Qlt; simpl; lia|].
      unfold Qle. simpl. lia. }
  set (q := float_div (of_int clicks) (of_int impressions)) in *.
  clearbody q. apply round_2_percentage.
  - rewrite <- binary64_0. unfold float_mul.
    rewrite float_of_int_100. apply binary64_mono.
    revert Hq0. unfold Qcle. simpl. rewrite !Qred_correct.
    generalize (this q). intros x Hx. lra.
  - rewrite float_of_int_100. rewrite <- binary64_100 at 2.
    unfold float_mul. apply binary64_mono.
    revert Hq1. unfold Qcle. simpl. rewrite !Qred_correct.
    generalize (this q). intros x Hx. lra.
Qed.

(** tests: [ctr(1000, 50) == 5.0] *)
Lemma _calculate_ctr_is_a_percentage_witness :
  ∃ q, _calculate_ctr 1000 50 = Ok (Fin q) ∧ (q ≤ Q2Qc 100)%Qc.
Proof.
  destruct (_calculate_ctr_is_a_percentage 1000 50) as (q & Hq & _ & Hle);
    [lia|].
  by exists q.
Defined.

End ClientMetrics.

Section ClientErrors.

Import AdsAggregator.

Variables (name : string) (today : date).
Variable api_campaigns : date → date → result (list Campaign.t).
Variable api_ads : string → date → date → result (list dict).

Local Abbreviation c := (platform_client name today api_campaigns api_ads).

Lemma _validate_date_range_cases start_date end_date :
  _validate_date_range today start_date end_date =
  if bool_decide (start_date > end_date)%Z
  then Raise (ValueError StartAfterEnd)
  else if bool_decide (start_date > today)%Z
       then Raise (ValueError StartInFuture)
       else Ok tt.
Proof.
  unfold _validate_date_range.
  repeat case_bool_decide;
    repeat match goal with
           | |- context [(?a >? ?b)%Z] =>
               destruct (Z.gtb_spec a b); try lia
           end; done.
Qed.

(** X8: What a platform client lets out.  A malformed range makes both
    methods raise the [ValueError] of the validation, whatever the request
    would give, the order of the dates being checked first.  Otherwise a
    successful request is returned as it is; of the errors of a request,
    [fetch_campaigns] lets authentication and rate-limit errors through
    and [fetch_ads] authentication errors only, every other error
    becoming [DataNotFoundError]. *)
Theorem platform_client_errors start_date end_date campaign_id :
  let wrapped_campaigns e :=
    if is_AuthenticationError e || is_RateLimitError e then e
    else DataNotFoundError in
  let wrapped_ads e :=
    if is_AuthenticationError e then e else DataNotFoundError in
  (malformed_range start_date end_date today →
   let e := ValueError (if bool_decide (start_date > end_date)%Z
                        then StartAfterEnd else StartInFuture) in
   fetch_campaigns c start_date end_date = Raise e
   ∧ fetch_ads c campaign_id start_date end_date = Raise e)
  ∧ (¬ malformed_range start_date end_date today →
     fetch_campaigns c start_date end_date
     = match api_campaigns start_date end_date with
       | Ok campaigns => Ok campaigns
       | Raise e => Raise (wrapped_campaigns e)
       end
     ∧ fetch_ads c campaign_id start_date end_date
       = match api_ads campaign_id start_date end_date with
         | Ok ads => Ok ads
         | Raise e => Raise (wrapped_ads e)
         end)
  ∧ fetch_ads c campaign_id start_date end_date ≠ Raise RateLimitError.
Proof.
  intros wrapped_campaigns wrapped_ads. simpl.
  rewrite _validate_date_range_cases. unfold malformed_range.
  split; [|split].
  - intros Hbad. case_bool_decide; [done|].
    rewrite bool_decide_eq_true_2 by lia. done.
  - intros Hgood. rewrite !bool_decide_eq_false_2 by lia. simpl.
    split.
    + destruct (api_campaigns start_date end_date) as [data|e]; [done|].
      simpl. unfold wrapped_campaigns.
      by destruct (is_AuthenticationError e || is_RateLimitError e).
    + destruct (api_ads campaign_id start_date end_date) as [ads|e]; [done|].
      simpl. unfold wrapped_ads. by destruct (is_AuthenticationError e).
  - repeat case_bool_decide; simpl; try done.
    destruct (api_ads campaign_id start_date end_date) as [ads|e]; [done|].
    simpl. by destruct e.
Qed.

End ClientErrors.

Section ClientErrorsWitness.

Import AdsAggregator.

Lemma platform_client_errors_witness :
  fetch_campaigns Fixtures.google_client Fixtures.jan_31 Fixtures.jan_1
  = Raise (ValueError StartAfterEnd)
  ∧ ∃ campaigns,
      fetch_campaigns Fixtures.google_client Fixtures.jan_1 Fixtures.jan_31
      = Ok campaigns.
Proof.
  pose (api_campaigns := λ _ _ : date,
          Ok [Campaign.mk "google_campaign_1" "Google Campaign 1"
                          1500 75 (of_int 50)]).
  pose (api_ads := λ (_ : string) (_ _ : date), Ok (@nil dict)).
  destruct (platform_client_errors "google" 738600%Z api_campaigns api_ads
              Fixtures.jan_31 Fixtures.jan_1 "") as (Hbad & _ & _).
  destruct (platform_client_errors "google" 738600%Z api_campaigns api_ads
              Fixtures.jan_1 Fixtures.jan_31 "") as (_ & Hgood & _).
  split.
  - destruct Hbad as [Hraise _]; [|exact Hraise].
    left. unfold Fixtures.jan_31, Fixtures.jan_1. lia.
  - destruct Hgood as [Hok _]; [|eexists; exact Hok].
    unfold malformed_range, Fixtures.jan_31, Fixtures.jan_1. lia.
Defined.

End ClientErrorsWitness.

(* ====================================================================== *)
(** * Further properties of the rotator: construction *)
(* ====================================================================== *)

Section ConstructorProperties.

Import CreativeRotator.

Lemma for_each_raise_inv {A} (l : list A) (body : A → M unit) st e :
  (∀ x, readonly (body x)) →
  (for_each l body st).2 = Raise e →
  ∃ x, x ∈ l ∧ (body x st).2 = Raise e.
Proof.
  intros Hbody. induction l as [|x l IH]; [done|].
  simpl. rewrite bind_readonly by done.
  destruct (body x st).2 as [[]|e'] eqn:Hx.
  - intros Hrest. destruct (IH Hrest) as (y & Hy & Hraise).
    exists y. split; [by right|done].
  - intros [= ->]. exists x. split; [by left|done].
Qed.

Lemma check_required_fields_raise r st e :
  (check_required_fields r st).2 = Raise e →
  ∃ field,
    field ∈ required_fields
    ∧ contains (dict_of st r) field = false
    ∧ e = ValueError (MissingField field).
Proof.
  unfold check_required_fields. rewrite bind_readonly by done.
  change (deref r st).2 with (Ok (dict_of st r)). cbv beta iota.
  intros Hraise. apply for_each_raise_inv in Hraise as (field & Hin & Hf).
  - exists field. split; [done|].
    destruct (contains (dict_of st r) field); [done|].
    split; [done|]. by injection Hf as <-.
  - intros field. by destruct (contains (dict_of st r) field).
Qed.

(** X9: A constructor that raises has changed nothing: the error is the one
    for an empty list, or names a required key that one of the creatives
    lacks, and no dictionary has been touched, not even those of the
    creatives that come before the faulty one. *)
Theorem __init___raises_before_any_change cs h e :
  (__init__ cs h).2 = Raise e →
  heap (__init__ cs h).1 = h
  ∧ ((cs = [] ∧ e = ValueError EmptyCreatives)
     ∨ ∃ r field,
         r ∈ cs ∧ field ∈ required_fields
         ∧ contains (lookup_heap h r) field = false
         ∧ e = ValueError (MissingField field)).
Proof.
  unfold __init__.
  rewrite bind_readonly by apply readonly__validate_creatives.
  destruct (_validate_creatives (mkState h cs 0)).2 as [[]|e'] eqn:Hval.
  - apply _validate_creatives_iff in Hval as [_ Hreq].
    destruct (ensure_metrics_loop cs (mkState h cs 0) Hreq) as (st & Hrun & _).
    unfold _ensure_metrics. rewrite bind_readonly by done. simpl.
    by rewrite Hrun.
  - simpl. intros [= ->]. split; [done|].
    unfold _validate_creatives in Hval.
    rewrite bind_readonly in Hval by done. simpl in Hval.
    destruct cs as [|r0 l]; [left; split; [done|]; by injection Hval|].
    right. apply for_each_raise_inv in Hval as (r & Hr & Hraise);
      [|apply readonly_check_required_fields].
    apply check_required_fields_raise in Hraise as (field & Hin & Hf & ->).
    by exists r, field.
Qed.

(** tests/test_rotator.py:51 *)
Lemma __init___raises_before_any_change_witness :
  let h := [Fixtures.creative_raw; Fixtures.creative_incomplete] in
  (__init__ [0; 1] h).2 = Raise (ValueError (MissingField "impressions"))
  ∧ heap (__init__ [0; 1] h).1 = h.
Proof.
  intros h. split; [reflexivity|].
  apply (__init___raises_before_any_change [0; 1] h
           (ValueError (MissingField "impressions"))).
  reflexivity.
Defined.

(** X10: A successful constructor only adds the missing [ctr] and [cpc] to
    the dictionaries of its creatives: it creates and removes no dictionary,
    keeps the five required keys and every supplied [ctr] and [cpc], and
    leaves alone the dictionaries that are not in its list and those that
    are already complete. *)
Theorem __init___only_adds_metrics cs h st :
  __init__ cs h = (st, Ok tt) →
  length (heap st) = length h
  ∧ ∀ r,
      same_raw_fields (dict_of st r) (lookup_heap h r)
      ∧ (∀ v, ctr (lookup_heap h r) = Some v → ctr (dict_of st r) = Some v)
      ∧ (∀ v, cpc (lookup_heap h r) = Some v → cpc (dict_of st r) = Some v)
      ∧ (r ∉ cs → dict_of st r = lookup_heap h r)
      ∧ (complete (lookup_heap h r) → dict_of st r = lookup_heap h r).
Proof.
  intros Hinit.
  apply __init___inv in Hinit as (_ & _ & _ & _ & Hlen & Hdict).
  split; [done|]. intros r. rewrite Hdict.
  case_bool_decide as Hr.
  - split; [done|]. split; [by intros v Hv; simpl; rewrite Hv|].
    split; [by intros v Hv; simpl; rewrite Hv|].
    split; [done|]. apply backfilled_complete.
  - by repeat split.
Qed.

(** tests/test_rotator.py:58 *)
Lemma __init___only_adds_metrics_witness :
  let st := (__init__ [0] [Fixtures.creative_raw; Fixtures.creative_A]).1 in
  same_raw_fields (dict_of st 0) Fixtures.creative_raw
  ∧ dict_of st 1 = Fixtures.creative_A.
Proof.
  intros st.
  destruct (__init___only_adds_metrics [0]
              [Fixtures.creative_raw; Fixtures.creative_A] st)
    as [_ Hdicts]; [reflexivity|].
  split.
  - by destruct (Hdicts 0) as (Hraw & _).
  - destruct (Hdicts 1) as (_ & _ & _ & Hout & _). apply Hout.
    by intros [=]%list_elem_of_singleton.
Defined.

(** X11: The ads the platform clients build are complete dictionaries, and a
    rotator built over such dictionaries leaves them as they are: the
    [cpc] of 0.0 that the clients give to an ad without clicks is not
    replaced by the [+infinity] of the rotator. *)
Theorem rotator_keeps_the_metrics_of_the_clients cs h :
  cs ≠ [] →
  Forall (λ r, ∃ id name impressions clicks spend,
            format_ad id name impressions clicks spend
            = Ok (lookup_heap h r)) cs →
  ∃ st, __init__ cs h = (st, Ok tt) ∧ ∀ r, dict_of st r = lookup_heap h r.
Proof.
  intros Hne Hads.
  assert (Forall (λ r, complete (lookup_heap h r)) cs) as Hcomplete.
  { eapply list.Forall_impl; [exact Hads|].
    intros r (id & name & i & c & s & Hf). unfold format_ad in Hf.
    rewrite _calculate_ctr_spec, _calculate_cpc_total in Hf.
    simpl in Hf. injection Hf as <-. repeat split; by eexists. }
  destruct (__init___ok cs h Hne) as [st Hinit].
  { eapply list.Forall_impl; [exact Hcomplete|].
    intros r. apply complete_has_required. }
  exists st. split; [done|]. intros r.
  apply __init___inv in Hinit as (_ & _ & _ & _ & _ & Hdict).
  rewrite Hdict. case_bool_decide as Hr; [|done].
  apply backfilled_complete.
  rewrite list.Forall_forall in Hcomplete. by apply Hcomplete.
Qed.

Lemma rotator_keeps_the_metrics_of_the_clients_witness :
  ∃ st,
    __init__ [0] [Fixtures.client_ad] = (st, Ok tt)
    ∧ cpc (dict_of st 0) = Some (Fin 0%Qc).
Proof.
  destruct (rotator_keeps_the_metrics_of_the_clients [0] [Fixtures.client_ad])
    as (st & Hinit & Hdict); [done| |].
  - apply Forall_singleton.
    exists "google_campaign_1_ad_1"%string, "Google Ad 1"%string,
           400%Z, 0%Z, (of_int 10).
    vm_compute. reflexivity.
  - exists st. split; [done|]. rewrite Hdict. reflexivity.
Defined.

End ConstructorProperties.

(* ====================================================================== *)
(** * Further properties of the rotator: choosing *)
(* ====================================================================== *)

Section ChooseNextProperties.

Import CreativeRotator.

Lemma comprehension_subset {A} (cond : A → M bool) l st kept :
  (∀ x, readonly (cond x)) →
  (comprehension cond l st).2 = Ok kept →
  ∀ x, x ∈ kept → x ∈ l.
Proof.
  intros Hcond. revert kept. induction l as [|y l IH]; intros kept.
  { intros [= <-] x Hx. done. }
  simpl. rewrite bind_readonly by done.
  destruct (cond y st).2 as [b|e]; [|done].
  rewrite bind_readonly by (by apply readonly_comprehension).
  destruct (comprehension cond l st).2 as [rest|e]; [|done].
  intros [= <-] x Hx. destruct b.
  - apply elem_of_cons in Hx as [->|Hx]; [by left|].
    right. by apply (IH rest).
  - right. by apply (IH rest).
Qed.

Lemma extremum_loop_elem better key items best bestval st chosen :
  (∀ x, readonly (key x)) →
  (extremum_loop better key items best bestval st).2 = Ok chosen →
  chosen = best ∨ chosen ∈ items.
Proof.
  intros Hkey. revert best bestval.
  induction items as [|item rest IH]; intros best bestval.
  { intros [= <-]. by left. }
  simpl. rewrite bind_readonly by done.
  destruct (key item st).2 as [val|e]; [|done].
  destruct (better val bestval); intros Hrun;
    destruct (IH _ _ Hrun) as [->|Hin]; auto using list_elem_of_here,
      list_elem_of_further.
Qed.

Lemma extremum_elem better items key st chosen :
  (∀ x, readonly (key x)) →
  (extremum better items key st).2 = Ok chosen → chosen ∈ items.
Proof.
  intros Hkey. destruct items as [|item rest]; [done|].
  simpl. rewrite bind_readonly by done.
  destruct (key item st).2 as [val|e]; [|done].
  intros Hrun.
  destruct (extremum_loop_elem _ _ _ _ _ _ _ Hkey Hrun) as [->|Hin].
  - by left.
  - by right.
Qed.

Lemma RotationStrategy_of_round_robin strategy :
  RotationStrategy_of strategy = Ok ROUND_ROBIN ↔
  strategy = "round_robin"%string.
Proof.
  unfold RotationStrategy_of.
  destruct (String.eqb_spec strategy "round_robin") as [->|Hne].
  - done.
  - split; [|done].
    by repeat match goal with
              | |- context [String.eqb ?a ?b] => destruct (String.eqb a b)
              end.
Qed.

(** The fallbacks and the two metric strategies end with the copy of a
    creative that a statement which only reads has selected. *)
Lemma select_then_copy (select : M nat) (candidates : list nat) st :
  readonly select →
  (∀ c, (select st).2 = Ok c → c ∈ candidates) →
  (∃ e, (c ← select; copy c) st = (st, Raise e))
  ∨ (∃ c, c ∈ candidates
          ∧ (c ← select; copy c) st
            = (with_copy st c, Ok (length (heap st)))).
Proof.
  intros Hread Hin. rewrite bind_readonly by done.
  destruct (select st).2 as [c|e]; [right|left; by exists e].
  exists c. split; [by apply Hin|done].
Qed.

(** X12: Whatever the state, the strategy and the draw, [choose_next] either
    raises and leaves the state exactly as it was, or returns a new
    dictionary with the items of one creative of the collection; it never
    changes the collection or an existing dictionary, and moves the
    cursor under [round_robin] only. *)
Theorem choose_next_raises_or_copies strategy rnd st :
  (∃ e, choose_next strategy rnd st = (st, Raise e))
  ∨ (∃ c i,
       c ∈ creatives st
       ∧ choose_next strategy rnd st
         = (mkState (heap st ++ [dict_of st c]) (creatives st) i,
            Ok (length (heap st)))
       ∧ i = if String.eqb strategy "round_robin"
             then (_round_robin_index st + 1) mod length (creatives st)
             else _round_robin_index st).
Proof.
  unfold choose_next. rewrite bind_readonly by done. simpl.
  destruct (creatives st) as [|r0 l] eqn:Hcs; [left; by eexists|].
  rewrite <- Hcs. rewrite bind_readonly by done. simpl.
  pose proof (RotationStrategy_of_round_robin strategy) as Hrr.
  destruct (RotationStrategy_of strategy) as [[| |]|e]; simpl;
    [| | |left; by eexists].
  - (* ROUND_ROBIN *)
    rewrite (proj1 Hrr eq_refl). simpl.
    unfold _round_robin_choice.
    do 3 (rewrite bind_readonly by done; simpl).
    unfold list_getitem.
    destruct (creatives st !! _round_robin_index st) as [c|] eqn:Hc;
      [right|left; by eexists].
    exists c, ((_round_robin_index st + 1) mod length (creatives st)).
    split; [by apply list_elem_of_lookup_2 with (_round_robin_index st)|].
    done.
  - (* BEST_CTR *)
    assert (String.eqb strategy "round_robin" = false) as ->.
    { apply String.eqb_neq. intros Heq. by apply Hrr in Heq. }
    unfold _best_ctr_choice. rewrite bind_readonly by done. simpl.
    set (cond := λ c : nat,
           impressions ← getfield Py.impressions "impressions" c;
           mret (impressions >? 0)%Z).
    assert (readonly (comprehension cond (creatives st))) as Hcomp
      by (apply readonly_comprehension; intros c; by apply readonly_bind).
    rewrite bind_readonly by done.
    destruct (comprehension cond (creatives st) st).2 as [valid|e] eqn:Hvalid;
      [|left; by eexists].
    assert (∀ c, c ∈ valid → c ∈ creatives st) as Hsub.
    { apply (comprehension_subset cond (creatives st) st); [|done].
      intros c. by apply readonly_bind. }
    destruct valid as [|v valid].
    + destruct (select_then_copy (lift (random_choice rnd (creatives st)))
                  (creatives st) st) as [?|(c & Hc & Hrun)]; [done| |by left|].
      * intros c Hc. simpl in Hc. unfold random_choice, list_getitem in Hc.
        destruct (creatives st !! _) eqn:Hl; [|done]. injection Hc as ->.
        by eapply list_elem_of_lookup_2.
      * right. by exists c, (_round_robin_index st).
    + destruct (select_then_copy
                  (py_max (v :: valid) (getfield Py.ctr "ctr"))
                  (creatives st) st) as [?|(c & Hc & Hrun)]; [| |by left|].
      * apply readonly_extremum. intros x. apply readonly_getfield.
      * intros c Hc. apply Hsub.
        eapply extremum_elem; [|exact Hc].
        intros x. apply readonly_getfield.
      * right. by exists c, (_round_robin_index st).
  - (* LOWEST_CPC *)
    assert (String.eqb strategy "round_robin" = false) as ->.
    { apply String.eqb_neq. intros Heq. by apply Hrr in Heq. }
    unfold _lowest_cpc_choice. rewrite bind_readonly by done. simpl.
    set (cond := λ c : nat,
           clicks ← getfield Py.clicks "clicks" c;
           mret (clicks >? 0)%Z).
    assert (readonly (comprehension cond (creatives st))) as Hcomp
      by (apply readonly_comprehension; intros c; by apply readonly_bind).
    rewrite bind_readonly by done.
    destruct (comprehension cond (creatives st) st).2 as [valid|e] eqn:Hvalid;
      [|left; by eexists].
    assert (∀ c, c ∈ valid → c ∈ creatives st) as Hsub.
    { apply (comprehension_subset cond (creatives st) st); [|done].
      intros c. by apply readonly_bind. }
    destruct valid as [|v valid].
    + destruct (select_then_copy (lift (random_choice rnd (creatives st)))
                  (creatives st) st) as [?|(c & Hc & Hrun)]; [done| |by left|].
      * intros c Hc. simpl in Hc. unfold random_choice, list_getitem in Hc.
        destruct (creatives st !! _) eqn:Hl; [|done]. injection Hc as ->.
        by eapply list_elem_of_lookup_2.
      * right. by exists c, (_round_robin_index st).
    + destruct (select_then_copy
                  (py_min (v :: valid) (getfield Py.cpc "cpc"))
                  (creatives st) st) as [?|(c & Hc & Hrun)]; [| |by left|].
      * apply readonly_extremum. intros x. apply readonly_getfield.
      * intros c Hc. apply Hsub.
        eapply extremum_elem; [|exact Hc].
        intros x. apply readonly_getfield.
      * right. by exists c, (_round_robin_index st).
Qed.

(** X13: A strategy name outside the three of [RotationStrategy] makes
    [choose_next] raise [ValueError] on a non-empty collection, with no
    change of state. *)
Theorem choose_next_rejects_unknown_strategy strategy rnd st :
  creatives st ≠ [] →
  strategy ∉ ["round_robin"; "best_ctr"; "lowest_cpc"]%string →
  choose_next strategy rnd st
  = (st, Raise (ValueError (NotAStrategy strategy))).
Proof.
  intros Hne Hunknown. unfold choose_next.
  rewrite bind_readonly by done. simpl.
  destruct (creatives st) as [|r0 l]; [done|].
  rewrite bind_readonly by done. simpl. unfold RotationStrategy_of.
  repeat match goal with
         | |- context [String.eqb ?a ?b] =>
             destruct (String.eqb_spec a b) as [->|?]
         end; try done.
  all: exfalso; apply Hunknown; set_solver.
Qed.

(** tests/test_rotator.py:249 *)
Lemma choose_next_rejects_unknown_strategy_witness :
  choose_next "invalid_strategy" 0 Fixtures.rotator_ABC
  = (Fixtures.rotator_ABC,
     Raise (ValueError (NotAStrategy "invalid_strategy"))).
Proof.
  apply choose_next_rejects_unknown_strategy; [done|].
  intros Hin. repeat (apply elem_of_cons in Hin as [Heq|Hin];
                      [discriminate Heq|]).
  by apply not_elem_of_nil in Hin.
Defined.

End ChooseNextProperties.

(* ====================================================================== *)
(** * Further properties of the rotator: minima, maxima and statistics *)
(* ====================================================================== *)

Section Extremum.

Import CreativeRotator.

Variable field : dict → option float.
Variable key : string.
Variable missing : float.
Variable better : float → float → bool.

Hypothesis better_trans :
  ∀ a b c, better b c = true → better a b = true → better a c = true.
Hypothesis better_weak :
  ∀ a b c, better c b = false → better a b = true → better a c = true.

Local Abbreviation value st r := (default missing (field (dict_of st r))).

Lemma key_run st r :
  is_Some (field (dict_of st r)) →
  getfield field key r st = (st, Ok (value st r)).
Proof.
  intros [v Hv]. rewrite getfield_spec. unfold getitem. by rewrite Hv.
Qed.

(** The loop of [max] and [min] keeps the first best of what it has
    scanned. *)
Lemma extremum_loop_first_best st rest :
  ∀ before best after,
    Forall (λ c, is_Some (field (dict_of st c))) rest →
    Forall (λ c, better (value st best) (value st c) = true) before →
    Forall (λ c, better (value st c) (value st best) = false) after →
    ∃ before' best' after',
      before ++ best :: after ++ rest = before' ++ best' :: after'
      ∧ Forall (λ c, better (value st best') (value st c) = true) before'
      ∧ Forall (λ c, better (value st c) (value st best') = false) after'
      ∧ extremum_loop better (getfield field key) rest best (value st best) st
        = (st, Ok best').
Proof using better_trans better_weak.
  induction rest as [|item rest IH]; intros before best after Hkeys Hlt Hge.
  { exists before, best, after. by rewrite app_nil_r. }
  apply list.Forall_cons in Hkeys as [Hitem Hrest].
  simpl. rewrite (bind_run _ _ _ _ _ (key_run st item Hitem)).
  destruct (better (value st item) (value st best)) eqn:Hcmp.
  - destruct (IH (before ++ best :: after) item [] Hrest)
      as (before' & best' & after' & Heq & Hlt' & Hge' & Hrun).
    + apply Forall_app. split; [|apply list.Forall_cons; split].
      * eapply list.Forall_impl; [exact Hlt|]. intros c Hc. simpl in *.
        by apply better_trans with (value st best).
      * done.
      * eapply list.Forall_impl; [exact Hge|]. intros c Hc. simpl in *.
        by apply better_weak with (value st best).
    + constructor.
    + exists before', best', after'. split; [|done].
      rewrite <- Heq. simpl. by rewrite <- app_assoc.
  - destruct (IH before best (after ++ [item]) Hrest Hlt)
      as (before' & best' & after' & Heq & Hlt' & Hge' & Hrun).
    + apply Forall_app. split; [done|]. by apply Forall_singleton.
    + exists before', best', after'. split; [|done].
      rewrite <- Heq. by rewrite <- app_assoc.
Qed.

Lemma extremum_first_best st items :
  items ≠ [] →
  Forall (λ c, is_Some (field (dict_of st c))) items →
  ∃ before best after,
    items = before ++ best :: after
    ∧ Forall (λ c, better (value st best) (value st c) = true) before
    ∧ Forall (λ c, better (value st c) (value st best) = false) after
    ∧ extremum better items (getfield field key) st = (st, Ok best).
Proof using better_trans better_weak.
  destruct items as [|item rest]; [done|]. intros _ Hkeys.
  apply list.Forall_cons in Hkeys as [Hitem Hrest].
  destruct (extremum_loop_first_best st rest [] item [] Hrest)
    as (before & best & after & Heq & Hlt & Hge & Hrun); [done|done|].
  exists before, best, after. split; [done|]. split; [done|]. split; [done|].
  unfold extremum. by rewrite (bind_run _ _ _ _ _ (key_run st item Hitem)).
Qed.

Hypothesis better_irrefl : ∀ a, better a a = false.

(** Nothing of the list is better than the first best. *)
Lemma first_best_is_best st before best after :
  Forall (λ c, better (value st best) (value st c) = true) before →
  Forall (λ c, better (value st c) (value st best) = false) after →
  ∀ c, c ∈ before ++ best :: after →
       better (value st c) (value st best) = false.
Proof using better_trans better_irrefl.
  intros Hlt Hge c [Hc|[->|Hc]%elem_of_cons]%elem_of_app.
  - rewrite list.Forall_forall in Hlt. specialize (Hlt c Hc).
    destruct (better (value st c) (value st best)) eqn:Hcmp; [|done].
    pose proof (better_trans _ _ _ Hlt Hcmp) as Hirr.
    by rewrite better_irrefl in Hirr.
  - apply better_irrefl.
  - rewrite list.Forall_forall in Hge. by apply Hge.
Qed.

End Extremum.

Section LowestCpc.

Import CreativeRotator.

Lemma py_min_cpc_first_minimum st items :
  items ≠ [] →
  Forall (λ c, is_Some (cpc (dict_of st c))) items →
  ∃ before best after,
    items = before ++ best :: after
    ∧ Forall (λ c, float_ltb (cpc_of st best) (cpc_of st c) = true) before
    ∧ Forall (λ c, float_ltb (cpc_of st c) (cpc_of st best) = false) after
    ∧ py_min items (getfield Py.cpc "cpc") st = (st, Ok best).
Proof.
  apply (extremum_first_best Py.cpc "cpc" inf (λ val minval, float_ltb val minval)).
  - intros a b c Hbc Hab. by apply float_ltb_trans with b.
  - intros a b c Hcb Hab. by apply float_lt_le_trans with b.
Qed.

Lemma lowest_cpc_comprehension st :
  well_formed st →
  comprehension (λ c,
      clicks ← getfield Py.clicks "clicks" c;
      mret (clicks >? 0)%Z) (creatives st) st
  = (st, Ok (filter (has_clicks st) (creatives st))).
Proof.
  intros [Hdicts _]. apply comprehension_filter. intros r Hr.
  rewrite list.Forall_forall in Hdicts.
  destruct (Hdicts r Hr) as (_ & _ & _ & [n Hn] & _).
  unfold mbind, M_bind. rewrite getfield_spec.
  unfold getitem, has_clicks. by rewrite Hn.
Qed.

Lemma well_formed_valid_cpc st :
  well_formed st →
  Forall (λ c, is_Some (cpc (dict_of st c)))
         (filter (has_clicks st) (creatives st)).
Proof.
  intros [Hdicts _]. apply list.Forall_forall.
  intros c [_ Hc]%list_elem_of_filter.
  rewrite list.Forall_forall in Hdicts.
  by destruct (Hdicts c Hc) as (_ & _ & _ & _ & _ & _ & ?).
Qed.

(** X14: With [LOWEST_CPC], [choose_next] returns a new dictionary with the
    items of the creative whose [cpc] is the least among those with
    [clicks > 0], the first such one in collection order, so that a
    creative without clicks is never chosen while another has some; when
    no creative has [clicks > 0], it returns a copy of some creative of
    the collection and does not raise. *)
Theorem lowest_cpc_picks_first_minimum st rnd :
  reachable st → creatives st ≠ [] →
  let valid := filter (has_clicks st) (creatives st) in
  (valid ≠ [] →
   ∃ before best after,
     valid = before ++ best :: after
     ∧ has_clicks st best = true
     ∧ Forall (λ c, float_ltb (cpc_of st best) (cpc_of st c) = true) before
     ∧ (∀ c, c ∈ valid → float_ltb (cpc_of st c) (cpc_of st best) = false)
     ∧ choose_next "lowest_cpc" rnd st
       = (with_copy st best, Ok (length (heap st))))
  ∧ (valid = [] →
     ∃ c, c ∈ creatives st
          ∧ choose_next "lowest_cpc" rnd st
            = (with_copy st c, Ok (length (heap st)))).
Proof.
  intros Hwf%reachable_well_formed Hne valid.
  assert (choose_next "lowest_cpc" rnd st = _lowest_cpc_choice rnd st) as ->.
  { unfold choose_next. rewrite bind_readonly by done. simpl.
    by destruct (creatives st). }
  unfold _lowest_cpc_choice. rewrite bind_readonly by done. simpl.
  rewrite (bind_run _ _ _ _ _ (lowest_cpc_comprehension st Hwf)).
  fold valid. split.
  - intros Hvalid.
    destruct (py_min_cpc_first_minimum st valid Hvalid
                (well_formed_valid_cpc st Hwf))
      as (before & best & after & Heq & Hlt & Hge & Hrun).
    exists before, best, after. split; [done|]. split; [|split; [done|split]].
    + assert (best ∈ valid) as Hbest
        by (rewrite Heq; apply elem_of_app; right; left).
      apply list_elem_of_filter in Hbest as [Hbest _].
      by apply Is_true_true in Hbest.
    + intros c. rewrite Heq.
      intros [Hc|[->|Hc]%elem_of_cons]%elem_of_app.
      * rewrite list.Forall_forall in Hlt. specialize (Hlt c Hc).
        destruct (float_ltb (cpc_of st c) (cpc_of st best)) eqn:Hcmp;
          [|done].
        pose proof (float_ltb_trans _ _ _ Hlt Hcmp) as Hirr.
        by rewrite float_ltb_irrefl in Hirr.
      * apply float_ltb_irrefl.
      * rewrite list.Forall_forall in Hge. by apply Hge.
    + destruct valid as [|v rest]; [done|].
      by rewrite (bind_run _ _ _ _ _ Hrun).
  - intros ->.
    destruct (random_choice_elem rnd (creatives st) Hne) as (c & Hrun & Hc).
    exists c. split; [done|]. rewrite bind_readonly by done. simpl.
    by rewrite Hrun.
Qed.

(** tests/test_rotator.py:110, and a rotator without clicks. *)
Lemma lowest_cpc_picks_first_minimum_witness :
  choose_next "lowest_cpc" 0 Fixtures.rotator_ABC
  = (with_copy Fixtures.rotator_ABC 0, Ok 3)
  ∧ ∃ c, choose_next "lowest_cpc" 5
           (__init__ [0] [Fixtures.creative_no_clicks]).1
         = (with_copy (__init__ [0] [Fixtures.creative_no_clicks]).1 c, Ok 1).
Proof.
  split.
  - destruct (lowest_cpc_picks_first_minimum Fixtures.rotator_ABC 0
                rotator_ABC_reachable) as [Hmin _]; [done|].
    destruct Hmin as (before & best & after & Heq & _ & Hlt & _ & Hrun);
      [done|].
    rewrite Hrun. do 2 f_equal.
    change (filter (has_clicks Fixtures.rotator_ABC)
              (creatives Fixtures.rotator_ABC)) with [0; 1; 2] in Heq.
    destruct before as [|b0 [|b1 [|b2 before]]].
    + by injection Heq as <- _.
    + injection Heq as <- <- _.
      apply list.Forall_cons in Hlt as [Hlt _]. discriminate Hlt.
    + injection Heq as <- <- <- _.
      apply list.Forall_cons in Hlt as [Hlt _]. discriminate Hlt.
    + injection Heq as _ _ _ Heq. by destruct before.
  - destruct (lowest_cpc_picks_first_minimum
                (__init__ [0] [Fixtures.creative_no_clicks]).1 5)
      as [_ Hfallback].
    + by apply (reach_init [0] [Fixtures.creative_no_clicks]).
    + done.
    + destruct Hfallback as (c & _ & Hrun); [done|]. by exists c.
Defined.

End LowestCpc.

Section RotationStatistics.

Import CreativeRotator.

Lemma sum_loop_run {A} (add : A → A → A) (zero : A)
    (field : dict → option A) key l acc st :
  Forall (λ r, is_Some (field (dict_of st r))) l →
  sum_loop add (getfield field key) l acc st
  = (st, Ok (foldl (λ acc r, add acc (default zero (field (dict_of st r))))
                   acc l)).
Proof.
  revert acc. induction l as [|r l IH]; intros acc Hl; [done|].
  apply list.Forall_cons in Hl as [[v Hv] Hl].
  simpl. rewrite bind_readonly by done. rewrite getfield_spec. simpl.
  unfold getitem. rewrite Hv. simpl. by apply IH.
Qed.

Lemma gather_run {A} (zero : A) (field : dict → option A) key l st :
  Forall (λ r, is_Some (field (dict_of st r))) l →
  gather (getfield field key) l st
  = (st, Ok (map (λ r, default zero (field (dict_of st r))) l)).
Proof.
  induction l as [|r l IH]; intros Hl; [done|].
  apply list.Forall_cons in Hl as [[v Hv] Hl].
  simpl. rewrite bind_readonly by done. rewrite getfield_spec. simpl.
  unfold getitem. rewrite Hv. simpl.
  by rewrite (bind_run _ _ _ _ _ (IH Hl)).
Qed.

Lemma performer_run (field : dict → option float) key missing r st :
  is_Some (ad_id (dict_of st r)) → is_Some (ad_name (dict_of st r)) →
  is_Some (field (dict_of st r)) →
  performer field key r st
  = (st, Ok (performer_of st (default missing (field (dict_of st r))) r)).
Proof.
  intros [id Hid] [name Hname] [v Hv]. unfold performer, performer_of.
  rewrite bind_readonly by done. rewrite getfield_spec. simpl.
  unfold getitem at 1. rewrite Hid.
  rewrite bind_readonly by done. rewrite getfield_spec. simpl.
  unfold getitem at 1. rewrite Hname.
  rewrite bind_readonly by done. rewrite getfield_spec. simpl.
  unfold getitem. by rewrite Hv.
Qed.

Lemma well_formed_valid_ctr st :
  well_formed st →
  Forall (λ c, is_Some (ctr (dict_of st c)))
         (filter (has_impressions st) (creatives st)).
Proof.
  intros [Hdicts _]. apply list.Forall_forall.
  intros c [_ Hc]%list_elem_of_filter.
  rewrite list.Forall_forall in Hdicts.
  by destruct (Hdicts c Hc) as (_ & _ & _ & _ & _ & ? & _).
Qed.

(** The best and the worst of a non-empty list under a key that every
    item has. *)
Lemma best_and_worst (field : dict → option float) key missing st items :
  items ≠ [] →
  Forall (λ c, is_Some (field (dict_of st c))) items →
  ∃ highest lowest,
    py_max items (getfield field key) st = (st, Ok highest)
    ∧ py_min items (getfield field key) st = (st, Ok lowest)
    ∧ highest ∈ items ∧ lowest ∈ items
    ∧ ∀ c, c ∈ items →
        float_ltb (default missing (field (dict_of st highest)))
                  (default missing (field (dict_of st c))) = false
        ∧ float_ltb (default missing (field (dict_of st c)))
                    (default missing (field (dict_of st lowest))) = false.
Proof.
  intros Hne Hkeys.
  destruct (extremum_first_best field key missing
              (λ val maxval, float_ltb maxval val)) with (st := st)
              (items := items)
    as (b1 & highest & a1 & Heq1 & Hlt1 & Hge1 & Hmax); [| |done|done|].
  { intros a b c ? ?. by apply float_ltb_trans with b. }
  { intros a b c ? ?. by apply float_le_lt_trans with b. }
  destruct (extremum_first_best field key missing
              (λ val minval, float_ltb val minval)) with (st := st)
              (items := items)
    as (b2 & lowest & a2 & Heq2 & Hlt2 & Hge2 & Hmin); [| |done|done|].
  { intros a b c ? ?. by apply float_ltb_trans with b. }
  { intros a b c ? ?. by apply float_lt_le_trans with b. }
  exists highest, lowest. split; [done|]. split; [done|].
  split; [rewrite Heq1; apply elem_of_app; right; left|].
  split; [rewrite Heq2; apply elem_of_app; right; left|].
  intros c Hc. split.
  - rewrite Heq1 in Hc.
    apply (first_best_is_best field missing
             (λ val maxval, float_ltb maxval val)) with (before := b1)
             (after := a1); try done.
    + intros x y z ? ?. by apply float_ltb_trans with y.
    + intros x. apply float_ltb_irrefl.
  - rewrite Heq2 in Hc.
    apply (first_best_is_best field missing
             (λ val minval, float_ltb val minval)) with (before := b2)
             (after := a2); try done.
    + intros x y z ? ?. by apply float_ltb_trans with y.
    + intros x. apply float_ltb_irrefl.
Qed.

Lemma round_0 : round 0%Qc 2 = 0%Qc.
Proof. apply Qc_is_canon. by vm_compute. Qed.

(** rotator.py:141 in a state that satisfies the invariant. *)
Lemma get_rotation_stats_run float_sum st :
  well_formed st →
  let valid_ctr := filter (has_impressions st) (creatives st) in
  let valid_cpc := filter (has_clicks st) (creatives st) in
  ∃ stats,
    get_rotation_stats float_sum st = (st, Ok stats)
    ∧ RotationStats.total_creatives stats = length (creatives st)
    ∧ (RotationStats.total_impressions stats
       = total_of Z.add 0%Z Py.impressions st
       ∧ RotationStats.total_clicks stats = total_of Z.add 0%Z Py.clicks st
       ∧ RotationStats.total_spend stats
         = round (sum_floats float_sum (spends_of st)) 2
       ∧ RotationStats.average_ctr stats
         = round (if (total_of Z.add 0%Z Py.impressions st >? 0)%Z
                  then float_mul
                         (float_div
                            (of_int (total_of Z.add 0%Z Py.clicks st))
                            (of_int (total_of Z.add 0%Z Py.impressions st)))
                         (float_of_int 100)
                  else 0%Qc) 2
       ∧ RotationStats.average_cpc stats
         = round (if (total_of Z.add 0%Z Py.clicks st >? 0)%Z
                  then float_div
                         (sum_floats float_sum (spends_of st))
                         (float_of_int (total_of Z.add 0%Z Py.clicks st))
                  else 0%Qc) 2)
    ∧ match valid_ctr with
      | [] =>
          RotationStats.best_ctr stats = None
          ∧ RotationStats.worst_ctr stats = None
      | _ :: _ =>
          ∃ highest lowest,
            py_max valid_ctr (getfield Py.ctr "ctr") st = (st, Ok highest)
            ∧ highest ∈ valid_ctr ∧ lowest ∈ valid_ctr
            ∧ float_ltb (ctr_of st highest) (ctr_of st lowest) = false
            ∧ RotationStats.best_ctr stats
              = Some (performer_of st (ctr_of st highest) highest)
            ∧ RotationStats.worst_ctr stats
              = Some (performer_of st (ctr_of st lowest) lowest)
      end
    ∧ match valid_cpc with
      | [] =>
          RotationStats.best_cpc stats = None
          ∧ RotationStats.worst_cpc stats = None
      | _ :: _ =>
          ∃ lowest highest,
            py_min valid_cpc (getfield Py.cpc "cpc") st = (st, Ok lowest)
            ∧ lowest ∈ valid_cpc ∧ highest ∈ valid_cpc
            ∧ float_ltb (cpc_of st highest) (cpc_of st lowest) = false
            ∧ RotationStats.best_cpc stats
              = Some (performer_of st (cpc_of st lowest) lowest)
            ∧ RotationStats.worst_cpc stats
              = Some (performer_of st (cpc_of st highest) highest)
      end.
Proof.
  intros Hwf valid_ctr valid_cpc.
  pose proof Hwf as [Hdicts _]. rewrite list.Forall_forall in Hdicts.
  assert (∀ c, c ∈ valid_ctr → complete (dict_of st c)) as Hctr_dicts
    by (intros c [_ Hc]%list_elem_of_filter; by apply Hdicts).
  assert (∀ c, c ∈ valid_cpc → complete (dict_of st c)) as Hcpc_dicts
    by (intros c [_ Hc]%list_elem_of_filter; by apply Hdicts).
  unfold get_rotation_stats. rewrite bind_readonly by done. simpl.
  pose proof (sum_loop_run Z.add 0%Z Py.impressions "impressions"
                (creatives st) 0%Z st) as Hti.
  pose proof (sum_loop_run Z.add 0%Z Py.clicks "clicks" (creatives st) 0%Z
                st) as Htc.
  pose proof (gather_run 0%Qc Py.spend "spend" (creatives st) st) as Hts.
  fold (total_of Z.add 0%Z Py.impressions st) in Hti.
  fold (total_of Z.add 0%Z Py.clicks st) in Htc.
  fold (spends_of st) in Hts.
  set (ti := total_of Z.add 0%Z Py.impressions st) in *.
  set (tc := total_of Z.add 0%Z Py.clicks st) in *.
  set (ts := sum_floats float_sum (spends_of st)) in *.
  specialize (Hti ltac:(apply list.Forall_forall; intros r Hr;
    by destruct (Hdicts r Hr) as (_ & _ & ? & _))).
  specialize (Htc ltac:(apply list.Forall_forall; intros r Hr;
    by destruct (Hdicts r Hr) as (_ & _ & _ & ? & _))).
  specialize (Hts ltac:(apply list.Forall_forall; intros r Hr;
    by destruct (Hdicts r Hr) as (_ & _ & _ & _ & ? & _))).
  rewrite (bind_run _ _ _ _ _ Hti), (bind_run _ _ _ _ _ Htc),
    (bind_run _ _ _ _ _ Hts).
  cbv zeta. fold ts.
  set (avg_ctr := if (ti >? 0)%Z
                  then float_mul (float_div (of_int tc) (of_int ti))
                                 (float_of_int 100)
                  else 0%Qc).
  set (avg_cpc := if (tc >? 0)%Z then float_div ts (float_of_int tc)
                  else 0%Qc).
  rewrite (bind_run _ _ st st avg_ctr).
  2:{ unfold avg_ctr. destruct (ti >? 0)%Z eqn:Hpos; [|done].
      rewrite truediv_nonzero by (apply Z.gtb_lt in Hpos; lia). done. }
  rewrite (bind_run _ _ st st avg_cpc).
  2:{ unfold avg_cpc. destruct (tc >? 0)%Z eqn:Hpos; [|done].
      rewrite truediv_float_nonzero by (apply Z.gtb_lt in Hpos; lia).
      done. }
  rewrite (bind_run _ _ _ _ _ (best_ctr_comprehension st Hwf)).
  rewrite (bind_run _ _ _ _ _ (lowest_cpc_comprehension st Hwf)).
  fold valid_ctr valid_cpc.
  (* the entries for ctr *)
  assert (∃ pair,
            match valid_ctr with
            | [] => mret (None, None)
            | _ :: _ =>
                best_ctr ← py_max valid_ctr (getfield Py.ctr "ctr");
                worst_ctr ← py_min valid_ctr (getfield Py.ctr "ctr");
                best ← performer Py.ctr "ctr" best_ctr;
                worst ← performer Py.ctr "ctr" worst_ctr;
                mret (Some best, Some worst)
            end st = (st, Ok pair)
            ∧ match valid_ctr with
              | [] => pair = (None, None)
              | _ :: _ =>
                  ∃ highest lowest,
                    py_max valid_ctr (getfield Py.ctr "ctr") st
                    = (st, Ok highest)
                    ∧ highest ∈ valid_ctr ∧ lowest ∈ valid_ctr
                    ∧ float_ltb (ctr_of st highest) (ctr_of st lowest) = false
                    ∧ pair
                      = (Some (performer_of st (ctr_of st highest) highest),
                         Some (performer_of st (ctr_of st lowest) lowest))
              end) as (ctr_pair & Hctr_run & Hctr).
  { destruct valid_ctr as [|v rest] eqn:Hvalid; [by eexists|].
    rewrite <- Hvalid in *.
    destruct (best_and_worst Py.ctr "ctr" (Fin 0%Qc) st valid_ctr)
      as (highest & lowest & Hmax & Hmin & Hhi & Hlo & Hbest).
    { by rewrite Hvalid. }
    { apply list.Forall_forall. intros c Hc.
      by destruct (Hctr_dicts c Hc) as (_ & _ & _ & _ & _ & ? & _). }
    eexists. split.
    - rewrite (bind_run _ _ _ _ _ Hmax), (bind_run _ _ _ _ _ Hmin).
      destruct (Hctr_dicts highest Hhi) as (? & ? & _ & _ & _ & ? & _).
      destruct (Hctr_dicts lowest Hlo) as (? & ? & _ & _ & _ & ? & _).
      rewrite (bind_run _ _ _ _ _
                 (performer_run Py.ctr "ctr" (Fin 0%Qc) highest st
                    ltac:(done) ltac:(done) ltac:(done))).
      rewrite (bind_run _ _ _ _ _
                 (performer_run Py.ctr "ctr" (Fin 0%Qc) lowest st
                    ltac:(done) ltac:(done) ltac:(done))).
      reflexivity.
    - exists highest, lowest. repeat split; try done.
      by apply (Hbest lowest). }
  (* the entries for cpc *)
  assert (∃ pair,
            match valid_cpc with
            | [] => mret (None, None)
            | _ :: _ =>
                best_cpc ← py_min valid_cpc (getfield Py.cpc "cpc");
                worst_cpc ← py_max valid_cpc (getfield Py.cpc "cpc");
                best ← performer Py.cpc "cpc" best_cpc;
                worst ← performer Py.cpc "cpc" worst_cpc;
                mret (Some best, Some worst)
            end st = (st, Ok pair)
            ∧ match valid_cpc with
              | [] => pair = (None, None)
              | _ :: _ =>
                  ∃ lowest highest,
                    py_min valid_cpc (getfield Py.cpc "cpc") st
                    = (st, Ok lowest)
                    ∧ lowest ∈ valid_cpc ∧ highest ∈ valid_cpc
                    ∧ float_ltb (cpc_of st highest) (cpc_of st lowest) = false
                    ∧ pair
                      = (Some (performer_of st (cpc_of st lowest) lowest),
                         Some (performer_of st (cpc_of st highest) highest))
              end) as (cpc_pair & Hcpc_run & Hcpc).
  { destruct valid_cpc as [|v rest] eqn:Hvalid; [by eexists|].
    rewrite <- Hvalid in *.
    destruct (best_and_worst Py.cpc "cpc" inf st valid_cpc)
      as (highest & lowest & Hmax & Hmin & Hhi & Hlo & Hbest).
    { by rewrite Hvalid. }
    { apply list.Forall_forall. intros c Hc.
      by destruct (Hcpc_dicts c Hc) as (_ & _ & _ & _ & _ & _ & ?). }
    eexists. split.
    - rewrite (bind_run _ _ _ _ _ Hmin), (bind_run _ _ _ _ _ Hmax).
      destruct (Hcpc_dicts highest Hhi) as (? & ? & _ & _ & _ & _ & ?).
      destruct (Hcpc_dicts lowest Hlo) as (? & ? & _ & _ & _ & _ & ?).
      rewrite (bind_run _ _ _ _ _
                 (performer_run Py.cpc "cpc" inf lowest st
                    ltac:(done) ltac:(done) ltac:(done))).
      rewrite (bind_run _ _ _ _ _
                 (performer_run Py.cpc "cpc" inf highest st
                    ltac:(done) ltac:(done) ltac:(done))).
      reflexivity.
    - exists lowest, highest. repeat split; try done.
      by apply (Hbest highest). }
  rewrite (bind_run _ _ _ _ _ Hctr_run), (bind_run _ _ _ _ _ Hcpc_run).
  eexists. split; [reflexivity|]. simpl. split; [done|]. split; [|split].
  - done.
  - destruct valid_ctr; [by subst ctr_pair|].
    destruct Hctr as (highest & lowest & ? & ? & ? & ? & ->).
    by exists highest, lowest.
  - destruct valid_cpc; [by subst cpc_pair|].
    destruct Hcpc as (lowest & highest & ? & ? & ? & ? & ->).
    by exists lowest, highest.
Qed.

End RotationStatistics.

Section RotationStatisticsProperties.

Import CreativeRotator.

(** X15: on every state a rotator can reach, an emptied rotator included,
    [get_rotation_stats] returns its dictionary without raising and changes
    neither the collection nor any dictionary.  The totals of the
    impressions and of the clicks are the sums over the collection, a
    creative that is there twice counting twice; the total spend is what
    [sum] makes of the spends in collection order, rounded to 2 decimal
    places; and in an emptied rotator every number is 0 and no best or
    worst entry is given. *)
Theorem get_rotation_stats_never_raises float_sum st :
  reachable st →
  ∃ stats,
    get_rotation_stats float_sum st = (st, Ok stats)
    ∧ RotationStats.total_creatives stats = length (creatives st)
    ∧ RotationStats.total_impressions stats
      = total_of Z.add 0%Z Py.impressions st
    ∧ RotationStats.total_clicks stats = total_of Z.add 0%Z Py.clicks st
    ∧ RotationStats.total_spend stats
      = round (sum_floats float_sum (spends_of st)) 2
    ∧ (creatives st = [] →
       stats = RotationStats.mk 0 0 0 0%Qc 0%Qc 0%Qc None None None None).
Proof.
  intros Hwf%reachable_well_formed.
  destruct (get_rotation_stats_run float_sum st Hwf)
    as (stats & Hrun & Hlen & (Hti & Htc & Hts & Hctr & Hcpc) & Hbw_ctr
        & Hbw_cpc).
  exists stats. split; [done|]. split; [done|]. split; [done|].
  split; [done|]. split; [done|].
  intros Hnil. unfold total_of, spends_of in *. rewrite Hnil in *.
  simpl in *.
  rewrite round_0 in *. destruct stats. simpl in *.
  destruct Hbw_ctr as [-> ->], Hbw_cpc as [-> ->]. by subst.
Qed.

(** tests/test_rotator.py:183: three creatives, 3500 impressions, 115
    clicks and a spend of 57.5; and two creatives whose spends, the floats
    0.1 and 0.025, add up to the float 0.125, rounded to 0.12.  Both with
    the summation of CPython up to 3.11. *)
Lemma get_rotation_stats_never_raises_witness :
  (∃ stats,
     get_rotation_stats float_sum_plain Fixtures.rotator_ABC
     = (Fixtures.rotator_ABC, Ok stats)
     ∧ RotationStats.total_creatives stats = 3
     ∧ RotationStats.total_impressions stats = 3500%Z
     ∧ RotationStats.total_clicks stats = 115%Z
     ∧ RotationStats.total_spend stats = Q2Qc (115 # 2))
  ∧ (∃ stats,
       get_rotation_stats float_sum_plain Fixtures.rotator_small
       = (Fixtures.rotator_small, Ok stats)
       ∧ RotationStats.total_spend stats = binary64 (Q2Qc (12 # 100))).
Proof.
  split.
  - destruct (get_rotation_stats_never_raises float_sum_plain
                Fixtures.rotator_ABC rotator_ABC_reachable)
      as (stats & Hrun & Hlen & Hti & Htc & Hts & _).
    exists stats. split; [exact Hrun|]. split; [exact Hlen|].
    split; [exact Hti|]. split; [exact Htc|].
    rewrite Hts. float_eq.
  - destruct (get_rotation_stats_never_raises float_sum_plain
                Fixtures.rotator_small) as (stats & Hrun & _ & _ & _ & Hts & _).
    { apply (reach_init [0; 1]
               [Fixtures.creative_tenth; Fixtures.creative_fortieth]).
      reflexivity. }
    exists stats. split; [exact Hrun|]. rewrite Hts. float_eq.
Defined.

(** X16: the best and the worst entry for [ctr] are given together,
    exactly when some creative has [impressions > 0], and the worst value
    is not above the best one; the same for [cpc] and [clicks > 0], the
    best [cpc] being the lowest. *)
Theorem get_rotation_stats_best_and_worst float_sum st :
  reachable st →
  ∃ stats,
    get_rotation_stats float_sum st = (st, Ok stats)
    ∧ ((∃ c, c ∈ creatives st ∧ has_impressions st c = true)
       ↔ is_Some (RotationStats.best_ctr stats))
    ∧ (is_Some (RotationStats.best_ctr stats)
       ↔ is_Some (RotationStats.worst_ctr stats))
    ∧ (∀ best worst,
         RotationStats.best_ctr stats = Some best →
         RotationStats.worst_ctr stats = Some worst →
         float_ltb (Performer.value best) (Performer.value worst) = false)
    ∧ ((∃ c, c ∈ creatives st ∧ has_clicks st c = true)
       ↔ is_Some (RotationStats.best_cpc stats))
    ∧ (is_Some (RotationStats.best_cpc stats)
       ↔ is_Some (RotationStats.worst_cpc stats))
    ∧ (∀ best worst,
         RotationStats.best_cpc stats = Some best →
         RotationStats.worst_cpc stats = Some worst →
         float_ltb (Performer.value worst) (Performer.value best) = false).
Proof.
  intros Hwf%reachable_well_formed.
  destruct (get_rotation_stats_run float_sum st Hwf)
    as (stats & Hrun & _ & _ & Hbw_ctr & Hbw_cpc).
  exists stats. split; [done|].
  assert (∀ (p : ref → bool) l,
            (∃ c, c ∈ l ∧ p c = true) ↔ filter p l ≠ []) as Hfilter.
  { intros p l. split.
    - intros (c & Hc & Hp) Hnil.
      assert (c ∈ filter p l) as Hin
        by (apply list_elem_of_filter; split; [by rewrite Hp|done]).
      rewrite Hnil in Hin. by apply elem_of_nil in Hin.
    - destruct (filter p l) as [|c rest] eqn:Heq; [done|]. intros _.
      assert (c ∈ filter p l) as [Hp Hc]%list_elem_of_filter
        by (rewrite Heq; left).
      exists c. split; [done|]. by apply Is_true_true in Hp. }
  rewrite !Hfilter.
  destruct (filter (has_impressions st) (creatives st)) as [|v1 rest1].
  - destruct Hbw_ctr as [Hb Hw]. rewrite Hb, Hw.
    split; [split; [done|by intros [? [=]]]|]. split; [done|].
    split; [by intros ? ? [=]|].
    destruct (filter (has_clicks st) (creatives st)) as [|v2 rest2].
    + destruct Hbw_cpc as [Hb' Hw']. rewrite Hb', Hw'.
      split; [split; [done|by intros [? [=]]]|]. split; [done|].
      by intros ? ? [=].
    + destruct Hbw_cpc as (lo & hi & _ & _ & _ & Hle & Hb' & Hw').
      rewrite Hb', Hw'. split; [done|]. split; [done|].
      by intros ? ? [= <-] [= <-].
  - destruct Hbw_ctr as (hi & lo & _ & _ & _ & Hle & Hb & Hw).
    rewrite Hb, Hw. split; [done|]. split; [done|].
    split; [by intros ? ? [= <-] [= <-]|].
    destruct (filter (has_clicks st) (creatives st)) as [|v2 rest2].
    + destruct Hbw_cpc as [Hb' Hw']. rewrite Hb', Hw'.
      split; [split; [done|by intros [? [=]]]|]. split; [done|].
      by intros ? ? [=].
    + destruct Hbw_cpc as (lo' & hi' & _ & _ & _ & Hle' & Hb' & Hw').
      rewrite Hb', Hw'. split; [done|]. split; [done|].
      by intros ? ? [= <-] [= <-].
Qed.

Lemma get_rotation_stats_best_and_worst_witness :
  ∃ stats,
    get_rotation_stats float_sum_plain Fixtures.rotator_ABC
    = (Fixtures.rotator_ABC, Ok stats)
    ∧ is_Some (RotationStats.best_ctr stats)
    ∧ is_Some (RotationStats.worst_cpc stats).
Proof.
  destruct (get_rotation_stats_best_and_worst float_sum_plain
              Fixtures.rotator_ABC rotator_ABC_reachable)
    as (stats & Hrun & Hctr & _ & _ & Hcpc & Hboth & _).
  exists stats. split; [exact Hrun|]. split.
  - apply Hctr. exists 0. split; [|reflexivity].
    apply list_elem_of_In. simpl. by left.
  - apply Hboth, Hcpc. exists 0. split; [|reflexivity].
    apply list_elem_of_In. simpl. by left.
Defined.

(** X17: the statistics and the strategies agree on the best creative.
    When the statistics give a best entry for [ctr], [choose_next] with
    [BEST_CTR] returns a copy of a creative of the collection with the
    [ad_id], [ad_name] and [ctr] of that entry; likewise for the best entry
    for [cpc] and [LOWEST_CPC]. *)
Theorem get_rotation_stats_agrees_with_choose_next float_sum st rnd :
  reachable st →
  ∃ stats,
    get_rotation_stats float_sum st = (st, Ok stats)
    ∧ (∀ entry,
         RotationStats.best_ctr stats = Some entry →
         ∃ c, c ∈ creatives st
              ∧ choose_next "best_ctr" rnd st
                = (with_copy st c, Ok (length (heap st)))
              ∧ entry = performer_of st (ctr_of st c) c)
    ∧ (∀ entry,
         RotationStats.best_cpc stats = Some entry →
         ∃ c, c ∈ creatives st
              ∧ choose_next "lowest_cpc" rnd st
                = (with_copy st c, Ok (length (heap st)))
              ∧ entry = performer_of st (cpc_of st c) c).
Proof.
  intros Hwf%reachable_well_formed.
  destruct (get_rotation_stats_run float_sum st Hwf)
    as (stats & Hrun & _ & _ & Hbw_ctr & Hbw_cpc).
  exists stats. split; [done|]. split.
  - intros entry Hentry.
    destruct (filter (has_impressions st) (creatives st)) as [|v rest]
      eqn:Hvalid.
    { destruct Hbw_ctr as [Hb _]. by rewrite Hb in Hentry. }
    destruct Hbw_ctr as (hi & lo & Hmax & Hhi & _ & _ & Hb & _).
    rewrite Hb in Hentry. injection Hentry as <-.
    rewrite <- Hvalid in Hhi.
    apply list_elem_of_filter in Hhi as [_ Hhi].
    exists hi. split; [done|]. split; [|done].
    assert (creatives st ≠ []) as Hne
      by (intros Hnil; rewrite Hnil in Hhi; by apply elem_of_nil in Hhi).
    assert (choose_next "best_ctr" rnd st = _best_ctr_choice rnd st) as ->.
    { unfold choose_next. rewrite bind_readonly by done. simpl.
      by destruct (creatives st). }
    unfold _best_ctr_choice. rewrite bind_readonly by done. simpl.
    rewrite (bind_run _ _ _ _ _ (best_ctr_comprehension st Hwf)).
    rewrite Hvalid. by rewrite (bind_run _ _ _ _ _ Hmax).
  - intros entry Hentry.
    destruct (filter (has_clicks st) (creatives st)) as [|v rest]
      eqn:Hvalid.
    { destruct Hbw_cpc as [Hb _]. by rewrite Hb in Hentry. }
    destruct Hbw_cpc as (lo & hi & Hmin & Hlo & _ & _ & Hb & _).
    rewrite Hb in Hentry. injection Hentry as <-.
    rewrite <- Hvalid in Hlo.
    apply list_elem_of_filter in Hlo as [_ Hlo].
    exists lo. split; [done|]. split; [|done].
    assert (creatives st ≠ []) as Hne
      by (intros Hnil; rewrite Hnil in Hlo; by apply elem_of_nil in Hlo).
    assert (choose_next "lowest_cpc" rnd st = _lowest_cpc_choice rnd st) as ->.
    { unfold choose_next. rewrite bind_readonly by done. simpl.
      by destruct (creatives st). }
    unfold _lowest_cpc_choice. rewrite bind_readonly by done. simpl.
    rewrite (bind_run _ _ _ _ _ (lowest_cpc_comprehension st Hwf)).
    rewrite Hvalid. by rewrite (bind_run _ _ _ _ _ Hmin).
Qed.

(** tests/test_rotator.py:100 and :183: the creative "A". *)
Lemma get_rotation_stats_agrees_with_choose_next_witness :
  ∃ stats,
    get_rotation_stats float_sum_plain Fixtures.rotator_ABC
    = (Fixtures.rotator_ABC, Ok stats)
    ∧ ∀ entry,
        RotationStats.best_ctr stats = Some entry →
        ∃ c, choose_next "best_ctr" 0 Fixtures.rotator_ABC
             = (with_copy Fixtures.rotator_ABC c, Ok 3).
Proof.
  destruct (get_rotation_stats_agrees_with_choose_next float_sum_plain
              Fixtures.rotator_ABC 0 rotator_ABC_reachable)
    as (stats & Hrun & Hctr & _).
  exists stats. split; [exact Hrun|]. intros entry Hentry.
  destruct (Hctr entry Hentry) as (c & _ & Hchoose & _).
  exists c. exact Hchoose.
Defined.

End RotationStatisticsProperties.

(* ====================================================================== *)
(** * Further properties of the rotator: adding and removing *)
(* ====================================================================== *)

Section AddCreativeProperties.

Import CreativeRotator.

Lemma for_each_first_raise {A} (before after : list A) x
    (body : A → M unit) st e :
  (∀ y, readonly (body y)) →
  (∀ y, y ∈ before → (body y st).2 = Ok tt) →
  (body x st).2 = Raise e →
  for_each (before ++ x :: after) body st = (st, Raise e).
Proof.
  intros Hbody Hbefore Hx. induction before as [|y before IH]; simpl.
  - rewrite bind_readonly by done. by rewrite Hx.
  - rewrite bind_readonly by done.
    rewrite Hbefore by left. apply IH. intros z Hz. apply Hbefore. by right.
Qed.

Lemma first_failure {A} (p : A → bool) l :
  ¬ Forall (λ x, p x = true) l →
  ∃ before x after,
    l = before ++ x :: after
    ∧ Forall (λ y, p y = true) before ∧ p x = false.
Proof.
  induction l as [|y l IH]; intros Hl.
  { destruct Hl. constructor. }
  destruct (p y) eqn:Hy.
  - destruct IH as (before & x & after & -> & Hbefore & Hx).
    { intros Hrest. apply Hl. by constructor. }
    exists (y :: before), x, after. split; [done|]. split; [|done].
    by constructor.
  - by exists [], y, l.
Qed.

Lemma has_required_contains d :
  has_required d ↔ Forall (λ field, contains d field = true) required_fields.
Proof.
  unfold required_fields. rewrite !list.Forall_cons. unfold contains.
  simpl. rewrite !bool_decide_eq_true. unfold has_required.
  split; [intros (? & ? & ? & ? & ?)|intros (? & ? & ? & ? & ? & _)];
    repeat split; done.
Qed.

Lemma state_ext st st' :
  creatives st' = creatives st →
  _round_robin_index st' = _round_robin_index st →
  length (heap st') = length (heap st) →
  (∀ r, dict_of st' r = dict_of st r) →
  st' = st.
Proof.
  destruct st as [h cs i], st' as [h' cs' i']. simpl.
  intros -> -> Hlen Hdict. f_equal.
  apply (list_eq_same_length _ _ (length h)); [done|done|].
  intros r x y Hr Hx Hy. specialize (Hdict r).
  unfold dict_of, lookup_heap in Hdict. simpl in Hdict.
  by rewrite Hx, Hy in Hdict.
Qed.

Lemma filter_all {A} (P : A → Prop) `{!∀ x, Decision (P x)} l :
  Forall P l → filter P l = l.
Proof.
  induction 1 as [|x l Hx Hl IH]; [done|].
  by rewrite filter_cons_True, IH.
Qed.

Lemma has_required_of_backfilled d :
  has_required (backfilled d) → has_required d.
Proof. done. Qed.

(** The constructor on [cs ++ [r]], one step at a time. *)
Lemma __init___snoc cs r h :
  cs ≠ [] →
  Forall (λ c, has_required (lookup_heap h c)) (cs ++ [r]) →
  ∃ st0 st,
    __init__ cs h = (st0, Ok tt)
    ∧ add_creative r st0 = (st, Ok tt)
    ∧ __init__ (cs ++ [r]) h = (st, Ok tt).
Proof.
  intros Hne Hreq. pose proof Hreq as [Hcs Hr]%Forall_app.
  apply list.Forall_cons in Hr as [Hr _].
  destruct (__init___ok cs h Hne Hcs) as [st0 Hinit0].
  destruct (__init___ok (cs ++ [r]) h) as [st Hinit]; [|done|].
  { by destruct cs. }
  destruct (__init___inv _ _ _ Hinit0)
    as (_ & _ & Hcs0 & Hidx0 & Hlen0 & Hdict0).
  destruct (__init___inv _ _ _ Hinit)
    as (_ & _ & Hcs1 & Hidx1 & Hlen1 & Hdict1).
  assert (has_required (dict_of st0 r)) as Hr0.
  { rewrite Hdict0. case_bool_decide; [|exact Hr].
    by apply has_required_backfilled. }
  destruct (add_creative_accepts r st0 Hr0)
    as (st' & Hadd & Hcs' & Hidx' & Hlen' & Hd' & Ho').
  exists st0, st. split; [done|]. split; [|done].
  rewrite Hadd. do 2 f_equal. apply state_ext; try congruence.
  intros c. rewrite Hdict1. destruct (decide (c = r)) as [->|Hc].
  - rewrite Hd', Hdict0.
    rewrite (bool_decide_eq_true_2 (r ∈ cs ++ [r]))
      by (apply elem_of_app; right; left).
    case_bool_decide; [by rewrite backfilled_idemp|done].
  - rewrite Ho', Hdict0 by done.
    rewrite (bool_decide_ext (c ∈ cs) (c ∈ cs ++ [r])); [done|].
    rewrite elem_of_app, list_elem_of_singleton. tauto.
Qed.

(** X18: building a rotator from the creatives [cs] followed by [r] is the
    same as building it from [cs] and adding [r]: the two succeed together
    and end in the same state. *)
Theorem __init___is_add_creative_repeated cs r h st :
  cs ≠ [] →
  __init__ (cs ++ [r]) h = (st, Ok tt)
  ↔ ∃ st0,
      __init__ cs h = (st0, Ok tt) ∧ add_creative r st0 = (st, Ok tt).
Proof.
  intros Hne. split.
  - intros Hinit.
    destruct (__init___inv _ _ _ Hinit) as (_ & Hreq & _).
    destruct (__init___snoc cs r h Hne Hreq) as (st0 & st' & H0 & Hadd & H1).
    exists st0. split; [done|]. congruence.
  - intros (st0 & Hinit0 & Hadd).
    destruct (__init___inv _ _ _ Hinit0) as (_ & Hcs & _ & _ & _ & Hdict0).
    assert (has_required (lookup_heap h r)) as Hr.
    { destruct (decide (has_required (dict_of st0 r))) as [Hr0|Hr0].
      - rewrite Hdict0 in Hr0. case_bool_decide; [|done].
        by apply has_required_of_backfilled.
      - destruct (add_creative_rejects r st0 Hr0) as [e He]. congruence. }
    destruct (__init___snoc cs r h Hne) as (st0' & st' & H0 & Hadd' & H1).
    { apply Forall_app. split; [done|]. by apply Forall_singleton. }
    congruence.
Qed.

Lemma __init___is_add_creative_repeated_witness :
  ∃ st0,
    __init__ [0; 1] Fixtures.test_creatives = (st0, Ok tt)
    ∧ add_creative 2 st0 = (Fixtures.rotator_ABC, Ok tt).
Proof.
  apply (__init___is_add_creative_repeated [0; 1] 2 Fixtures.test_creatives
           Fixtures.rotator_ABC); [discriminate|reflexivity].
Defined.

(** X19: [add_creative] checks before it changes anything.  A dictionary
    that lacks a required key is refused with the [ValueError] of the
    first such key, in the order [ad_id], [ad_name], [impressions],
    [clicks], [spend], and the state is as before.  Any other dictionary
    is accepted, whatever its [ad_id]: it is itself put at the end of the
    collection, with [ctr] and [cpc] filled in where they were absent, and
    neither the cursor nor any other dictionary changes. *)
Theorem add_creative_checks_then_appends r st :
  (¬ has_required (dict_of st r) →
   ∃ before field after,
     required_fields = before ++ field :: after
     ∧ (∀ f, f ∈ before → contains (dict_of st r) f = true)
     ∧ contains (dict_of st r) field = false
     ∧ add_creative r st = (st, Raise (ValueError (MissingField field))))
  ∧ (has_required (dict_of st r) →
     ∃ st',
       add_creative r st = (st', Ok tt)
       ∧ creatives st' = creatives st ++ [r]
       ∧ _round_robin_index st' = _round_robin_index st
       ∧ length (heap st') = length (heap st)
       ∧ dict_of st' r = backfilled (dict_of st r)
       ∧ ∀ r', r' ≠ r → dict_of st' r' = dict_of st r').
Proof.
  split; [|apply add_creative_accepts].
  intros Hreq. rewrite has_required_contains in Hreq.
  apply first_failure in Hreq
    as (before & field & after & Heq & Hbefore & Hfield).
  rewrite list.Forall_forall in Hbefore.
  exists before, field, after. split; [done|]. split; [done|].
  split; [done|].
  unfold add_creative.
  rewrite bind_readonly by apply readonly_check_required_fields.
  assert (check_required_fields r st
          = (st, Raise (ValueError (MissingField field)))) as ->; [|done].
  unfold check_required_fields. rewrite bind_readonly by done.
  change (deref r st).2 with (Ok (dict_of st r)). cbv beta iota.
  rewrite Heq. apply for_each_first_raise.
  - intros f. by destruct (contains (dict_of st r) f).
  - intros f Hf. by rewrite Hbefore.
  - by rewrite Hfield.
Qed.

(** X20: adding a creative whose [ad_id] no creative of the rotator has,
    and removing it again by that [ad_id], gives back the collection and
    the cursor of before; of the dictionaries only the added one may have
    changed, by the [ctr] and [cpc] filled in. *)
Theorem add_creative_then_remove_creative st r id :
  reachable st →
  has_required (dict_of st r) →
  ad_id (dict_of st r) = Some id →
  (∀ c, c ∈ creatives st → ad_id (dict_of st c) ≠ Some id) →
  ∃ st1 st2,
    add_creative r st = (st1, Ok tt)
    ∧ remove_creative id st1 = (st2, Ok true)
    ∧ creatives st2 = creatives st
    ∧ _round_robin_index st2 = _round_robin_index st
    ∧ length (heap st2) = length (heap st)
    ∧ dict_of st2 r = backfilled (dict_of st r)
    ∧ ∀ r', r' ≠ r → dict_of st2 r' = dict_of st r'.
Proof.
  intros Hst Hreq Hid Hfresh.
  pose proof (reachable_well_formed st Hst) as Hwf.
  assert (r ∉ creatives st) as Hr by (intros Hin; by apply (Hfresh r)).
  destruct (add_creative_accepts r st Hreq)
    as (st1 & Hadd & Hcs1 & Hidx1 & Hlen1 & Hd1 & Ho1).
  assert (well_formed st1) as Hwf1.
  { pose proof (well_formed_add_creative r st Hwf) as H.
    by rewrite Hadd in H. }
  assert (filter (λ c, negb (has_ad_id st1 id c)) (creatives st1)
          = creatives st) as Hkept.
  { rewrite Hcs1, filter_app.
    rewrite (filter_all _ (creatives st)).
    - rewrite filter_cons_False, filter_nil; [by rewrite app_nil_r|].
      unfold has_ad_id. rewrite Hd1.
      replace (ad_id (backfilled (dict_of st r))) with (Some id) by done.
      rewrite String.eqb_refl. by intros ?.
    - apply list.Forall_forall. intros c Hc. unfold has_ad_id.
      rewrite Ho1 by (by intros ->).
      specialize (Hfresh c Hc).
      destruct (ad_id (dict_of st c)) as [id'|]; [|done].
      destruct (String.eqb_spec id' id) as [->|]; done. }
  exists st1. eexists. split; [done|].
  rewrite remove_creative_spec by (by apply well_formed_ad_ids).
  rewrite Hkept.
  rewrite decide_True by (rewrite Hcs1, length_app; simpl; lia).
  split; [reflexivity|]. simpl. split; [done|]. split.
  - rewrite Hidx1. case_decide as Hidx; [|done].
    destruct Hwf as [_ [Hlt|[_ ->]]]; [lia|done].
  - by repeat split.
Qed.

Lemma add_creative_then_remove_creative_witness :
  let st :=
    mkState (heap Fixtures.rotator_ABC ++ [Fixtures.creative_D])
            (creatives Fixtures.rotator_ABC)
            (_round_robin_index Fixtures.rotator_ABC) in
  ∃ st1 st2,
    add_creative 3 st = (st1, Ok tt)
    ∧ remove_creative "ad_4" st1 = (st2, Ok true)
    ∧ creatives st2 = [0; 1; 2].
Proof.
  intros st.
  destruct (add_creative_then_remove_creative st 3 "ad_4")
    as (st1 & st2 & Hadd & Hremove & Hcs & _).
  - apply reach_new_dict. apply rotator_ABC_reachable.
  - vm_compute. repeat split; by eexists.
  - reflexivity.
  - intros c Hc. apply list_elem_of_In in Hc. simpl in Hc.
    destruct Hc as [<-|[<-|[<-|[]]]]; discriminate.
  - exists st1, st2. split; [exact Hadd|]. split; [exact Hremove|exact Hcs].
Defined.

End AddCreativeProperties.

(* ====================================================================== *)
(** * Further properties of the rotator: simulation *)
(* ====================================================================== *)

Section SimulateRotationProperties.

Import CreativeRotator.

Lemma bind_raise {A B} (m : M A) (k : A → M B) st st' e :
  m st = (st', Raise e) → (x ← m; k x) st = (st', Raise e).
Proof. intros Hm. unfold mbind, M_bind. by rewrite Hm. Qed.

Lemma extends_refl st : extends st st.
Proof. split; [done|]. exists []. by rewrite app_nil_r. Qed.

Lemma extends_dict st st' c :
  well_formed st → extends st st' → c ∈ creatives st →
  dict_of st' c = dict_of st c.
Proof.
  intros [Hdicts _] [_ [copies Hheap]] Hc.
  rewrite list.Forall_forall in Hdicts.
  unfold dict_of, lookup_heap. rewrite Hheap, lookup_app_l; [done|].
  by apply complete_in_heap, Hdicts.
Qed.

Lemma extends_old_dict st st' r :
  extends st st' → r < length (heap st) → dict_of st' r = dict_of st r.
Proof.
  intros [_ [copies Hheap]] Hr.
  unfold dict_of, lookup_heap. by rewrite Hheap, lookup_app_l.
Qed.

Lemma extends_copy st st' c i :
  extends st st' →
  extends st (mkState (heap st' ++ [dict_of st' c]) (creatives st') i).
Proof.
  intros [Hcs [copies Hheap]]. split; [done|]. simpl.
  exists (copies ++ [dict_of st' c]). by rewrite Hheap, <- app_assoc.
Qed.

Lemma extends_trans st1 st2 st3 :
  extends st1 st2 → extends st2 st3 → extends st1 st3.
Proof.
  intros [Hcs1 [copies1 Hheap1]] [Hcs2 [copies2 Hheap2]].
  split; [congruence|]. exists (copies1 ++ copies2).
  by rewrite Hheap2, Hheap1, <- app_assoc.
Qed.

Lemma extends_length st st' :
  extends st st' → length (heap st) ≤ length (heap st').
Proof. intros [_ [copies ->]]. rewrite length_app. lia. Qed.

(** The loop of [simulate_rotation] when each call of [choose_next]
    copies a creative that satisfies [P] and leaves a cursor that
    satisfies [I]. *)
Lemma simulate_loop_copies strategy rnd (P : nat → Prop) (I : nat → Prop) st :
  well_formed st →
  (∀ st' rnd',
     well_formed st' → extends st st' → I (_round_robin_index st') →
     ∃ c i,
       P c ∧ c ∈ creatives st ∧ I i
       ∧ choose_next strategy rnd' st'
         = (mkState (heap st' ++ [dict_of st' c]) (creatives st') i,
            Ok (length (heap st')))) →
  ∀ n start acc st',
    well_formed st' → extends st st' → I (_round_robin_index st') →
    ∃ st'' out,
      simulate_loop strategy rnd (seq start n) acc st' = (st'', Ok (acc ++ out))
      ∧ length out = n
      ∧ extends st' st''
      ∧ I (_round_robin_index st'')
      ∧ ∀ k, k < n →
          ∃ r c,
            out !! k = Some (start + k + 1, r)
            ∧ P c ∧ c ∈ creatives st
            ∧ length (heap st) ≤ r
            ∧ dict_of st'' r = dict_of st c.
Proof.
  intros Hwf Hchoose. induction n as [|n IH]; intros start acc st' Hwf' Hext HI.
  { exists st', []. simpl. rewrite app_nil_r.
    split; [done|]. split; [done|]. split; [apply extends_refl|].
    split; [done|]. intros k Hk. lia. }
  destruct (Hchoose st' (rnd start) Hwf' Hext HI)
    as (c & i & HP & Hc & HIi & Hstep).
  pose proof (well_formed_choose_next strategy (rnd start) st' Hwf') as Hwf1.
  rewrite Hstep in Hwf1. simpl in Hwf1.
  pose proof (extends_copy st st' c i Hext) as Hext1.
  simpl. rewrite (bind_run _ _ _ _ _ Hstep).
  set (st1 := mkState (heap st' ++ [dict_of st' c]) (creatives st') i) in *.
  destruct (IH (S start) (acc ++ [(start + 1, length (heap st'))]) st1
              Hwf1 Hext1 HIi)
    as (st'' & out & Hrun & Hlen & Hext1'' & HI'' & Hcalls).
  assert (extends st' st1) as Hstep1
    by (apply (extends_copy st' st' c i), extends_refl).
  exists st'', ((start + 1, length (heap st')) :: out).
  split; [by rewrite Hrun, <- app_assoc|].
  split; [simpl; lia|].
  split; [by apply extends_trans with st1|]. split; [done|].
  intros [|k] Hk.
  - exists (length (heap st')), c. rewrite Nat.add_0_r.
    split; [done|]. split; [done|]. split; [done|].
    split; [by apply extends_length|].
    rewrite (extends_old_dict st1 st'' (length (heap st')) Hext1'').
    + unfold dict_of at 1. simpl. rewrite lookup_heap_app_new.
      by apply extends_dict.
    + simpl. rewrite length_app. simpl. lia.
  - destruct (Hcalls k) as (r & c' & Hout & HP' & Hc' & Hr & Hdict); [lia|].
    exists r, c'. split; [simpl; rewrite Hout; do 2 f_equal; lia|done].
Qed.

(** [choose_next] in a state that satisfies the invariant, with a
    collection that is not empty and one of the three strategies. *)
Lemma choose_next_copies strategy rnd st :
  well_formed st → creatives st ≠ [] →
  strategy ∈ ["round_robin"; "best_ctr"; "lowest_cpc"]%string →
  ∃ c i,
    c ∈ creatives st
    ∧ choose_next strategy rnd st
      = (mkState (heap st ++ [dict_of st c]) (creatives st) i,
         Ok (length (heap st)))
    ∧ (strategy ≠ "round_robin"%string → i = _round_robin_index st)
    ∧ (strategy = "best_ctr"%string →
       filter (has_impressions st) (creatives st) ≠ [] →
       (py_max (filter (has_impressions st) (creatives st))
               (getfield Py.ctr "ctr") st).2 = Ok c)
    ∧ (strategy = "lowest_cpc"%string →
       filter (has_clicks st) (creatives st) ≠ [] →
       (py_min (filter (has_clicks st) (creatives st))
               (getfield Py.cpc "cpc") st).2 = Ok c).
Proof.
  intros Hwf Hne Hstrategy.
  apply elem_of_cons in Hstrategy as [->|Hstrategy];
    [|apply elem_of_cons in Hstrategy as [->|Hstrategy];
      [|apply list_elem_of_singleton in Hstrategy as ->]].
  - destruct (well_formed_cursor_lookup st Hwf Hne) as [c Hc].
    exists c, ((_round_robin_index st + 1) mod length (creatives st)).
    split; [by apply list_elem_of_lookup_2 with (_round_robin_index st)|].
    split; [by apply round_robin_step|]. by repeat split.
  - assert (choose_next "best_ctr" rnd st = _best_ctr_choice rnd st) as ->.
    { unfold choose_next. rewrite bind_readonly by done. simpl.
      by destruct (creatives st). }
    unfold _best_ctr_choice. rewrite bind_readonly by done. simpl.
    rewrite (bind_run _ _ _ _ _ (best_ctr_comprehension st Hwf)).
    destruct (filter (has_impressions st) (creatives st)) as [|v rest]
      eqn:Hvalid.
    + destruct (random_choice_elem rnd (creatives st) Hne)
        as (c & Hrun & Hc).
      exists c, (_round_robin_index st). split; [done|].
      split; [|by repeat split].
      rewrite bind_readonly by done. simpl. by rewrite Hrun.
    + rewrite <- Hvalid.
      destruct (py_max_first_maximum st
                  (filter (has_impressions st) (creatives st)))
        as (before & best & after & Heq & _ & _ & Hrun).
      { by rewrite Hvalid. }
      { by apply well_formed_valid_ctr. }
      assert (best ∈ creatives st) as Hbest.
      { assert (best ∈ filter (has_impressions st) (creatives st)) as Hin
          by (rewrite Heq; apply elem_of_app; right; left).
        by apply list_elem_of_filter in Hin as [_ ?]. }
      exists best, (_round_robin_index st). split; [done|]. split.
      * rewrite Hvalid in *. by rewrite (bind_run _ _ _ _ _ Hrun).
      * split; [done|]. split; [|done]. intros _ _. by rewrite Hrun.
  - assert (choose_next "lowest_cpc" rnd st = _lowest_cpc_choice rnd st)
      as ->.
    { unfold choose_next. rewrite bind_readonly by done. simpl.
      by destruct (creatives st). }
    unfold _lowest_cpc_choice. rewrite bind_readonly by done. simpl.
    rewrite (bind_run _ _ _ _ _ (lowest_cpc_comprehension st Hwf)).
    destruct (filter (has_clicks st) (creatives st)) as [|v rest]
      eqn:Hvalid.
    + destruct (random_choice_elem rnd (creatives st) Hne)
        as (c & Hrun & Hc).
      exists c, (_round_robin_index st). split; [done|].
      split; [|by repeat split].
      rewrite bind_readonly by done. simpl. by rewrite Hrun.
    + rewrite <- Hvalid.
      destruct (py_min_cpc_first_minimum st
                  (filter (has_clicks st) (creatives st)))
        as (before & best & after & Heq & _ & _ & Hrun).
      { by rewrite Hvalid. }
      { by apply well_formed_valid_cpc. }
      assert (best ∈ creatives st) as Hbest.
      { assert (best ∈ filter (has_clicks st) (creatives st)) as Hin
          by (rewrite Heq; apply elem_of_app; right; left).
        by apply list_elem_of_filter in Hin as [_ ?]. }
      exists best, (_round_robin_index st). split; [done|]. split.
      * rewrite Hvalid in *. by rewrite (bind_run _ _ _ _ _ Hrun).
      * split; [done|]. split; [done|]. intros _ _. by rewrite Hrun.
Qed.

(** X21: on a rotator with creatives and with one of the three
    strategies, [simulate_rotation] does not raise and returns one entry
    for each of the [iterations], numbered from 1 in order; each chosen
    creative is a dictionary created by the call, with the items of a
    creative of the collection; the collection and the dictionaries that
    existed keep their contents. *)
Theorem simulate_rotation_returns_numbered_copies st iterations strategy rnd :
  reachable st → creatives st ≠ [] →
  strategy ∈ ["round_robin"; "best_ctr"; "lowest_cpc"]%string →
  ∃ st' out,
    simulate_rotation iterations strategy rnd st = (st', Ok out)
    ∧ length out = Z.to_nat iterations
    ∧ creatives st' = creatives st
    ∧ (∀ r, r < length (heap st) → dict_of st' r = dict_of st r)
    ∧ ∀ k, k < Z.to_nat iterations →
        ∃ r c,
          out !! k = Some (k + 1, r)
          ∧ c ∈ creatives st
          ∧ length (heap st) ≤ r
          ∧ dict_of st' r = dict_of st c.
Proof.
  intros Hwf%reachable_well_formed Hne Hstrategy.
  unfold simulate_rotation.
  set (st0 := if String.eqb strategy "round_robin" then with_index st 0
              else st).
  assert ((if String.eqb strategy "round_robin" then reset_round_robin
           else mret ()) st = (st0, Ok tt)) as Hreset
    by (unfold st0; by destruct (String.eqb strategy "round_robin")).
  rewrite (bind_run _ _ _ _ _ Hreset).
  assert (well_formed st0) as Hwf0.
  { unfold st0. destruct (String.eqb strategy "round_robin"); [|done].
    by apply (well_formed_reset_round_robin st). }
  assert (heap st0 = heap st ∧ creatives st0 = creatives st) as [Hheap Hcs]
    by (unfold st0; by destruct (String.eqb strategy "round_robin")).
  destruct (simulate_loop_copies strategy rnd (λ _, True) (λ _, True) st0 Hwf0)
    with (n := Z.to_nat iterations) (start := 0)
         (acc := @nil (nat * nat)) (st' := st0)
    as (st' & out & Hrun & Hlen & Hext & _ & Hcalls);
    [|done|apply extends_refl|done|].
  { intros st1 rnd1 Hwf1 [Hcs1 _] _.
    destruct (choose_next_copies strategy rnd1 st1 Hwf1)
      as (c & i & Hc & Hstep & _); [congruence|done|].
    exists c, i. split; [done|]. split; [congruence|]. by split. }
  exists st', out. split; [done|]. split; [done|].
  split; [destruct Hext; congruence|].
  split.
  { intros r Hr. rewrite (extends_old_dict st0 st' r Hext) by congruence.
    unfold dict_of. by rewrite Hheap. }
  intros k Hk. destruct (Hcalls k Hk) as (r & c & Hout & _ & Hc & Hr & Hd).
  exists r, c. split; [done|]. split; [congruence|].
  split; [congruence|]. rewrite Hd. unfold dict_of. by rewrite Hheap.
Qed.

(** tests/test_rotator.py:228 *)
Lemma simulate_rotation_returns_numbered_copies_witness :
  ∃ st' out,
    simulate_rotation 5 "round_robin" (λ _, 0) Fixtures.rotator_ABC
    = (st', Ok out)
    ∧ length out = 5.
Proof.
  destruct (simulate_rotation_returns_numbered_copies Fixtures.rotator_ABC 5
              "round_robin" (λ _, 0) rotator_ABC_reachable)
    as (st' & out & Hrun & Hlen & _).
  - discriminate.
  - apply list_elem_of_here.
  - exists st', out. split; [exact Hrun|exact Hlen].
Defined.

(** X22: what [simulate_rotation] does when it cannot choose.  Without
    iterations, zero or negative, it returns an empty list whatever the
    strategy name and the collection are.  With iterations, it raises
    [ValueError] on an emptied rotator and on a strategy name that is not
    one of the three.  In each case the state is as before, but for the
    cursor, which is reset when the name is ["round_robin"]. *)
Theorem simulate_rotation_without_choice st iterations strategy rnd :
  let st0 := if String.eqb strategy "round_robin" then with_index st 0
             else st in
  ((iterations ≤ 0)%Z →
   simulate_rotation iterations strategy rnd st = (st0, Ok []))
  ∧ ((0 < iterations)%Z → creatives st = [] →
     simulate_rotation iterations strategy rnd st
     = (st0, Raise (ValueError NoCreativesAvailable)))
  ∧ ((0 < iterations)%Z → creatives st ≠ [] →
     strategy ∉ ["round_robin"; "best_ctr"; "lowest_cpc"]%string →
     simulate_rotation iterations strategy rnd st
     = (st, Raise (ValueError (NotAStrategy strategy)))).
Proof.
  intros st0. unfold simulate_rotation.
  assert ((if String.eqb strategy "round_robin" then reset_round_robin
           else mret ()) st = (st0, Ok tt)) as Hreset
    by (unfold st0; by destruct (String.eqb strategy "round_robin")).
  rewrite (bind_run _ _ _ _ _ Hreset).
  assert (creatives st0 = creatives st) as Hcs
    by (unfold st0; by destruct (String.eqb strategy "round_robin")).
  split; [|split].
  - intros Hle. by replace (Z.to_nat iterations) with 0 by lia.
  - intros Hlt Hnil.
    destruct (Z.to_nat iterations) as [|n] eqn:Hn; [lia|].
    simpl. apply bind_raise.
    unfold choose_next. rewrite bind_readonly by done. simpl.
    by rewrite Hcs, Hnil.
  - intros Hlt Hne Hunknown.
    assert (st0 = st) as ->.
    { unfold st0. destruct (String.eqb_spec strategy "round_robin"); [|done].
      exfalso. apply Hunknown. subst. apply list_elem_of_here. }
    destruct (Z.to_nat iterations) as [|n] eqn:Hn; [lia|].
    simpl. apply bind_raise.
    unfold choose_next. rewrite bind_readonly by done. simpl.
    destruct (creatives st) as [|r0 l]; [done|].
    rewrite bind_readonly by done. simpl. unfold RotationStrategy_of.
    repeat match goal with
           | |- context [String.eqb ?a ?b] =>
               destruct (String.eqb_spec a b) as [->|?]
           end; try done.
    all: exfalso; apply Hunknown; set_solver.
Qed.

Lemma simulate_loop_round_robin_cursor rnd n :
  ∀ start acc st,
    well_formed st → creatives st ≠ [] →
    _round_robin_index
      (simulate_loop "round_robin" rnd (seq start n) acc st).1
    = (_round_robin_index st + n) mod length (creatives st).
Proof.
  induction n as [|n IH]; intros start acc st Hwf Hne.
  { simpl. rewrite Nat.add_0_r, Nat.mod_small; [done|].
    by apply (well_formed_cursor st Hwf). }
  destruct (well_formed_cursor_lookup st Hwf Hne) as [c Hc].
  pose proof (round_robin_step st (rnd start) c Hc) as Hstep.
  pose proof (well_formed_choose_next "round_robin" (rnd start) st Hwf)
    as Hwf1.
  simpl. rewrite (bind_run _ _ _ _ _ Hstep).
  rewrite Hstep in Hwf1. simpl in Hwf1.
  rewrite IH by done. simpl.
  rewrite Nat.Div0.add_mod_idemp_l. f_equal. lia.
Qed.

(** X23: a simulation with [ROUND_ROBIN] does not depend on where the
    cursor was: its entry number [k + 1] is a copy of the creative at
    position [k mod len(creatives)].  It moves the cursor of the rotator
    itself, which ends at [iterations mod len(creatives)]. *)
Theorem simulate_rotation_round_robin_restarts st iterations rnd :
  reachable st → creatives st ≠ [] →
  let n := Z.to_nat iterations in
  ∃ st' out,
    simulate_rotation iterations "round_robin" rnd st = (st', Ok out)
    ∧ _round_robin_index st' = n mod length (creatives st)
    ∧ ∀ k, k < n →
        ∃ r c,
          out !! k = Some (k + 1, r)
          ∧ creatives st !! (k mod length (creatives st)) = Some c
          ∧ dict_of st' r = dict_of st c.
Proof.
  intros Hwf%reachable_well_formed Hne n.
  pose proof (well_formed_reset_round_robin st Hwf) as Hwf0.
  unfold simulate_rotation. simpl.
  change ((reset_round_robin ≫= _) st)
    with (simulate_loop "round_robin" rnd (seq 0 n) []
            (reset_round_robin st).1).
  set (st0 := (reset_round_robin st).1) in *.
  destruct (simulate_loop_round_robin rnd n 0 [] st0 Hwf0 Hne)
    as (st' & out & Hrun & _ & _ & _ & _ & Hcalls).
  pose proof (simulate_loop_round_robin_cursor rnd n 0 [] st0 Hwf0 Hne)
    as Hcursor.
  rewrite Hrun in Hcursor.
  exists st', out. split; [done|]. split; [done|].
  intros k Hk. destruct (Hcalls k Hk) as (r & c & Hout & Hc & _ & Hd).
  by exists r, c.
Qed.

(** The cursor of the fixture is moved to 1 before the simulation. *)
Lemma simulate_rotation_round_robin_restarts_witness :
  let st := (choose_next "round_robin" 0 Fixtures.rotator_ABC).1 in
  _round_robin_index st = 1
  ∧ ∃ st' out,
      simulate_rotation 5 "round_robin" (λ _, 0) st = (st', Ok out)
      ∧ _round_robin_index st' = 2.
Proof.
  intros st. split; [reflexivity|].
  destruct (simulate_rotation_round_robin_restarts st 5 (λ _, 0))
    as (st' & out & Hrun & Hcursor & _).
  - apply reach_choose_next, rotator_ABC_reachable.
  - discriminate.
  - exists st', out. split; [exact Hrun|exact Hcursor].
Defined.

Lemma filter_ext_in {A} (f g : A → bool) (l : list A) :
  (∀ x, x ∈ l → f x = g x) → filter f l = filter g l.
Proof.
  induction l as [|x l IH]; intros Hfg; [done|].
  rewrite !filter_cons, (Hfg x) by left.
  rewrite IH by (intros y Hy; apply Hfg; by right). done.
Qed.

Lemma extremum_loop_ext better key items best bestval st st' :
  (∀ x, readonly (key x)) →
  (∀ c, c ∈ items → (key c st').2 = (key c st).2) →
  (extremum_loop better key items best bestval st').2
  = (extremum_loop better key items best bestval st).2.
Proof.
  intros Hkey. revert best bestval.
  induction items as [|item rest IH]; intros best bestval Hsame; [done|].
  simpl. rewrite !bind_readonly by done. rewrite (Hsame item) by left.
  destruct (key item st).2 as [val|e]; [|done].
  destruct (better val bestval); apply IH; intros c Hc; apply Hsame;
    by right.
Qed.

Lemma extremum_ext better key items st st' :
  (∀ x, readonly (key x)) →
  (∀ c, c ∈ items → (key c st').2 = (key c st).2) →
  (extremum better items key st').2 = (extremum better items key st).2.
Proof.
  intros Hkey Hsame. destruct items as [|item rest]; [done|].
  simpl. rewrite !bind_readonly by done. rewrite (Hsame item) by left.
  destruct (key item st).2 as [val|e]; [|done].
  apply extremum_loop_ext; [done|]. intros c Hc. apply Hsame. by right.
Qed.

(** X24: a simulation with [BEST_CTR] chooses the same creative at every
    iteration when some creative has [impressions > 0]: the one with the
    greatest [ctr] among these; with [LOWEST_CPC] and [clicks > 0], the one
    with the least [cpc].  The cursor of the rotator is not moved. *)
Theorem simulate_rotation_metric_strategy_repeats st iterations rnd :
  reachable st →
  let n := Z.to_nat iterations in
  let valid_ctr := filter (has_impressions st) (creatives st) in
  let valid_cpc := filter (has_clicks st) (creatives st) in
  (valid_ctr ≠ [] →
   ∃ best st' out,
     best ∈ valid_ctr
     ∧ (∀ c, c ∈ valid_ctr →
          float_ltb (ctr_of st best) (ctr_of st c) = false)
     ∧ simulate_rotation iterations "best_ctr" rnd st = (st', Ok out)
     ∧ _round_robin_index st' = _round_robin_index st
     ∧ ∀ k, k < n →
         ∃ r, out !! k = Some (k + 1, r) ∧ dict_of st' r = dict_of st best)
  ∧ (valid_cpc ≠ [] →
     ∃ best st' out,
       best ∈ valid_cpc
       ∧ (∀ c, c ∈ valid_cpc →
            float_ltb (cpc_of st c) (cpc_of st best) = false)
       ∧ simulate_rotation iterations "lowest_cpc" rnd st = (st', Ok out)
       ∧ _round_robin_index st' = _round_robin_index st
       ∧ ∀ k, k < n →
           ∃ r, out !! k = Some (k + 1, r) ∧ dict_of st' r = dict_of st best).
Proof.
  intros Hwf%reachable_well_formed n valid_ctr valid_cpc.
  assert (∀ (p : nat → bool), filter p (creatives st) ≠ [] →
            creatives st ≠ []) as Hnonempty
    by (intros p Hp Hnil; by rewrite Hnil in Hp).
  split.
  - intros Hvalid.
    destruct (best_and_worst Py.ctr "ctr" (Fin 0%Qc) st valid_ctr Hvalid)
      as (best & worst & Hmax & _ & Hbest & _ & Hbound).
    { by apply well_formed_valid_ctr. }
    destruct (simulate_loop_copies "best_ctr" rnd (λ c, c = best)
                (λ i, i = _round_robin_index st) st Hwf)
      with (n := n) (start := 0) (acc := @nil (nat * nat)) (st' := st)
      as (st' & out & Hrun & _ & _ & Hcursor & Hcalls);
      [|done|apply extends_refl|done|].
    { intros st1 rnd1 Hwf1 Hext Hidx. pose proof Hext as [Hcs1 _].
      assert (filter (has_impressions st1) (creatives st1) = valid_ctr)
        as Hsame.
      { rewrite Hcs1. apply filter_ext_in. intros c Hc.
        unfold has_impressions. by rewrite (extends_dict st st1 c). }
      destruct (choose_next_copies "best_ctr" rnd1 st1 Hwf1)
        as (c & i & Hc & Hstep & Hi & Hctr & _).
      { rewrite Hcs1. by apply (Hnonempty (has_impressions st)). }
      { apply list_elem_of_further, list_elem_of_here. }
      assert (c = best) as ->.
      { specialize (Hctr eq_refl). rewrite Hsame in Hctr.
        specialize (Hctr Hvalid).
        unfold py_max in *. rewrite (extremum_ext _ _ _ st st1) in Hctr.
        - rewrite Hmax in Hctr. by injection Hctr.
        - intros x. apply readonly_getfield.
        - intros x [_ Hx]%list_elem_of_filter. rewrite !getfield_spec.
          simpl. by rewrite (extends_dict st st1 x). }
      exists best, i. split; [done|]. split; [congruence|].
      split; [|done]. rewrite Hi by done. done. }
    exists best, st', out. split; [done|].
    split; [intros c Hc; by apply (Hbound c)|].
    split; [done|]. split; [done|]. intros k Hk.
    destruct (Hcalls k Hk) as (r & c & Hout & -> & _ & _ & Hd).
    by exists r.
  - intros Hvalid.
    destruct (best_and_worst Py.cpc "cpc" inf st valid_cpc Hvalid)
      as (worst & best & _ & Hmin & _ & Hbest & Hbound).
    { by apply well_formed_valid_cpc. }
    destruct (simulate_loop_copies "lowest_cpc" rnd (λ c, c = best)
                (λ i, i = _round_robin_index st) st Hwf)
      with (n := n) (start := 0) (acc := @nil (nat * nat)) (st' := st)
      as (st' & out & Hrun & _ & _ & Hcursor & Hcalls);
      [|done|apply extends_refl|done|].
    { intros st1 rnd1 Hwf1 Hext Hidx. pose proof Hext as [Hcs1 _].
      assert (filter (has_clicks st1) (creatives st1) = valid_cpc)
        as Hsame.
      { rewrite Hcs1. apply filter_ext_in. intros c Hc.
        unfold has_clicks. by rewrite (extends_dict st st1 c). }
      destruct (choose_next_copies "lowest_cpc" rnd1 st1 Hwf1)
        as (c & i & Hc & Hstep & Hi & _ & Hcpc).
      { rewrite Hcs1. by apply (Hnonempty (has_clicks st)). }
      { do 2 apply list_elem_of_further. apply list_elem_of_here. }
      assert (c = best) as ->.
      { specialize (Hcpc eq_refl). rewrite Hsame in Hcpc.
        specialize (Hcpc Hvalid).
        unfold py_min in *. rewrite (extremum_ext _ _ _ st st1) in Hcpc.
        - rewrite Hmin in Hcpc. by injection Hcpc.
        - intros x. apply readonly_getfield.
        - intros x [_ Hx]%list_elem_of_filter. rewrite !getfield_spec.
          simpl. by rewrite (extends_dict st st1 x). }
      exists best, i. split; [done|]. split; [congruence|].
      split; [|done]. rewrite Hi by done. done. }
    exists best, st', out. split; [done|].
    split; [intros c Hc; by apply (Hbound c)|].
    split; [done|]. split; [done|]. intros k Hk.
    destruct (Hcalls k Hk) as (r & c & Hout & -> & _ & _ & Hd).
    by exists r.
Qed.

(** tests/test_rotator.py:100: "ad_1" at each of three iterations. *)
Lemma simulate_rotation_metric_strategy_repeats_witness :
  ∃ best st' out,
    simulate_rotation 3 "best_ctr" (λ _, 0) Fixtures.rotator_ABC
    = (st', Ok out)
    ∧ ∀ k, k < 3 →
        ∃ r, out !! k = Some (k + 1, r)
             ∧ dict_of st' r = dict_of Fixtures.rotator_ABC best.
Proof.
  destruct (simulate_rotation_metric_strategy_repeats Fixtures.rotator_ABC 3
              (λ _, 0) rotator_ABC_reachable) as [Hctr _].
  destruct Hctr as (best & st' & out & _ & _ & Hrun & _ & Hcalls).
  - discriminate.
  - exists best, st', out. split; [exact Hrun|exact Hcalls].
Defined.

End SimulateRotationProperties.
